(** * Simulation log parser: [ui/core/proto_utils/logs_parser.tsx]

    A shallow embedding of the log parser of the simulation UI and of the
    reconstructors built on it (temporal grouping, DPS window, aura uptimes,
    resource groups, casts), followed by the properties proved about them.

    Conventions of the embedding.
    - A JavaScript [number] that carries a time, an amount or a value is kept
      as the rational ([Q]) that its text denotes; [==] on such numbers is
      [Qeq_bool], the comparisons are [Qle_bool] and [Qlt_bool].  The running
      total of [DpsLog.fromLogs] is computed on the IEEE doubles of these
      numbers, with their rounding, infinities and NaN (see Double
      precision); elsewhere the arithmetic is that of the rationals.  Indices
      are [nat], enum values and identifiers are [Z].
    - [T | null] is [option T].
    - The class hierarchy under [SimLog] is a sum type over one record per
      subclass; every record starts with the header the [SimLog] constructor
      copies from its [SimLogParams].
    - An exception (the [TypeError] of a member access on [null] or
      [undefined], a thrown [Error]) is the [Throw] result of the error monad
      [Result].
    - What the file imports from elsewhere ([ActionId], the regular expression
      engine of the host, [parseFloat], the proto enums) is taken through the
      classes [ActionIdApi] and [HostApi]. *)

From Stdlib Require Import Floats.
From Stdlib Require Import List String Ascii ZArith QArith Bool Arith Lia Lqa.
From Stdlib Require Import Permutation Sorted.
Import ListNotations.

Set Implicit Arguments.

(** ** Numbers *)

Abbreviation number := Q (only parsing).

Definition Qlt_bool (x y : Q) : bool := negb (Qle_bool y x).

(** Truthiness of a JavaScript number: every number but 0 is truthy. *)
Definition truthy (x : number) : bool := negb (Qeq_bool x 0).

(** ** Errors *)

Inductive Result (A : Type) : Type :=
| Ok (a : A)
| Throw.
Arguments Ok {A} a.
Arguments Throw {A}.

Definition bind {A B} (r : Result A) (k : A -> Result B) : Result B :=
  match r with
  | Ok a => k a
  | Throw => Throw
  end.

Notation "'let*' x ':=' r 'in' k" := (bind r (fun x => k))
  (at level 10, x name, r at level 100, k at level 200).

(** [o!.m(...)]: the member access throws when [o] is [null]. *)
Definition deref {A} (o : option A) : Result A :=
  match o with
  | Some a => Ok a
  | None => Throw
  end.

Fixpoint foldM {S A} (f : S -> A -> Result S) (l : list A) (s : S) : Result S :=
  match l with
  | [] => Ok s
  | a :: l' => let* s' := f s a in foldM f l' s'
  end.

(** ** The action identifier ([./action_id.js], not part of this file)

    The parser uses an [ActionId] only through the members below.
    [resolve label index] stands for
    [ActionId.fromLogString(label).fill(index)] once the promise is
    fulfilled. *)

Class ActionIdApi := {
  ActionId : Type;
  equals : ActionId -> ActionId -> bool;
  equalsIgnoringTag : ActionId -> ActionId -> bool;
  toString : ActionId -> string;
  toStringIgnoringTag : ActionId -> string;
  spellId : ActionId -> Z;
  actionName : ActionId -> string;
  resolve : string -> option Z -> ActionId
}.

(** ** The host: regular expressions and number parsing

    The patterns of the source are data ([Regex]); the engine that runs them
    is the host's.  [regexMatch re s] is [s.match(re)] for a pattern without
    the [g] flag, [regexMatchAll re s] is [Array.from(s.matchAll(re))]. *)

Inductive Regex :=
| Lit (s : string)                       (* the characters of s *)
| Chr (c : ascii -> bool)                (* one character of a class *)
| Seq (r1 r2 : Regex)                    (* r1r2 *)
| Alt (r1 r2 : Regex)                    (* r1|r2 *)
| Star (greedy : bool) (r : Regex)       (* zero or more r, greedy or lazy *)
| Plus (greedy : bool) (r : Regex)       (* one or more r, greedy or lazy *)
| Opt (r : Regex)                        (* r? *)
| Group (n : nat) (r : Regex).           (* the n-th capturing group *)

Declare Scope regex_scope.
Delimit Scope regex_scope with re.
Bind Scope regex_scope with Regex.
Notation "r1 ;; r2" := (Seq r1 r2) (at level 61, right associativity) : regex_scope.
(** Alternatives are tried from left to right, however they nest. *)
Notation "r1 || r2" := (Alt r1 r2) : regex_scope.

Record MatchResult := mkMatch {
  matchIndex : nat;                      (* match.index *)
  groups : list (option string)          (* match[0], match[1], ... *)
}.

Class HostApi := {
  regexMatch : Regex -> string -> option MatchResult;
  regexMatchAll : Regex -> string -> list MatchResult;
  parseFloat : string -> number;
  parseInt : string -> Z;
  (* names.js *)
  stringToResourceType : string -> Z * option Z;
  (* getEnumValues(ResourceType) and ResourceType.ResourceTypeNone *)
  resourceTypeValues : list Z;
  ResourceTypeNone : Z
}.

(** ** The helpers of [../utils.js] (not part of this file)

    [sum] adds up an array of numbers; [stringComparator] is the comparator
    the active auras are sorted with.  Both are taken as they come: what is
    proved about their callers holds for every such pair, and a property
    that needs [sum] to be the sum says so. *)

Class UtilsApi := {
  sum : list number -> number;
  stringComparator : string -> string -> number
}.

(** [match[k]]; [None] is [undefined]. *)
Definition grp (k : nat) (m : MatchResult) : option string :=
  nth k (groups m) None.

(** [match[k]] for a group that takes part in every match of its pattern. *)
Definition captured (k : nat) (m : MatchResult) : string :=
  match grp k m with
  | Some s => s
  | None => ""
  end.

(** Truthiness of [match[k]]: defined and not empty. *)
Definition grpTruthy (k : nat) (m : MatchResult) : bool :=
  match grp k m with
  | Some s => negb (String.eqb s "")
  | None => false
  end.

(** [match[k] == lit] *)
Definition grpIs (k : nat) (m : MatchResult) (lit : string) : bool :=
  match grp k m with
  | Some s => String.eqb s lit
  | None => false
  end.

(** [s.includes(sub)] *)
Definition includes (s sub : string) : bool :=
  match String.index 0 sub s with
  | Some _ => true
  | None => false
  end.

(** *** Character classes *)

Definition inRange (lo hi : nat) (c : ascii) : bool :=
  let n := nat_of_ascii c in Nat.leb lo n && Nat.leb n hi.

Definition isChar (x : ascii) (c : ascii) : bool := Ascii.eqb x c.

Definition digit : ascii -> bool := inRange 48 57.                     (* [0-9], \d *)
Definition alnum (c : ascii) : bool :=                                  (* [a-zA-Z0-9] *)
  inRange 97 122 c || inRange 65 90 c || digit c.
Definition word (c : ascii) : bool := alnum c || isChar "_" c.          (* \w *)
Definition space (c : ascii) : bool :=                                  (* \s *)
  inRange 9 13 c || isChar " " c.
Definition nonspace (c : ascii) : bool := negb (space c).               (* \S *)
Definition dot (c : ascii) : bool :=                                    (* . *)
  negb (inRange 10 10 c || inRange 13 13 c).
Definition alnumSpace (c : ascii) : bool := alnum c || space c.         (* [a-zA-Z0-9\s] *)
Definition petNameChar (c : ascii) : bool :=                            (* [a-zA-Z0-9\s:,] *)
  alnum c || space c || isChar ":" c || isChar "," c.

(** *** The patterns of the source *)

Open Scope string_scope.
Open Scope list_scope.

Module Patterns.
Local Open Scope regex_scope.

(** [-?[0-9]+] and [-?[0-9]+\.[0-9]+] *)
Definition signedInt : Regex := Opt (Lit "-") ;; Plus true (Chr digit).
Definition signedDecimal : Regex :=
  Opt (Lit "-") ;; Plus true (Chr digit) ;; Lit "." ;; Plus true (Chr digit).
(** [\d+\.?\d* ] and [\d+\.\d+] *)
Definition amountRe : Regex := Plus true (Chr digit) ;; Opt (Lit ".") ;; Star true (Chr digit).
Definition decimal : Regex := Plus true (Chr digit) ;; Lit "." ;; Plus true (Chr digit).
Definition anyGreedy : Regex := Star true (Chr dot).     (* greedy run of [.] *)
Definition anyLazy : Regex := Star false (Chr dot).      (* lazy run of [.] *)

(** [/ \(SpellSchool: (-?[0-9]+)\)/] *)
Definition spellSchoolRe : Regex := Lit " (SpellSchool: " ;; Group 1 signedInt ;; Lit ")".

(** [/ \(Threat: (-?[0-9]+\.[0-9]+)\)/] *)
Definition threatRe : Regex := Lit " (Threat: " ;; Group 1 signedDecimal ;; Lit ")".

(** The timestamp pattern of [SimLog.parseAll]: a bracketed signed decimal
    (group 1), word characters, and the rest of the line (group 2). *)
Definition timestampRe : Regex :=
  Lit "[" ;; Group 1 signedDecimal ;; Lit "]" ;; Star true (Chr word) ;; Group 2 anyGreedy.

(** [Entity.parseRegex]; the alternation binds weaker than the brackets:
    [\[(Target (\d+))], [(([a-zA-Z0-9]+) \(#(\d+)\) - ([a-zA-Z0-9\s:,]+))]
    and [(([a-zA-Z0-9\s]+) \(#(\d+)\))\]]. *)
Definition entityRe : Regex :=
  (Lit "[" ;; Group 1 (Lit "Target " ;; Group 2 (Plus true (Chr digit))))
  || Group 3 (Group 4 (Plus true (Chr alnum)) ;; Lit " (#" ;; Group 5 (Plus true (Chr digit))
              ;; Lit ") - " ;; Group 6 (Plus true (Chr petNameChar)))
  || (Group 7 (Group 8 (Plus true (Chr alnumSpace)) ;; Lit " (#"
               ;; Group 9 (Plus true (Chr digit)) ;; Lit ")") ;; Lit "]").

(** The pattern of [DamageDealtLog.parse]. *)
Definition damageDealtRe : Regex :=
  Lit "] " ;; Group 1 anyLazy ;; Lit " " ;; Opt (Group 2 (Lit "tick ")) ;;
  Group 3 (Group 4 (Lit "Miss") || Group 5 (Lit "Hit") || Group 6 (Lit "CriticalBlock")
           || Group 7 (Lit "Crit") || Group 8 (Lit "Crush") || Group 9 (Lit "GlanceBlock")
           || Group 10 (Lit "Glance") || Group 11 (Lit "Dodge") || Group 12 (Lit "Parry")
           || Group 13 (Lit "Block")) ;;
  Opt (Group 14 (Lit " (" ;; Group 15 (Plus true (Chr digit)) ;; Lit "% Resist)")) ;;
  Opt (Group 16 (Lit " for " ;; Group 17 decimal ;; Lit " " ;;
                 Group 18 (Group 19 (Lit "damage") || Group 20 (Lit "healing")
                           || Group 21 (Lit "shielding")))).

(** The pattern of [ResourceChangedLog.parse]. *)
Definition resourceChangedRe : Regex :=
  Group 1 (Lit "Gained" || Lit "Spent") ;; Lit " " ;; Group 2 amountRe ;; Lit " " ;;
  Group 3 (Chr nonspace ;; Plus false (Chr dot) ;; Chr nonspace) ;; Lit " from " ;;
  Group 4 anyLazy ;; Lit " (" ;; Group 5 amountRe ;; Lit " --> " ;; Group 6 amountRe ;; Lit ")" ;;
  Opt (Group 7 (Lit " of " ;; Group 8 amountRe ;; Lit " total")).

(** The pattern of [AuraEventLog.parse]. *)
Definition auraEventRe : Regex :=
  Lit "Aura " ;;
  Group 1 (Group 2 (Lit "gained") || Group 3 (Lit "faded") || Group 4 (Lit "refreshed")) ;;
  Lit ": " ;; Group 5 anyGreedy.

(** The pattern of [AuraStacksChangeLog.parse]. *)
Definition auraStacksChangeRe : Regex :=
  Group 1 anyGreedy ;; Lit " stacks: " ;; Group 2 (Plus true (Chr digit)) ;; Lit " --> " ;;
  Group 3 (Plus true (Chr digit)).

(** The pattern of [MajorCooldownUsedLog.parse]. *)
Definition majorCooldownUsedRe : Regex := Lit "Major cooldown used: " ;; Group 1 anyGreedy.

(** The pattern of [CastBeganLog.parse]. *)
Definition castBeganRe : Regex :=
  Lit "Casting " ;; Group 1 anyGreedy ;; Lit " (Cost = " ;; Group 2 amountRe ;;
  Lit ", Cast Time = " ;; Group 3 amountRe ;; Group 4 (Opt (Lit "m") ;; Lit "s") ;;
  Lit ", Effective Time = " ;; Group 5 amountRe ;; Group 6 (Opt (Lit "m") ;; Lit "s") ;; Lit ")".

(** The pattern of [CastCompletedLog.parse]. *)
Definition castCompletedRe : Regex := Lit "Completed cast " ;; Group 1 anyGreedy.

(** The pattern of [StatChangeLog.parse]. *)
Definition statChangeRe : Regex :=
  Group 1 (Group 2 (Lit "Gained") || Group 3 (Lit "Lost")) ;; Lit " " ;;
  Group 4 (Lit "{" ;; anyGreedy ;; Lit "}") ;; Lit " from " ;; Opt (Group 5 (Lit "fading ")) ;;
  Group 6 anyGreedy.

End Patterns.

Fixpoint mapM {A B} (f : A -> Result B) (l : list A) : Result (list B) :=
  match l with
  | [] => Ok []
  | a :: l' => let* b := f a in let* bs := mapM f l' in Ok (b :: bs)
  end.

(** ** Integers as text

    [String(n)] and [`${n}`] for an integer [n]: its decimal digits, after a
    minus sign when it is negative. *)

Definition digitChar (d : Z) : ascii := ascii_of_nat (48 + Z.to_nat d).

(** The digits of [n >= 0] in front of [acc]; [fuel] bounds the number of
    digits. *)
Fixpoint showDigits (fuel : nat) (n : Z) (acc : string) : string :=
  match fuel with
  | O => acc
  | S fuel' =>
      let acc' := String (digitChar (n mod 10)) acc in
      if (n <? 10)%Z then acc' else showDigits fuel' (n / 10) acc'
  end.

Definition showNat (n : Z) : string := showDigits (S (Z.to_nat (Z.log2 n))) n "".

Definition showInt (n : Z) : string :=
  if (n <? 0)%Z then "-" ++ showNat (- n) else showNat n.

(** ** Entity *)

Module Entity.

Record t := make {
  name : string;
  ownerName : string;
  index : Z;
  isTarget : bool;
  isPet : bool
}.

Definition equals (this other : t) : bool :=
  Bool.eqb (isTarget this) (isTarget other)
  && Bool.eqb (isPet this) (isPet other)
  && Z.eqb (index this) (index other)
  && String.eqb (name this) (name other).

Definition toString (this : t) : string :=
  if isTarget this then "Target " ++ showInt (index this + 1)
  else if isPet this then
    ownerName this ++ " (#" ++ showInt (index this + 1) ++ ") - " ++ name this
  else name this ++ " (#" ++ showInt (index this + 1) ++ ")".

Section Parse.
Context {HOST : HostApi}.

(** The callback of the [map] in [Entity.parseAll]. *)
Definition ofMatch (m : MatchResult) : Result t :=
  if grpTruthy 1 m then
    Ok (make (captured 1 m) "" (parseInt (captured 2 m) - 1) true false)
  else if grpTruthy 3 m then
    Ok (make (captured 6 m) (captured 4 m) (parseInt (captured 5 m) - 1) false true)
  else if grpTruthy 7 m then
    Ok (make (captured 8 m) "" (parseInt (captured 9 m) - 1) false false)
  else Throw.

Definition parseAll (str : string) : Result (list t) :=
  mapM ofMatch (regexMatchAll Patterns.entityRe str).
End Parse.

End Entity.

Section Logs.

Context {AID : ActionIdApi} {HOST : HostApi}.

(** ** Events *)

Definition SpellSchool := Z.
Definition ResourceType := Z.
Definition SecondaryResourceType := Z.

(** [SimLogParams], and the fields the constructor of [SimLog] copies from
    it.  The other fields of a [SimLog] ([actionIdAsString], [activeAuras],
    [cachedHTML]) serve the rendering and are left out. *)
Record SimLogParams := mkParams {
  raw : string;
  logIndex : nat;
  timestamp : number;
  source : option Entity.t;
  target : option Entity.t;
  actionId : option ActionId;
  spellSchool : option SpellSchool;
  threat : number
}.

Definition set_actionId (p : SimLogParams) (a : option ActionId) : SimLogParams :=
  mkParams (raw p) (logIndex p) (timestamp p) (source p) (target p) a
           (spellSchool p) (threat p).

Record DamageDealtLog := mkDamageDealtLog {
  dd_base :> SimLogParams;
  amount : number;
  type : string;
  miss : bool;
  hit : bool;
  crit : bool;
  crush : bool;
  glance : bool;
  dodge : bool;
  parry : bool;
  block : bool;
  tick : bool;
  partialResist1_4 : bool;
  partialResist2_4 : bool;
  partialResist3_4 : bool
}.

(** The constructor of [DamageDealtLog]: [hit] is derived. *)
Definition newDamageDealtLog (params : SimLogParams) (amount : number) (type : string)
    (miss crit crush glance dodge parry block tick p1 p2 p3 : bool) : DamageDealtLog :=
  mkDamageDealtLog params amount type miss (negb miss && negb crit) crit crush
                   glance dodge parry block tick p1 p2 p3.

Record ResourceChangedLog := mkResourceChangedLog {
  rc_base :> SimLogParams;
  resourceType : ResourceType;
  valueBefore : number;
  valueAfter : number;
  isSpend : bool;
  total : number;
  secondaryResourceType : option SecondaryResourceType
}.

Record AuraEventLog := mkAuraEventLog {
  ae_base :> SimLogParams;
  isGained : bool;
  isFaded : bool;
  isRefreshed : bool
}.

Record AuraStacksChangeLog := mkAuraStacksChangeLog {
  sc_base :> SimLogParams;
  oldStacks : Z;
  newStacks : Z
}.

Record MajorCooldownUsedLog := mkMajorCooldownUsedLog {
  mc_base :> SimLogParams
}.

Record CastBeganLog := mkCastBeganLog {
  cb_base :> SimLogParams;
  manaCost : number;
  cb_castTime : number;
  cb_effectiveTime : number
}.

Record CastCompletedLog := mkCastCompletedLog {
  cc_base :> SimLogParams
}.

Record StatChangeLog := mkStatChangeLog {
  st_base :> SimLogParams;
  isGain : bool;
  stats : string
}.

(** A [SimLog] is an instance of exactly one class: the plain [SimLog] or
    one of its subclasses ([instanceof] is the constructor test).  The
    derived logs ([DpsLog], [AuraUptimeLog], [CastLog] and the group logs)
    extend [SimLog] too; [parseAll] never delivers them and no function here
    tells them from a plain [SimLog], so they have no constructor of their
    own. *)
Inductive SimLog :=
| Plain (l : SimLogParams)
| DamageDealt (l : DamageDealtLog)
| ResourceChanged (l : ResourceChangedLog)
| AuraEvent (l : AuraEventLog)
| AuraStacksChange (l : AuraStacksChangeLog)
| MajorCooldownUsed (l : MajorCooldownUsedLog)
| CastBegan (l : CastBeganLog)
| CastCompleted (l : CastCompletedLog)
| StatChange (l : StatChangeLog).

Definition header (log : SimLog) : SimLogParams :=
  match log with
  | Plain l => l
  | DamageDealt l => l
  | ResourceChanged l => l
  | AuraEvent l => l
  | AuraStacksChange l => l
  | MajorCooldownUsed l => l
  | CastBegan l => l
  | CastCompleted l => l
  | StatChange l => l
  end.

Definition isDamageDealt (log : SimLog) : option DamageDealtLog :=
  match log with DamageDealt l => Some l | _ => None end.
Definition isResourceChanged (log : SimLog) : option ResourceChangedLog :=
  match log with ResourceChanged l => Some l | _ => None end.
Definition isAuraEvent (log : SimLog) : option AuraEventLog :=
  match log with AuraEvent l => Some l | _ => None end.
Definition isAuraStacksChange (log : SimLog) : option AuraStacksChangeLog :=
  match log with AuraStacksChange l => Some l | _ => None end.
Definition isCastBegan (log : SimLog) : option CastBeganLog :=
  match log with CastBegan l => Some l | _ => None end.
Definition isCastCompleted (log : SimLog) : option CastCompletedLog :=
  match log with CastCompleted l => Some l | _ => None end.

(** [logs.filter((log): log is T => log.isT())] *)
Fixpoint filterType {A B} (f : A -> option B) (l : list A) : list B :=
  match l with
  | [] => []
  | a :: l' =>
      match f a with
      | Some b => b :: filterType f l'
      | None => filterType f l'
      end
  end.

(** ** Promises

    The only asynchronous step of the parser is the resolution of an action
    label.  A promise of the parser is either already resolved or waits for
    that resolution and then runs its [then] callback. *)

Inductive Promise (A : Type) : Type :=
| Resolved (a : A)
| Awaiting (label : string) (index : option Z) (callback : ActionId -> A).
Arguments Resolved {A} a.
Arguments Awaiting {A} label index callback.

(** The value a promise is fulfilled with. *)
Definition settle {A} (p : Promise A) : A :=
  match p with
  | Resolved a => a
  | Awaiting label index callback => callback (resolve label index)
  end.

(** [ActionId.fromLogString(label).fill(params.source?.index).then(callback)] *)
Definition fillThen {A} (label : string) (params : SimLogParams) (callback : ActionId -> A)
  : Promise A :=
  Awaiting label (option_map Entity.index (source params)) callback.

(** ** The parsers of the subclasses

    Each returns [null] ([None]) when its pattern does not match [params.raw]. *)

Definition DamageDealtLog_parse (params : SimLogParams) : option (Promise SimLog) :=
  match regexMatch Patterns.damageDealtRe (raw params) with
  | Some m =>
      Some (fillThen (captured 1 m) params (fun cause =>
        let params := set_actionId params (Some cause) in
        let amount := if grpTruthy 17 m then parseFloat (captured 17 m) else 0%Q in
        let type := if grpTruthy 18 m then captured 18 m else "" in
        DamageDealt (newDamageDealtLog params amount type
          (grpIs 3 m "Miss")
          (grpIs 3 m "Crit" || grpIs 3 m "CriticalBlock")
          (grpIs 3 m "Crush")
          (grpIs 3 m "Glance" || grpIs 3 m "GlanceBlock")
          (grpIs 3 m "Dodge")
          (grpIs 3 m "Parry")
          (grpIs 3 m "Block" || grpIs 3 m "CriticalBlock" || grpIs 3 m "GlanceBlock")
          (grpTruthy 2 m && includes (captured 2 m) "tick")
          (grpIs 15 m "10")
          (grpIs 15 m "20")
          (grpIs 15 m "30"))))
  | None => None
  end.

Definition ResourceChangedLog_parse (params : SimLogParams) : option (Promise SimLog) :=
  match regexMatch Patterns.resourceChangedRe (raw params) with
  | Some m =>
      let '(resourceType, secondaryType) := stringToResourceType (captured 3 m) in
      let total := match grp 8 m with
                   | Some s => parseFloat s
                   | None => 0%Q
                   end in
      Some (fillThen (captured 4 m) params (fun cause =>
        let params := set_actionId params (Some cause) in
        ResourceChanged (mkResourceChangedLog params resourceType
          (parseFloat (captured 5 m)) (parseFloat (captured 6 m))
          (grpIs 1 m "Spent") total secondaryType)))
  | None => None
  end.

Definition AuraEventLog_parse (params : SimLogParams) : option (Promise SimLog) :=
  match regexMatch Patterns.auraEventRe (raw params) with
  | Some m =>
      if grpTruthy 5 m then
        Some (fillThen (captured 5 m) params (fun aura =>
          let params := set_actionId params (Some aura) in
          AuraEvent (mkAuraEventLog params
            (grpIs 1 m "gained") (grpIs 1 m "faded") (grpIs 1 m "refreshed"))))
      else None
  | None => None
  end.

Definition AuraStacksChangeLog_parse (params : SimLogParams) : option (Promise SimLog) :=
  match regexMatch Patterns.auraStacksChangeRe (raw params) with
  | Some m =>
      if grpTruthy 1 m then
        Some (fillThen (captured 1 m) params (fun aura =>
          let params := set_actionId params (Some aura) in
          AuraStacksChange (mkAuraStacksChangeLog params
            (parseInt (captured 2 m)) (parseInt (captured 3 m)))))
      else None
  | None => None
  end.

Definition MajorCooldownUsedLog_parse (params : SimLogParams) : option (Promise SimLog) :=
  match regexMatch Patterns.majorCooldownUsedRe (raw params) with
  | Some m =>
      Some (fillThen (captured 1 m) params (fun cooldownId =>
        let params := set_actionId params (Some cooldownId) in
        MajorCooldownUsed (mkMajorCooldownUsedLog params)))
  | None => None
  end.

Definition CastBeganLog_parse (params : SimLogParams) : option (Promise SimLog) :=
  match regexMatch Patterns.castBeganRe (raw params) with
  | Some m =>
      let castTime := parseFloat (captured 3 m) in
      let castTime := if grpIs 4 m "ms" then (castTime / 1000)%Q else castTime in
      let effectiveTime := parseFloat (captured 5 m) in
      let effectiveTime := if grpIs 6 m "ms" then (effectiveTime / 1000)%Q else effectiveTime in
      Some (fillThen (captured 1 m) params (fun castId =>
        let params := set_actionId params (Some castId) in
        CastBegan (mkCastBeganLog params (parseFloat (captured 2 m)) castTime effectiveTime)))
  | None => None
  end.

Definition CastCompletedLog_parse (params : SimLogParams) : option (Promise SimLog) :=
  match regexMatch Patterns.castCompletedRe (raw params) with
  | Some m =>
      Some (fillThen (captured 1 m) params (fun castId =>
        let params := set_actionId params (Some castId) in
        CastCompleted (mkCastCompletedLog params)))
  | None => None
  end.

Definition StatChangeLog_parse (params : SimLogParams) : option (Promise SimLog) :=
  match regexMatch Patterns.statChangeRe (raw params) with
  | Some m =>
      Some (fillThen (captured 6 m) params (fun effectId =>
        let params := set_actionId params (Some effectId) in
        let sign := if grpIs 1 m "Lost" then (-1)%Z else 1%Z in
        StatChange (mkStatChangeLog params (Z.eqb sign 1) (captured 4 m))))
  | None => None
  end.

(** [a || b] on [Promise | null]: a promise is truthy. *)
Definition orElse {A} (a : option A) (b : A) : A :=
  match a with
  | Some x => x
  | None => b
  end.

(** ** [SimLog.parseAll] *)

Record RaidSimResult := mkRaidSimResult {
  logs : string
}.

(** [str.split('\n')] *)
Fixpoint split_newline (s : string) : list string :=
  match s with
  | EmptyString => [EmptyString]
  | String c s' =>
      if Ascii.eqb c "010" then EmptyString :: split_newline s'
      else match split_newline s' with
           | l :: ls => String c l :: ls
           | [] => [String c EmptyString]
           end
  end.

(** The first part of the callback of [lines.map]: the fresh [params] with
    the [SpellSchool] and [Threat] annotations of the line, and the line cut
    before its [Threat] annotation. *)
Definition annotations (line : string) (lineIndex : nat) : SimLogParams * string :=
  let params := mkParams line lineIndex 0 None None None None 0 in
  let params :=
    match regexMatch Patterns.spellSchoolRe line with
    | Some spellSchoolMatch =>
        mkParams (raw params) (logIndex params) (timestamp params) (source params)
                 (target params) (actionId params)
                 (Some (parseInt (captured 1 spellSchoolMatch))) (threat params)
    | None => params
    end in
  match regexMatch Patterns.threatRe line with
  | Some threatMatch =>
      (mkParams (raw params) (logIndex params) (timestamp params) (source params)
                (target params) (actionId params) (spellSchool params)
                (parseFloat (captured 1 threatMatch)),
       substring 0 (matchIndex threatMatch) line)
  | None => (params, line)
  end.

(** [params] once the timestamp [match] and the entities are known. *)
Definition timedParams (params : SimLogParams) (m : MatchResult) (entities : list Entity.t)
  : SimLogParams :=
  mkParams (raw params) (logIndex params) (parseFloat (captured 1 m))
           (nth_error entities 0) (nth_error entities 1)
           (actionId params) (spellSchool params) (threat params).

(** The [return] of the callback: the parsers from most to least common,
    then the plain [SimLog]. *)
Definition classify (params : SimLogParams) : Promise SimLog :=
  orElse (DamageDealtLog_parse params)
  (orElse (ResourceChangedLog_parse params)
  (orElse (AuraEventLog_parse params)
  (orElse (AuraStacksChangeLog_parse params)
  (orElse (MajorCooldownUsedLog_parse params)
  (orElse (CastBeganLog_parse params)
  (orElse (CastCompletedLog_parse params)
  (orElse (StatChangeLog_parse params)
          (Resolved (Plain params))))))))).

(** The callback of [lines.map] in [SimLog.parseAll].  A line is answered
    with a plain [SimLog], which [Promise.all] takes as resolved, or with
    the promise of one of the parsers. *)
Definition parseLine (line : string) (lineIndex : nat) : Result (Promise SimLog) :=
  let '(params, line) := annotations line lineIndex in
  match regexMatch Patterns.timestampRe line with
  | None => Ok (Resolved (Plain params))
  | Some m =>
      if negb (grpTruthy 1 m) then Ok (Resolved (Plain params))
      else
        let remainder := captured 2 m in
        let* entities := Entity.parseAll remainder in
        Ok (classify (timedParams params m entities))
  end.

(** [lines.map((line, lineIndex) => ...)] from index [i] on. *)
Fixpoint mapIndexed {A B} (f : A -> nat -> Result B) (l : list A) (i : nat) : Result (list B) :=
  match l with
  | [] => Ok []
  | a :: l' => let* b := f a i in let* bs := mapIndexed f l' (S i) in Ok (b :: bs)
  end.

(** *** [Promise.all]

    [Promise.all] keeps one slot per promise.  When the promise at index [i]
    is fulfilled its value is stored in slot [i]; the result is delivered
    when every slot is filled.  [order] lists the indices in the order in
    which the promises are fulfilled. *)

Inductive Outcome (A : Type) : Type :=
| Fulfilled (a : A)
| Rejected
| Pending.
Arguments Fulfilled {A} a.
Arguments Rejected {A}.
Arguments Pending {A}.

Fixpoint setSlot {A} (i : nat) (v : A) (slots : list (option A)) : list (option A) :=
  match slots, i with
  | [], _ => []
  | _ :: rest, O => Some v :: rest
  | s :: rest, S i' => s :: setSlot i' v rest
  end.

Definition fulfil {A} (promises : list (Promise A)) (slots : list (option A)) (i : nat)
  : list (option A) :=
  match nth_error promises i with
  | Some p => setSlot i (settle p) slots
  | None => slots
  end.

Fixpoint allFilled {A} (slots : list (option A)) : option (list A) :=
  match slots with
  | [] => Some []
  | Some v :: rest => option_map (cons v) (allFilled rest)
  | None :: _ => None
  end.

Definition Promise_all {A} (order : list nat) (promises : list (Promise A)) : Outcome (list A) :=
  let slots := fold_left (fulfil promises) order (repeat None (List.length promises)) in
  match allFilled slots with
  | Some values => Fulfilled values
  | None => Pending
  end.

(** [SimLog.parseAll].  An exception inside the [map] callback rejects the
    promise of the [async] function. *)
Definition parseAll (order : list nat) (result : RaidSimResult) : Outcome (list SimLog) :=
  let lines := split_newline (logs result) in
  match mapIndexed parseLine lines 0 with
  | Ok promises => Promise_all order promises
  | Throw => Rejected
  end.

(** ** [SimLog.groupDuplicateTimestamps] *)

Section Grouping.

Variable LogType : Type.
Variable ts : LogType -> number.

(** One round of the [forEach]: the state is [(grouped, curGroup)]. *)
Definition groupStep (st : list (list LogType) * list LogType) (log : LogType)
  : list (list LogType) * list LogType :=
  let '(grouped, curGroup) := st in
  match curGroup with
  | [] => (grouped, curGroup ++ [log])
  | first :: _ =>
      if Qeq_bool (ts log) (ts first)
      then (grouped, curGroup ++ [log])
      else (grouped ++ [curGroup], [log])
  end.

Definition groupFinish (st : list (list LogType) * list LogType) : list (list LogType) :=
  let '(grouped, curGroup) := st in
  match curGroup with
  | [] => grouped
  | _ :: _ => grouped ++ [curGroup]
  end.

Definition groupDuplicateTimestamps (logs : list LogType) : list (list LogType) :=
  groupFinish (fold_left groupStep logs ([], [])).

End Grouping.

(** ** [Array.prototype.sort] with a comparator [(a, b) => key(a) - key(b)]

    The sort of the host is stable, and the comparator orders the elements by
    a numeric key, so the result is the one stable arrangement by key.
    Insertion from the right computes it. *)

Section Sort.

Variable A : Type.
Variable key : A -> number.

Fixpoint insertByKey (x : A) (l : list A) : list A :=
  match l with
  | [] => [x]
  | y :: rest =>
      if Qle_bool (key x) (key y) then x :: y :: rest
      else y :: insertByKey x rest
  end.

Fixpoint sortByKey (l : list A) : list A :=
  match l with
  | [] => []
  | x :: rest => insertByKey x (sortByKey rest)
  end.

End Sort.

(** ** Double precision

    The numbers of the engine are IEEE 754 doubles.  A number of a log is
    kept as the rational that its text denotes; the engine holds the double
    nearest to it (to the even mantissa of two equally near, to an infinity
    beyond the largest double), as [parseFloat] delivers it: [toDouble].
    The running total of [DpsLog.fromLogs] gathers the rounding errors of
    its additions and subtractions, so this function is computed on the
    doubles themselves, Rocq's primitive floats. *)

Definition double : Set := float.

(** The quotient is computed with more bits than a double holds, and with
    one more bit that says whether anything is left; [binary_normalize]
    rounds this to the nearest double. *)
Definition toDouble (q : number) : double :=
  let n := Qnum q in
  let d := Zpos (Qden q) in
  let a := Z.abs n in
  let k := Z.max 0 (56 + Z.log2 d - Z.log2 a) in
  let scaled := (a * 2 ^ k)%Z in
  let m := (2 * (scaled / d) + (if (scaled mod d =? 0)%Z then 0 else 1))%Z in
  SF2Prim (binary_normalize prec emax (if (n <? 0)%Z then (- m)%Z else m) (- k - 1) false).

(** ** [DpsLog] *)

Record DpsLog := mkDpsLog {
  dps_base :> SimLogParams;
  dps : double;
  dps_damageLogs : list DamageDealtLog
}.

Definition DPS_WINDOW : double := 15%float.

(** [curDamageLogs.findIndex(...)] of [DpsLog.fromLogs]: the callback also
    subtracts from [curDamageTotal] the amount of every log it rejects. *)
Fixpoint findWindowStart (groupTimestamp : number) (curDamageLogs : list DamageDealtLog)
    (curDamageTotal : double) (idx : nat) : option nat * double :=
  match curDamageLogs with
  | [] => (None, curDamageTotal)
  | curLog :: rest =>
      let inWindow :=
        PrimFloat.ltb (PrimFloat.sub (toDouble groupTimestamp) DPS_WINDOW)
                      (toDouble (timestamp curLog)) in
      if inWindow then (Some idx, curDamageTotal)
      else findWindowStart groupTimestamp rest
                           (PrimFloat.sub curDamageTotal (toDouble (amount curLog))) (S idx)
  end.

(** The [map] over the groups, with the two variables it closes over.
    Beside the logs it returns what it writes to the console. *)
Fixpoint dpsLoop (groupedDamageLogs : list (list DamageDealtLog))
    (curDamageLogs : list DamageDealtLog) (curDamageTotal : double)
  : Result (list DpsLog * list string) :=
  match groupedDamageLogs with
  | [] => Ok ([], [])
  | ddLogGroup :: groups' =>
      let curDamageLogs := curDamageLogs ++ ddLogGroup in
      let curDamageTotal :=
        fold_left (fun t ddLog => PrimFloat.add t (toDouble (amount ddLog)))
                  ddLogGroup curDamageTotal in
      let* first := deref (nth_error ddLogGroup 0) in
      let '(newStartIdx, curDamageTotal) :=
        findWindowStart (timestamp first) curDamageLogs curDamageTotal 0 in
      let curDamageLogs :=
        match newStartIdx with
        | None => []
        | Some i => skipn i curDamageLogs
        end in
      let dps := PrimFloat.div curDamageTotal DPS_WINDOW in
      let warned := if PrimFloat.is_nan dps then ["NaN dps!"] else [] in
      let log := mkDpsLog (mkParams "" (logIndex first) (timestamp first) (source first) None None
                                    (spellSchool first) 0) dps ddLogGroup in
      let* rest := dpsLoop groups' curDamageLogs curDamageTotal in
      Ok (log :: fst rest, warned ++ snd rest)
  end.

(** The function with its console. *)
Definition DpsLog_run (damageDealtLogs : list DamageDealtLog)
  : Result (list DpsLog * list string) :=
  let groupedDamageLogs := groupDuplicateTimestamps (fun l : DamageDealtLog => timestamp l) damageDealtLogs in
  dpsLoop groupedDamageLogs [] 0%float.

Definition DpsLog_fromLogs (damageDealtLogs : list DamageDealtLog) : Result (list DpsLog) :=
  let* run := DpsLog_run damageDealtLogs in
  Ok (fst run).

(** ** [AuraUptimeLog] *)

Record AuraUptimeLog := mkAuraUptimeLog {
  au_base :> SimLogParams;
  gainedAt : number;
  fadedAt : number;
  stacksChange : list AuraStacksChangeLog
}.

Definition newAuraUptimeLog (params : SimLogParams) (fadedAt : number)
    (stacksChange : list AuraStacksChangeLog) : AuraUptimeLog :=
  mkAuraUptimeLog params (timestamp params) fadedAt stacksChange.

(** An element of [unmatchedGainedLogs]. *)
Record OpenAura := mkOpenAura {
  gained : AuraEventLog;
  stacks : list AuraStacksChangeLog
}.

(** The local state of [AuraUptimeLog.fromLogs], with the console. *)
Record AuraState := mkAuraState {
  unmatchedGainedLogs : list OpenAura;
  uptimeLogs : list AuraUptimeLog;
  warnings : list string
}.

(** [arr.findIndex(pred)] for a predicate that may throw. *)
Fixpoint findIndexFrom {A} (pred : A -> Result bool) (l : list A) (idx : nat) : Result (option nat) :=
  match l with
  | [] => Ok None
  | a :: rest =>
      let* b := pred a in
      if b then Ok (Some idx) else findIndexFrom pred rest (S idx)
  end.

Definition findIndex {A} (pred : A -> Result bool) (l : list A) : Result (option nat) :=
  findIndexFrom pred l 0.

(** [gainedLog.gained.actionId!.equals(log.actionId!) ||
     gainedLog.gained.actionId!.equalsIgnoringTag(log.actionId!)];
    both identifiers are dereferenced. *)
Definition matchesGained (log : SimLogParams) (gainedLog : OpenAura) : Result bool :=
  let* g := deref (actionId (gained gainedLog)) in
  let* a := deref (actionId log) in
  Ok (equals g a || equalsIgnoringTag g a).

(** [arr.splice(i, 1)]: the array without its element at [i]. *)
Definition removeAt {A} (i : nat) (l : list A) : list A :=
  firstn i l ++ skipn (S i) l.

(** [unmatchedGainedLogs[i].stacks.push(log)] *)
Fixpoint pushStacks (i : nat) (log : AuraStacksChangeLog) (l : list OpenAura) : list OpenAura :=
  match l, i with
  | [], _ => []
  | g :: rest, O => mkOpenAura (gained g) (stacks g ++ [log]) :: rest
  | g :: rest, S i' => g :: pushStacks i' log rest
  end.

Definition warn (st : AuraState) (msg : string) : AuraState :=
  mkAuraState (unmatchedGainedLogs st) (uptimeLogs st) (warnings st ++ [msg]).

(** The callback of [logs.forEach] in [AuraUptimeLog.fromLogs]. *)
Definition auraStep (entity : Entity.t) (st : AuraState) (log : SimLog) : Result AuraState :=
  match source (header log) with
  | None => Ok st
  | Some src =>
      if negb (Entity.equals src entity) then Ok st
      else
        match log with
        | AuraStacksChange log =>
            if (newStacks log <=? 0)%Z then Ok st
            else
              let* matchingGainedIdx := findIndex (matchesGained log) (unmatchedGainedLogs st) in
              match matchingGainedIdx with
              | None =>
                  let* a := deref (actionId log) in
                  Ok (warn st ("Unmatched aura stacks change log: " ++ actionName a)%string)
              | Some i =>
                  Ok (mkAuraState (pushStacks i log (unmatchedGainedLogs st))
                                  (uptimeLogs st) (warnings st))
              end
        | AuraEvent log =>
            if isGained log then
              Ok (mkAuraState (unmatchedGainedLogs st ++ [mkOpenAura log []])
                              (uptimeLogs st) (warnings st))
            else
              let* matchingGainedIdx := findIndex (matchesGained log) (unmatchedGainedLogs st) in
              match matchingGainedIdx with
              | None =>
                  let* a := deref (actionId log) in
                  Ok (warn st ("Unmatched aura faded log: " ++ actionName a)%string)
              | Some i =>
                  let* found := deref (nth_error (unmatchedGainedLogs st) i) in
                  let gainedLog := gained found in
                  let stacksChangeLogs := stacks found in
                  let unmatched := removeAt i (unmatchedGainedLogs st) in
                  let uptime :=
                    newAuraUptimeLog
                      (mkParams (raw log) (logIndex gainedLog) (timestamp gainedLog)
                                (source log) (target log) (actionId gainedLog)
                                (spellSchool log) (threat gainedLog))
                      (timestamp log) stacksChangeLogs in
                  let unmatched :=
                    if isRefreshed log then unmatched ++ [mkOpenAura log []] else unmatched in
                  Ok (mkAuraState unmatched (uptimeLogs st ++ [uptime]) (warnings st))
              end
        | _ => Ok st
        end
  end.

(** The closing of an aura that is still active at the end. *)
Definition closeAtEnd (encounterDuration : number) (unmatchedLog : OpenAura) : AuraUptimeLog :=
  let gainedLog := gained unmatchedLog in
  newAuraUptimeLog
    (mkParams (raw gainedLog) (logIndex gainedLog) (timestamp gainedLog) (source gainedLog)
              (target gainedLog) (actionId gainedLog) (spellSchool gainedLog) (threat gainedLog))
    encounterDuration (stacks unmatchedLog).

(** The state after the [forEach] over the logs. *)
Definition auraRun (logs : list SimLog) (entity : Entity.t) : Result AuraState :=
  foldM (auraStep entity) logs (mkAuraState [] [] []).

(** The array [uptimeLogs] just before it is sorted. *)
Definition auraUnsorted (st : AuraState) (encounterDuration : number) : list AuraUptimeLog :=
  uptimeLogs st ++ map (closeAtEnd encounterDuration) (unmatchedGainedLogs st).

Definition AuraUptimeLog_fromLogs (logs : list SimLog) (entity : Entity.t)
    (encounterDuration : number) : Result (list AuraUptimeLog) :=
  let* st := auraRun logs entity in
  Ok (sortByKey gainedAt (auraUnsorted st encounterDuration)).

(** ** [ResourceChangedLogGroup] *)

Record ResourceChangedLogGroup := mkResourceChangedLogGroup {
  rg_base :> SimLogParams;
  rg_resourceType : ResourceType;
  rg_valueBefore : number;
  rg_valueAfter : number;
  maxValue : number;
  rg_logs : list ResourceChangedLog
}.

(** The local function [maxResource]. *)
Definition maxResource (logs : list ResourceChangedLog) : number :=
  fold_left (fun max l => if Qlt_bool max (total l) then total l else max) logs 0%Q.

(** The callback of [groupedLogs.map]. *)
Definition resourceGroup (resourceType : ResourceType) (logGroup : list ResourceChangedLog)
  : Result ResourceChangedLogGroup :=
  let* first := deref (nth_error logGroup 0) in
  let* last := deref (nth_error logGroup (List.length logGroup - 1)) in
  Ok (mkResourceChangedLogGroup
        (mkParams "" (logIndex first) (timestamp first) (source first) (target first) None
                  (spellSchool first) 0)
        resourceType (valueBefore first) (valueAfter last) (maxResource logGroup) logGroup).

(** The groups of one resource type [rt] (the body of
    [resourceTypes.forEach]). *)
Definition resourceGroupsOf (allResourceChangedLogs : list ResourceChangedLog)
    (rt : ResourceType) : Result (list ResourceChangedLogGroup) :=
  let resourceChangedLogs :=
    filter (fun log : ResourceChangedLog => Z.eqb (resourceType log) rt)
           allResourceChangedLogs in
  let groupedLogs := groupDuplicateTimestamps (fun l : ResourceChangedLog => timestamp l)
                                              resourceChangedLogs in
  mapM (resourceGroup rt) groupedLogs.

(** [ResourceChangedLogGroup.fromLogs]: the record [results], one entry per
    resource type other than [ResourceTypeNone]. *)
Definition ResourceChangedLogGroup_fromLogs (logs : list SimLog)
  : Result (list (ResourceType * list ResourceChangedLogGroup)) :=
  let allResourceChangedLogs := filterType isResourceChanged logs in
  let resourceTypes := filter (fun val => negb (Z.eqb val ResourceTypeNone)) resourceTypeValues in
  mapM (fun resourceType =>
          let* groups := resourceGroupsOf allResourceChangedLogs resourceType in
          Ok (resourceType, groups))
       resourceTypes.

(** [results[resourceType]] *)
Fixpoint lookupResult {V} (resourceType : ResourceType) (results : list (ResourceType * V))
  : option V :=
  match results with
  | [] => None
  | (k, v) :: rest => if Z.eqb k resourceType then Some v else lookupResult resourceType rest
  end.

(** ** [CastLog] *)

Record CastLog := mkCastLog {
  cl_base :> SimLogParams;
  castTime : number;
  effectiveTime : number;
  travelTime : number;
  castBeganLog : CastBeganLog;
  castCompletedLog : option CastCompletedLog;
  damageDealtLogs : list DamageDealtLog
}.

(** [a?.f || b] on a nullable field [f]: objects are always truthy. *)
Definition orActionId (c : option CastCompletedLog) (b : CastBeganLog) : option ActionId :=
  match c with
  | Some cc => match actionId cc with
               | Some a => Some a
               | None => actionId b
               end
  | None => actionId b
  end.

(** [a?.spellSchool || b.spellSchool]: [null], [undefined] and 0 are falsy. *)
Definition orSpellSchool (c : option CastCompletedLog) (b : CastBeganLog) : option SpellSchool :=
  match c with
  | Some cc => match spellSchool cc with
               | Some s => if Z.eqb s 0 then spellSchool b else Some s
               | None => spellSchool b
               end
  | None => spellSchool b
  end.

(** [a?.threat || b.threat] *)
Definition orThreat (c : option CastCompletedLog) (b : CastBeganLog) : number :=
  match c with
  | Some cc => if truthy (threat cc) then threat cc else threat b
  | None => threat b
  end.

(** The constructor of [CastLog]. *)
Definition newCastLog (castBeganLog : CastBeganLog) (castCompletedLog : option CastCompletedLog)
    (damageDealtLogs : list DamageDealtLog) : CastLog :=
  let base := mkParams (raw castBeganLog) (logIndex castBeganLog) (timestamp castBeganLog)
                       (source castBeganLog) (target castBeganLog)
                       (orActionId castCompletedLog castBeganLog)
                       (orSpellSchool castCompletedLog castBeganLog)
                       (orThreat castCompletedLog castBeganLog) in
  let castTime :=
    match castCompletedLog with
    | Some cc => (timestamp cc - timestamp castBeganLog)%Q
    | None => cb_castTime castBeganLog
    end in
  let effectiveTime :=
    match castCompletedLog with
    | Some cc => (timestamp cc - timestamp castBeganLog)%Q
    | None => cb_effectiveTime castBeganLog
    end in
  let travelTime :=
    match castCompletedLog, damageDealtLogs with
    | Some cc, [dd] =>
        if Qlt_bool (timestamp cc) (timestamp dd) && negb (tick dd)
        then (timestamp dd - timestamp cc)%Q
        else 0%Q
    | _, _ => 0%Q
    end in
  mkCastLog base castTime effectiveTime travelTime castBeganLog castCompletedLog damageDealtLogs.

(** *** [CastLog.fromLogs] *)

(** The local function [toBucketKey]. *)
Definition toBucketKey (actionId : ActionId) : string :=
  if Z.eqb (spellId actionId) 30451 || Z.eqb (spellId actionId) 127632
  then toStringIgnoringTag actionId
  else toString actionId.

(** [toBucketKey(log.actionId!)] *)
Definition bucketKeyOf (log : SimLogParams) : Result string :=
  let* a := deref (actionId log) in
  Ok (toBucketKey a).

(** Modelled from the spec: [bucket] of [utils.js], which is not part of this
    file.  The elements are grouped by key (section 4.5: the events are
    bucketed by ability bucket key); a bucket keeps its elements in input
    order and the keys are kept in the order of their first element. *)
Fixpoint bucketInsert {A} (k : string) (v : A) (buckets : list (string * list A))
  : list (string * list A) :=
  match buckets with
  | [] => [(k, [v])]
  | (k', vs) :: rest =>
      if String.eqb k' k then (k', vs ++ [v]) :: rest
      else (k', vs) :: bucketInsert k v rest
  end.

Definition bucket {A} (arr : list A) (toStr : A -> Result string)
  : Result (list (string * list A)) :=
  foldM (fun buckets val => let* k := toStr val in Ok (bucketInsert k val buckets)) arr [].

(** [buckets[key]]; [None] is [undefined]. *)
Fixpoint lookupBucket {A} (k : string) (buckets : list (string * list A)) : option (list A) :=
  match buckets with
  | [] => None
  | (k', vs) :: rest => if String.eqb k' k then Some vs else lookupBucket k rest
  end.

(** The [while] loop over the damage logs of a bucket: [rest] is
    [abilityDamageDealt] from [ddIdx] on.  Returns [ddLogs] and the new
    [ddIdx]. *)
Fixpoint whileDamage (nextCcLog : option CastCompletedLog) (rest : list DamageDealtLog)
    (ddIdx : nat) : list DamageDealtLog * nat :=
  match rest with
  | [] => ([], ddIdx)
  | dd :: rest' =>
      let before :=
        match nextCcLog with
        | None => true
        | Some next => Qlt_bool (timestamp dd) (timestamp next)
        end in
      if before then
        let '(ddLogs, ddIdx') := whileDamage nextCcLog rest' (S ddIdx) in
        (dd :: ddLogs, ddIdx')
      else ([], ddIdx)
  end.

(** The [for] loop over the casts of a bucket: [rest] is [abilityCastsBegan]
    from [cbIdx] on. *)
Fixpoint castLoop (rest : list CastBeganLog) (cbIdx : nat)
    (abilityCastsCompleted : option (list CastCompletedLog))
    (abilityDamageDealt : option (list DamageDealtLog)) (ddIdx : nat) : list CastLog :=
  match rest with
  | [] => []
  | cbLog :: rest' =>
      let ccLog :=
        match abilityCastsCompleted with
        | Some completed =>
            if Nat.ltb cbIdx (List.length completed) then nth_error completed cbIdx else None
        | None => None
        end in
      let nextCcLog :=
        match abilityCastsCompleted with
        | Some completed =>
            if Nat.ltb cbIdx (List.length completed) && Nat.ltb (cbIdx + 1) (List.length completed)
            then nth_error completed (cbIdx + 1) else None
        | None => None
        end in
      let '(ddLogs, ddIdx') :=
        match abilityDamageDealt with
        | Some damage => whileDamage nextCcLog (skipn ddIdx damage) ddIdx
        | None => ([], ddIdx)
        end in
      newCastLog cbLog ccLog ddLogs
        :: castLoop rest' (S cbIdx) abilityCastsCompleted abilityDamageDealt ddIdx'
  end.

(** The array [castLogs] just before it is sorted. *)
Definition castLogsUnsorted (logs : list SimLog) : Result (list CastLog) :=
  let castBeganLogs := filterType isCastBegan logs in
  let castCompletedLogs := filterType isCastCompleted logs in
  let damageDealtLogs := filterType isDamageDealt logs in
  let* castBeganLogsByAbility := bucket castBeganLogs (fun log : CastBeganLog => bucketKeyOf log) in
  let* castCompletedLogsByAbility :=
    bucket castCompletedLogs (fun log : CastCompletedLog => bucketKeyOf log) in
  let* damageDealtLogsByAbility :=
    bucket damageDealtLogs (fun log : DamageDealtLog => bucketKeyOf log) in
  Ok (flat_map (fun entry : string * list CastBeganLog =>
                  let '(bucketKey, abilityCastsBegan) := entry in
                  castLoop abilityCastsBegan 0
                           (lookupBucket bucketKey castCompletedLogsByAbility)
                           (lookupBucket bucketKey damageDealtLogsByAbility) 0)
               castBeganLogsByAbility).

Definition CastLog_fromLogs (logs : list SimLog) : Result (list CastLog) :=
  let* castLogs := castLogsUnsorted logs in
  Ok (sortByKey (fun l : CastLog => timestamp l) castLogs).

End Logs.

(** ** [Array.prototype.sort] with any comparator

    For a comparator that orders its arguments consistently the stable sort
    of the host puts [x] before the first element it does not exceed. *)

Section SortWith.

Variable A : Type.
Variable cmp : A -> A -> number.

Fixpoint insertWith (x : A) (l : list A) : list A :=
  match l with
  | [] => [x]
  | y :: rest =>
      if Qle_bool (cmp x y) 0 then x :: y :: rest
      else y :: insertWith x rest
  end.

Fixpoint sortWith (l : list A) : list A :=
  match l with
  | [] => []
  | x :: rest => insertWith x (sortWith rest)
  end.

End SortWith.

Section FurtherLogs.

Context {AID : ActionIdApi} {HOST : HostApi} {UTILS : UtilsApi}.

(** ** [DamageDealtLog]: the kind of amount and the outcome shown *)

Definition isDamage (this : DamageDealtLog) : bool := String.eqb (type this) "damage".
Definition isHealing (this : DamageDealtLog) : bool := String.eqb (type this) "healing".
Definition isShielding (this : DamageDealtLog) : bool := String.eqb (type this) "shielding".

(** The text [result()] puts in front of the target: the verb of a heal or
    a shield, or else the outcome picked by the nested conditional. *)
Definition resultLabel (this : DamageDealtLog) : string :=
  ((if isHealing this then "Healed " else "")
   ++ (if isShielding this then "Shielded " else "")
   ++ (if negb (isHealing this || isShielding this) then
         if miss this then "Miss"
         else if dodge this then "Dodge"
         else if parry this then "Parry"
         else if block this then
           if crit this then "Critical Block"
           else if glance this then "Blocked Glance"
           else "Block"
         else if glance this then "Glance"
         else if crit this then "Crit"
         else if crush this then "Crush"
         else if tick this then "Tick"
         else "Hit"
       else ""))%string.

(** ** [ThreatLogGroup] *)

Record ThreatLogGroup := mkThreatLogGroup {
  tg_base :> SimLogParams;
  threatBefore : number;
  threatAfter : number;
  tg_logs : list SimLog
}.

(** The [map] over the groups, with the variable [curThreat] it closes
    over. *)
Fixpoint threatLoop (groupedLogs : list (list SimLog)) (curThreat : number)
  : Result (list ThreatLogGroup) :=
  match groupedLogs with
  | [] => Ok []
  | logGroup :: groups' =>
      let newThreat := sum (map (fun log => threat (header log)) logGroup) in
      let* first := deref (nth_error logGroup 0) in
      let threatLog :=
        mkThreatLogGroup
          (mkParams "" (logIndex (header first)) (timestamp (header first))
                    (source (header first)) (target (header first)) None
                    (spellSchool (header first)) newThreat)
          curThreat (curThreat + newThreat) logGroup in
      let curThreat := (curThreat + newThreat)%Q in
      let* logs' := threatLoop groups' curThreat in
      Ok (threatLog :: logs')
  end.

Definition ThreatLogGroup_fromLogs (logs : list SimLog) : Result (list ThreatLogGroup) :=
  let groupedLogs :=
    groupDuplicateTimestamps (fun log => timestamp (header log))
                             (filter (fun log => truthy (threat (header log))) logs) in
  threatLoop groupedLogs 0.

(** ** [CastLog.totalDamage] *)

Definition totalDamage (this : CastLog) : number :=
  sum (map (fun ddl : DamageDealtLog => amount ddl) (damageDealtLogs this)).

(** ** [AuraUptimeLog.populateActiveAuras]

    The function writes the field [activeAuras] of every log; here it
    returns the arrays it assigns, one per log, in the order of the logs.
    Only the timestamp of a log is read, so a log is taken by its header. *)

(** The [while] loop: [rest] is [auraLogs] from [auraLogsIndex] on.  Returns
    the auras pushed onto [curAuras] and the new index. *)
Fixpoint whileGained (t : number) (rest : list AuraUptimeLog) (auraLogsIndex : nat)
  : list AuraUptimeLog * nat :=
  match rest with
  | [] => ([], auraLogsIndex)
  | aura :: rest' =>
      if Qle_bool (gainedAt aura) t then
        let '(pushed, auraLogsIndex') := whileGained t rest' (S auraLogsIndex) in
        (aura :: pushed, auraLogsIndex')
      else ([], auraLogsIndex)
  end.

(** [activeAuras.sort((a, b) => stringComparator(a.actionId!.name,
    b.actionId!.name))].  The host calls the comparator on every element as
    soon as there are two, and not at all otherwise. *)
Definition sortByName (activeAuras : list AuraUptimeLog) : Result (list AuraUptimeLog) :=
  match activeAuras with
  | [] | [_] => Ok activeAuras
  | _ =>
      let* named :=
        mapM (fun a : AuraUptimeLog =>
                let* id := deref (actionId a) in Ok (actionName id, a))
             activeAuras in
      Ok (map snd (sortWith (fun x y => stringComparator (fst x) (fst y)) named))
  end.

(** The [forEach] over the logs, with [curAuras] and [auraLogsIndex]. *)
Fixpoint populateLoop (logs : list SimLogParams) (auraLogs : list AuraUptimeLog)
    (curAuras : list AuraUptimeLog) (auraLogsIndex : nat)
  : Result (list (list AuraUptimeLog)) :=
  match logs with
  | [] => Ok []
  | log :: logs' =>
      let '(pushed, auraLogsIndex) :=
        whileGained (timestamp log) (skipn auraLogsIndex auraLogs) auraLogsIndex in
      let curAuras := curAuras ++ pushed in
      let curAuras :=
        filter (fun curAura => Qlt_bool (timestamp log) (fadedAt curAura)) curAuras in
      let* activeAuras := sortByName curAuras in
      let* rest := populateLoop logs' auraLogs curAuras auraLogsIndex in
      Ok (activeAuras :: rest)
  end.

Definition populateActiveAuras (logs : list SimLogParams) (auraLogs : list AuraUptimeLog)
  : Result (list (list AuraUptimeLog)) :=
  populateLoop logs auraLogs [] 0.

End FurtherLogs.

(** * Vocabulary of the properties *)

Section GroupingVocabulary.

Variable LogType : Type.
Variable ts : LogType -> number.

(** The groups delivered when the loop goes on from [curGroup] over [l]. *)
Definition groupsFrom (curGroup l : list LogType) : list (list LogType) :=
  groupFinish (fold_left (groupStep ts) l ([], curGroup)).

(** A group is well formed when it is not empty and all its logs carry
    the timestamp of the first. *)
Definition sameTimestamp (g : list LogType) : Prop :=
  match g with
  | [] => False
  | first :: _ => Forall (fun x => ts x == ts first) g
  end.

(** The timestamp of the first log of a group. *)
Definition headTimestamp (g : list LogType) : number :=
  match g with
  | [] => 0
  | first :: _ => ts first
  end.

(** Consecutive groups carry different timestamps: the groups are
    maximal. *)
Inductive distinctNeighbours : list (list LogType) -> Prop :=
| dn_nil : distinctNeighbours []
| dn_one g : distinctNeighbours [g]
| dn_cons g1 g2 rest :
    ~ headTimestamp g2 == headTimestamp g1 ->
    distinctNeighbours (g2 :: rest) ->
    distinctNeighbours (g1 :: g2 :: rest).

End GroupingVocabulary.

Section SortVocabulary.

Variable A : Type.
Variable key : A -> number.

(** Ascending by key. *)
Definition sortedBy (l : list A) : Prop :=
  StronglySorted (fun a b => key a <= key b) l.

(** The elements of [l] whose key is [t], in the order of [l]. *)
Definition withKey (t : number) (l : list A) : list A :=
  filter (fun a => Qeq_bool (key a) t) l.

End SortVocabulary.

(** The patterns of the kind-specific parsers, in the order
    [SimLog.parseAll] tries them. *)
Definition kindPatterns : list Regex :=
  [ Patterns.damageDealtRe; Patterns.resourceChangedRe; Patterns.auraEventRe;
    Patterns.auraStacksChangeRe; Patterns.majorCooldownUsedRe; Patterns.castBeganRe;
    Patterns.castCompletedRe; Patterns.statChangeRe ].

(** The line does not start with a bracketed timestamp: the timestamp
    pattern has no match at index 0. *)
Definition noLeadingTimestamp {HOST : HostApi} (line : string) : Prop :=
  forall m, regexMatch Patterns.timestampRe line = Some m -> matchIndex m <> 0%nat.

(** Every match of the entity pattern has one of the three label forms:
    the group of one of the three alternatives is set and not empty.  Each
    alternative of the pattern lies within its group, so an engine can
    deliver no other match. *)
Definition entityMatchesLabelled {HOST : HostApi} : Prop :=
  forall str m,
    In m (regexMatchAll Patterns.entityRe str) ->
    grpTruthy 1 m || grpTruthy 3 m || grpTruthy 7 m = true.

Section LogVocabulary.

Context {AID : ActionIdApi}.

(** Two headers that differ at most in their action identifier. *)
Definition sameButAction (p q : SimLogParams) : Prop :=
  raw p = raw q /\ logIndex p = logIndex q /\ timestamp p = timestamp q
  /\ source p = source q /\ target p = target q
  /\ spellSchool p = spellSchool q /\ threat p = threat q.

(** A slot is either empty or holds the value of the promise at its index. *)
Definition slotsSound {A} (promises : list (Promise A)) (slots : list (option A)) : Prop :=
  List.length slots = List.length promises
  /\ forall k v, nth_error slots k = Some (Some v) ->
       exists p, nth_error promises k = Some p /\ v = settle p.

(** An open aura matches the identifier [a] exactly or up to the tag. *)
Definition matchesId (a : ActionId) (o : OpenAura) : bool :=
  match actionId (gained o) with
  | Some g => equals g a || equalsIgnoringTag g a
  | None => false
  end.

(** The aura logs carry an action identifier, as every log delivered by
    the parsers does. *)
Definition identified (log : SimLog) : Prop :=
  match log with
  | AuraEvent l => actionId l <> None
  | AuraStacksChange l => actionId l <> None
  | _ => True
  end.

Definition openIdentified (o : OpenAura) : Prop := actionId (gained o) <> None.

(** The log is an event of the entity. *)
Definition fromEntity (entity : Entity.t) (p : SimLogParams) : Prop :=
  exists src, source p = Some src /\ Entity.equals src entity = true.

(** An event that opens an aura: a gain, or the refresh that reopens it. *)
Definition opens (logs : list SimLog) (g : AuraEventLog) : Prop :=
  In (AuraEvent g) logs /\ (isGained g = true \/ isRefreshed g = true).

(** The uptime log [u] was closed by the fade or refresh [c] of the aura
    opened by [g]: the index, the gain time, the identifier and the threat
    come from [g]; the raw text, the entities and the school from [c]. *)
Definition closedBy (g c : AuraEventLog) (u : AuraUptimeLog) : Prop :=
  logIndex u = logIndex g /\ timestamp u = timestamp g /\ gainedAt u = timestamp g
  /\ actionId u = actionId g /\ threat u = threat g
  /\ fadedAt u = timestamp c
  /\ raw u = raw c /\ source u = source c /\ target u = target c
  /\ spellSchool u = spellSchool c.



(** The invariant of the loop of [AuraUptimeLog.fromLogs] over [logs]:
    every open entry was opened by an identified event of [logs], and every
    uptime log was closed by an event of [logs]. *)
Definition openSound (logs : list SimLog) (o : OpenAura) : Prop :=
  openIdentified o /\ opens logs (gained o).

Definition closedSound (logs : list SimLog) (u : AuraUptimeLog) : Prop :=
  exists g c, opens logs g /\ In (AuraEvent c) logs /\ isGained c = false /\ closedBy g c u.

Definition auraInv (logs : list SimLog) (st : AuraState) : Prop :=
  Forall (openSound logs) (unmatchedGainedLogs st)
  /\ Forall (closedSound logs) (uptimeLogs st).

(** Logs with one gain time stand in the order of the events that opened
    them: the earlier [logIndex] first. *)
Definition tiesInGainOrder (out : list AuraUptimeLog) : Prop :=
  forall i j u v,
    (i < j)%nat -> nth_error out i = Some u -> nth_error out j = Some v ->
    gainedAt u == gainedAt v -> (logIndex u <= logIndex v)%nat.

(** The timestamp of a damage log, the key of the grouping. *)
Definition damageTimestamp (l : DamageDealtLog) : number := timestamp l.

(** The contract of the aggregator, in double precision: a queue and a
    running sum; the entries of a new group are appended to the queue and
    their amounts added to the sum, then the entries at the front of the
    queue whose timestamp is not after the timestamp of the group less the
    window are evicted and their amounts subtracted from the sum. *)
Definition expired (groupTimestamp : number) (l : DamageDealtLog) : bool :=
  negb (PrimFloat.ltb (PrimFloat.sub (toDouble groupTimestamp) DPS_WINDOW)
                      (toDouble (timestamp l))).

Fixpoint evicted (groupTimestamp : number) (queue : list DamageDealtLog)
  : list DamageDealtLog :=
  match queue with
  | [] => []
  | l :: rest => if expired groupTimestamp l then l :: evicted groupTimestamp rest else []
  end.

Fixpoint kept (groupTimestamp : number) (queue : list DamageDealtLog)
  : list DamageDealtLog :=
  match queue with
  | [] => []
  | l :: rest => if expired groupTimestamp l then kept groupTimestamp rest else queue
  end.

Definition addAmounts (l : list DamageDealtLog) (sum : double) : double :=
  fold_left (fun s d => PrimFloat.add s (toDouble (amount d))) l sum.

Definition subAmounts (l : list DamageDealtLog) (sum : double) : double :=
  fold_left (fun s d => PrimFloat.sub s (toDouble (amount d))) l sum.

Definition windowStep (state : list DamageDealtLog * double) (group : list DamageDealtLog)
  : list DamageDealtLog * double :=
  let t := headTimestamp damageTimestamp group in
  let queue := fst state ++ group in
  (kept t queue, subAmounts (evicted t queue) (addAmounts group (snd state))).

(** The queue and the running sum after the groups [groups]. *)
Definition windowAfter (groups : list (list DamageDealtLog)) : list DamageDealtLog * double :=
  fold_left windowStep groups ([], 0%float).

(** The damage logs are in the order of time, as the simulation writes
    them: the doubles of their timestamps do not decrease. *)
Definition timeOrdered (logs : list DamageDealtLog) : Prop :=
  StronglySorted (fun a b : DamageDealtLog =>
                    PrimFloat.leb (toDouble (timestamp a)) (toDouble (timestamp b)) = true)
                 logs.

(** The amount of the log is a finite double. *)
Definition finiteAmount (l : DamageDealtLog) : Prop :=
  PrimFloat.is_finite (toDouble (amount l)) = true.
(** The warnings for the emitted logs: one for each whose dps is NaN. *)
Definition nanWarnings (out : list DpsLog) : list string :=
  flat_map (fun o : DpsLog => if PrimFloat.is_nan (dps o) then ["NaN dps!"] else []) out.

(** What [DpsLog.fromLogs] emits for the group at index [i]: the running
    sum after this group, divided by the window. *)
Definition dpsOf (groups : list (list DamageDealtLog)) (i : nat) (o : DpsLog) : Prop :=
  dps o = PrimFloat.div (snd (windowAfter (firstn (S i) groups))) DPS_WINDOW
  /\ exists first rest,
       dps_damageLogs o = first :: rest
       /\ timestamp o = timestamp first /\ logIndex o = logIndex first.


(** The cast log is what the constructor makes of its three arguments. *)
Definition constructed (c : CastLog) : Prop :=
  c = newCastLog (castBeganLog c) (castCompletedLog c) (damageDealtLogs c).

(** The timestamp of a resource log, the key of the grouping. *)
Definition resourceTimestamp (l : ResourceChangedLog) : number := timestamp l.

(** What [ResourceChangedLogGroup.fromLogs] promises about the group log
    [o] emitted for the group [g] of the resource type [rt]. *)
Definition summarises (rt : ResourceType) (g : list ResourceChangedLog)
    (o : ResourceChangedLogGroup) : Prop :=
  rg_logs o = g
  /\ rg_resourceType o = rt
  /\ (exists first rest init lst,
        g = first :: rest /\ g = init ++ [lst]
        /\ timestamp o = timestamp first
        /\ rg_valueBefore o = valueBefore first
        /\ rg_valueAfter o = valueAfter lst)
  /\ (forall l, In l g -> total l <= maxValue o)
  /\ (maxValue o = 0 \/ exists l, In l g /\ maxValue o = total l)
  /\ (Forall (fun l => total l == 0) g -> maxValue o = 0)
  /\ (Forall (fun l => 0 <= total l) g ->
      exists l, In l g /\ maxValue o == total l).

End LogVocabulary.

(** ** Further vocabulary: text, kinds of events, threat, casts, auras *)

(** [lines.join('\n')] *)
Fixpoint joinLines (lines : list string) : string :=
  match lines with
  | [] => ""
  | [line] => line
  | line :: rest => (line ++ String "010" (joinLines rest))%string
  end.

(** The number of newline characters of a text. *)
Fixpoint newlines (s : string) : nat :=
  match s with
  | EmptyString => 0
  | String c s' => (if Ascii.eqb c "010" then 1 else 0) + newlines s'
  end.

(** The kinds of events, one per class of log. *)
Inductive Kind :=
| KPlain | KDamageDealt | KResourceChanged | KAuraEvent | KAuraStacksChange
| KMajorCooldownUsed | KCastBegan | KCastCompleted | KStatChange.

(** The number of flags that are set. *)
Definition flagsSet (flags : list bool) : nat := List.length (filter (fun b => b) flags).

(** The words the damage pattern accepts as the outcome of an attack. *)
Definition outcomeWords : list string :=
  [ "Miss"; "Hit"; "CriticalBlock"; "Crit"; "Crush"; "GlanceBlock"; "Glance"; "Dodge";
    "Parry"; "Block" ].

(** The text shown for an outcome word. *)
Definition outcomeText (word : string) (tick : bool) : string :=
  if String.eqb word "CriticalBlock" then "Critical Block"
  else if String.eqb word "GlanceBlock" then "Blocked Glance"
  else if String.eqb word "Hit" then (if tick then "Tick" else "Hit")
  else word.

(** The value of a decimal digit, and of a run of digits. *)
Definition digitValue (c : ascii) : Z := Z.of_nat (nat_of_ascii c - 48).

Definition decimalValue (digits : list ascii) : Z :=
  fold_left (fun acc c => (10 * acc + digitValue c)%Z) digits 0%Z.

(** A number written without leading zeros: "0", or digits the first of
    which is not 0. *)
Definition canonical (digits : list ascii) : Prop :=
  Forall (fun c => digit c = true) digits
  /\ match digits with
     | [] => False
     | [_] => True
     | c :: _ => c <> "0"%char
     end.

(** A number that every step of the engine keeps exact: below 2^53. *)
Definition safeInteger (digits : list ascii) : Prop :=
  (decimalValue digits < 2 ^ 53)%Z.

(** A text of ASCII characters: on these the character classes of the
    patterns are those of the engine. *)
Definition asciiText (s : string) : Prop :=
  Forall (fun c => (nat_of_ascii c < 128)%nat) (list_ascii_of_string s).

(** Enough fuel for the digits of [n]. *)
Definition enough (fuel : nat) (n : Z) : Prop :=
  (1 <= fuel)%nat /\ (0 <= n < 2 ^ Z.of_nat fuel)%Z.

(** The label of an entity match, that is the group of the alternative that
    matched, and the number inside it. *)
Definition labelOf (m : MatchResult) : string :=
  if grpTruthy 1 m then captured 1 m
  else if grpTruthy 3 m then captured 3 m
  else captured 7 m.

Definition numberOf (m : MatchResult) : string :=
  if grpTruthy 1 m then captured 2 m
  else if grpTruthy 3 m then captured 5 m
  else captured 9 m.

(** The number of elements of [l] that satisfy [p]. *)
Definition count {A} (p : A -> bool) (l : list A) : nat := List.length (filter p l).

(** [s] is [l] without some of its elements: the elements of [s] stand in
    [l], in the order they have in [s]. *)
Inductive subsequence {A : Type} : list A -> list A -> Prop :=
| subseq_nil : subsequence [] []
| subseq_skip a s l : subsequence s l -> subsequence s (a :: l)
| subseq_take a s l : subsequence s l -> subsequence (a :: s) (a :: l).

Section FurtherVocabulary.

Context {AID : ActionIdApi} {HOST : HostApi}.

(** The timestamp and the threat of an event. *)
Definition logTimestamp (log : SimLog) : number := timestamp (header log).
Definition threatOf (log : SimLog) : number := threat (header log).

(** The running total is threaded through the group logs: each starts where
    the one before it ended. *)
Fixpoint chained (start : number) (out : list ThreatLogGroup) : Prop :=
  match out with
  | [] => True
  | o :: rest => threatBefore o = start /\ chained (threatAfter o) rest
  end.

(** The header of a group log: the place and the entities of the first log
    of the group, no text and no action. *)
Definition headsGroup (p : SimLogParams) (first : SimLogParams) : Prop :=
  raw p = "" /\ logIndex p = logIndex first /\ timestamp p = timestamp first
  /\ source p = source first /\ spellSchool p = spellSchool first /\ actionId p = None.

Definition kind (e : SimLog) : Kind :=
  match e with
  | Plain _ => KPlain
  | DamageDealt _ => KDamageDealt
  | ResourceChanged _ => KResourceChanged
  | AuraEvent _ => KAuraEvent
  | AuraStacksChange _ => KAuraStacksChange
  | MajorCooldownUsed _ => KMajorCooldownUsed
  | CastBegan _ => KCastBegan
  | CastCompleted _ => KCastCompleted
  | StatChange _ => KStatChange
  end.

(** The pattern finds a match in the text, with a label that is not empty
    in the group [needs] when the parser asks for one. *)
Definition hits (re : Regex) (needs : option nat) (text : string) : bool :=
  match regexMatch re text, needs with
  | Some m, Some k => grpTruthy k m
  | Some _, None => true
  | None, _ => false
  end.

(** The kinds in the order [SimLog.parseAll] tries their parsers, each with
    its pattern and the group its parser wants not to be empty. *)
Definition priority : list (Kind * Regex * option nat) :=
  [ (KDamageDealt, Patterns.damageDealtRe, None);
    (KResourceChanged, Patterns.resourceChangedRe, None);
    (KAuraEvent, Patterns.auraEventRe, Some 5%nat);
    (KAuraStacksChange, Patterns.auraStacksChangeRe, Some 1%nat);
    (KMajorCooldownUsed, Patterns.majorCooldownUsedRe, None);
    (KCastBegan, Patterns.castBeganRe, None);
    (KCastCompleted, Patterns.castCompletedRe, None);
    (KStatChange, Patterns.statChangeRe, None) ].

(** The kind of the first entry whose pattern hits the text. *)
Fixpoint firstKind (table : list (Kind * Regex * option nat)) (text : string) : Kind :=
  match table with
  | [] => KPlain
  | (k, re, needs) :: rest => if hits re needs text then k else firstKind rest text
  end.

(** The action of an event of a kind was resolved from a label of its line
    and the index of its source; a plain event has none. *)
Definition resolved (e : SimLog) : Prop :=
  match e with
  | Plain p => actionId p = None
  | _ => exists label,
           actionId (header e)
           = Some (resolve label (option_map Entity.index (source (header e))))
  end.

(** Where the parser of a kind reads the label of the action: its pattern
    and the group handed to [ActionId.fromLogString]. *)
Definition labelPlace (k : Kind) : option (Regex * nat) :=
  match k with
  | KPlain => None
  | KDamageDealt => Some (Patterns.damageDealtRe, 1%nat)
  | KResourceChanged => Some (Patterns.resourceChangedRe, 4%nat)
  | KAuraEvent => Some (Patterns.auraEventRe, 5%nat)
  | KAuraStacksChange => Some (Patterns.auraStacksChangeRe, 1%nat)
  | KMajorCooldownUsed => Some (Patterns.majorCooldownUsedRe, 1%nat)
  | KCastBegan => Some (Patterns.castBeganRe, 1%nat)
  | KCastCompleted => Some (Patterns.castCompletedRe, 1%nat)
  | KStatChange => Some (Patterns.statChangeRe, 6%nat)
  end.

(** The action of the event is the one resolved from the label that the
    pattern of its kind captures in [line], in the group of [labelPlace],
    and from the index of its source; a plain event has none. *)
Definition resolvedFrom (line : string) (e : SimLog) : Prop :=
  match labelPlace (kind e) with
  | Some (re, k) =>
      exists m,
        regexMatch re line = Some m
        /\ actionId (header e)
           = Some (resolve (captured k m) (option_map Entity.index (source (header e))))
  | None => actionId (header e) = None
  end.

(** What the callback of [SimLog.parseAll] reads from a line ahead of its
    kind. *)
Definition schoolOf (line : string) : option SpellSchool :=
  match regexMatch Patterns.spellSchoolRe line with
  | Some m => Some (parseInt (captured 1 m))
  | None => None
  end.

Definition threatAnnotation (line : string) : number :=
  match regexMatch Patterns.threatRe line with
  | Some m => parseFloat (captured 1 m)
  | None => 0
  end.

(** The line without its threat annotation and what follows it. *)
Definition withoutThreat (line : string) : string :=
  match regexMatch Patterns.threatRe line with
  | Some m => substring 0 (matchIndex m) line
  | None => line
  end.

(** An event without a timestamp: the plain log at time 0, without
    entities. *)
Definition untimed (e : SimLog) : Prop :=
  kind e = KPlain /\ timestamp (header e) = 0
  /\ source (header e) = None /\ target (header e) = None.

(** What an event owes to the timestamp of its line: when the line, cut
    before its threat annotation, holds a bracketed timestamp, the event
    carries it, its source and target are the first and the second entity
    of the rest of the line, and its kind is the first kind that hits the
    whole line; otherwise it is an untimed plain log. *)
Definition timedEvent (line : string) (e : SimLog) : Prop :=
  match regexMatch Patterns.timestampRe (withoutThreat line) with
  | Some m =>
      if grpTruthy 1 m then
        timestamp (header e) = parseFloat (captured 1 m)
        /\ kind e = firstKind priority line
        /\ exists entities,
             Entity.parseAll (captured 2 m) = Ok entities
             /\ source (header e) = nth_error entities 0
             /\ target (header e) = nth_error entities 1
      else untimed e
  | None => untimed e
  end.

(** The annotations of the line are those of the event. *)
Definition annotated (line : string) (e : SimLog) : Prop :=
  spellSchool (header e) = schoolOf line /\ threat (header e) = threatAnnotation line.

(** The damage logs of a bucket, none when the bucket does not exist. *)
Definition damageOf (abilityDamageDealt : option (list DamageDealtLog)) : list DamageDealtLog :=
  match abilityDamageDealt with
  | Some damage => damage
  | None => []
  end.

(** All the damage logs attributed to the casts, cast after cast. *)
Definition attributed (casts : list CastLog) : list DamageDealtLog :=
  List.concat (map damageDealtLogs casts).

(** The cast and damage logs carry an action identifier, as every log
    delivered by the parsers does. *)
Definition castIdentified (log : SimLog) : Prop :=
  match log with
  | CastBegan l => actionId l <> None
  | CastCompleted l => actionId l <> None
  | DamageDealt l => actionId l <> None
  | _ => True
  end.

(** The damage logs of a cast lie between its own completion and the next
    completion [next] of its ability. *)
Definition damageWithin (next : option CastCompletedLog) (c : CastLog) : Prop :=
  (forall cc, castCompletedLog c = Some cc ->
     Forall (fun dd : DamageDealtLog => timestamp cc <= timestamp dd) (damageDealtLogs c))
  /\ (forall n, next = Some n ->
        Forall (fun dd : DamageDealtLog => timestamp dd < timestamp n) (damageDealtLogs c)).

(** The completion log that follows position [k] in a bucket. *)
Definition completionAt (abilityCastsCompleted : option (list CastCompletedLog)) (k : nat)
  : option CastCompletedLog :=
  match abilityCastsCompleted with
  | Some completed => nth_error completed k
  | None => None
  end.

(** [log.source && log.source.equals(entity)] *)
Definition fromEntityb (entity : Entity.t) (p : SimLogParams) : bool :=
  match source p with
  | Some src => Entity.equals src entity
  | None => false
  end.

(** The log is a gain of the entity; the log is a refresh of the entity. *)
Definition gainOf (entity : Entity.t) (log : SimLog) : bool :=
  match log with
  | AuraEvent l => fromEntityb entity l && isGained l
  | _ => false
  end.

Definition refreshOf (entity : Entity.t) (log : SimLog) : bool :=
  match log with
  | AuraEvent l => fromEntityb entity l && negb (isGained l) && isRefreshed l
  | _ => false
  end.

(** What one round of the loop of [AuraUptimeLog.fromLogs] does to its
    state, for a log whose identifier is not null. *)
Inductive AuraMove (entity : Entity.t) (st : AuraState) : SimLog -> AuraState -> Prop :=
| move_none log :
    gainOf entity log = false ->
    AuraMove entity st log st
| move_warn log msg :
    gainOf entity log = false ->
    AuraMove entity st log (warn st msg)
| move_gain (l : AuraEventLog) :
    fromEntity entity l -> isGained l = true ->
    AuraMove entity st (AuraEvent l)
             (mkAuraState (unmatchedGainedLogs st ++ [mkOpenAura l []])
                          (uptimeLogs st) (warnings st))
| move_close (l : AuraEventLog) pre o post u :
    fromEntity entity l -> isGained l = false ->
    unmatchedGainedLogs st = pre ++ o :: post ->
    closedBy (gained o) l u -> stacksChange u = stacks o ->
    AuraMove entity st (AuraEvent l)
             (mkAuraState (pre ++ post ++ (if isRefreshed l then [mkOpenAura l []] else []))
                          (uptimeLogs st ++ [u]) (warnings st))
| move_stacks (l : AuraStacksChangeLog) pre o post :
    fromEntity entity l -> (0 < newStacks l)%Z ->
    unmatchedGainedLogs st = pre ++ o :: post ->
    AuraMove entity st (AuraStacksChange l)
             (mkAuraState (pre ++ mkOpenAura (gained o) (stacks o ++ [l]) :: post)
                          (uptimeLogs st) (warnings st)).

(** A recorded change of stacks is a change to a positive number of stacks
    that the entity underwent in [logs]. *)
Definition stacksSound (entity : Entity.t) (logs : list SimLog) (sc : AuraStacksChangeLog)
  : Prop :=
  (0 < newStacks sc)%Z /\ fromEntity entity sc /\ In (AuraStacksChange sc) logs.

(** The aura is up at time [t]: gained by then and not yet faded. *)
Definition activeAt (t : number) (aura : AuraUptimeLog) : bool :=
  Qle_bool (gainedAt aura) t && Qlt_bool t (fadedAt aura).

Definition headerTimestamp (log : SimLogParams) : number := timestamp log.

(** The event that opened an entry of [unmatchedGainedLogs]. *)
Definition opener (o : OpenAura) : SimLog := AuraEvent (gained o).

(** An uptime log and the fade or refresh that closed it. *)
Definition closes (u : AuraUptimeLog) (c : AuraEventLog) : Prop :=
  isGained c = false /\ exists g, closedBy g c u.

(** The order of the loop of [AuraUptimeLog.fromLogs] over [logs]: the open
    entries stand in the order of the events that opened them, gains or
    refreshes, and the uptime logs in the order of the events that closed
    them. *)
Definition inInputOrder (logs : list SimLog) (st : AuraState) : Prop :=
  subsequence (map opener (unmatchedGainedLogs st)) logs
  /\ Forall (fun o => isGained (gained o) = true \/ isRefreshed (gained o) = true)
            (unmatchedGainedLogs st)
  /\ exists closers,
       subsequence (map AuraEvent closers) logs
       /\ Forall2 closes (uptimeLogs st) closers.
End FurtherVocabulary.

(** * A reference host

    A backtracking matcher for [Regex] with the priorities of the host
    (leftmost match, alternatives left to right, greedy or lazy repetition),
    decimal number parsing, and a small identifier model.  The theorems below
    hold for every host; this one runs the parser on concrete logs. *)

Module RefHost.

Definition Caps := list (option string).

Fixpoint setCap (n : nat) (v : string) (caps : Caps) : Caps :=
  match n, caps with
  | O, _ :: rest => Some v :: rest
  | O, [] => [Some v]
  | S n', c :: rest => c :: setCap n' v rest
  | S n', [] => None :: setCap n' v []
  end.

Fixpoint stripPrefix (p inp : list ascii) : option (list ascii) :=
  match p, inp with
  | [], _ => Some inp
  | a :: p', b :: inp' => if Ascii.eqb a b then stripPrefix p' inp' else None
  | _ :: _, [] => None
  end.

(** The part of [inp] consumed when [inp'] is what remains. *)
Definition consumed (inp inp' : list ascii) : string :=
  string_of_list_ascii (firstn (List.length inp - List.length inp') inp).

(** [run fuel r inp caps k]: match [r] at the head of [inp], then continue
    with [k] on the rest; [None] when no way of matching [r] lets [k]
    succeed. *)
Fixpoint run (fuel : nat) (r : Regex) (inp : list ascii) (caps : Caps)
    (k : list ascii -> Caps -> option (list ascii * Caps)) : option (list ascii * Caps) :=
  match fuel with
  | O => None
  | S fuel' =>
      match r with
      | Lit s =>
          match stripPrefix (list_ascii_of_string s) inp with
          | Some inp' => k inp' caps
          | None => None
          end
      | Chr c =>
          match inp with
          | a :: inp' => if c a then k inp' caps else None
          | [] => None
          end
      | Seq r1 r2 => run fuel' r1 inp caps (fun inp' caps' => run fuel' r2 inp' caps' k)
      | Alt r1 r2 =>
          match run fuel' r1 inp caps k with
          | Some res => Some res
          | None => run fuel' r2 inp caps k
          end
      | Star greedy r1 =>
          let more :=
            run fuel' r1 inp caps (fun inp' caps' =>
              if Nat.ltb (List.length inp') (List.length inp)
              then run fuel' (Star greedy r1) inp' caps' k
              else None) in
          if greedy then
            match more with
            | Some res => Some res
            | None => k inp caps
            end
          else
            match k inp caps with
            | Some res => Some res
            | None => more
            end
      | Plus greedy r1 => run fuel' (Seq r1 (Star greedy r1)) inp caps k
      | Opt r1 =>
          match run fuel' r1 inp caps k with
          | Some res => Some res
          | None => k inp caps
          end
      | Group n r1 =>
          run fuel' r1 inp caps (fun inp' caps' => k inp' (setCap n (consumed inp inp') caps'))
      end
  end.

Fixpoint size (r : Regex) : nat :=
  match r with
  | Lit _ | Chr _ => 1
  | Seq r1 r2 | Alt r1 r2 => S (size r1 + size r2)
  | Star _ r1 | Opt r1 | Group _ r1 => S (size r1)
  | Plus _ r1 => 3 + size r1
  end.

Fixpoint groupCount (r : Regex) : nat :=
  match r with
  | Lit _ | Chr _ => 0
  | Seq r1 r2 | Alt r1 r2 => Nat.max (groupCount r1) (groupCount r2)
  | Star _ r1 | Plus _ r1 | Opt r1 => groupCount r1
  | Group n r1 => Nat.max n (groupCount r1)
  end.

(** A match of [r] at the head of [inp]: what remains and the groups. *)
Definition matchHere (r : Regex) (inp : list ascii) : option (list ascii * Caps) :=
  run ((size r + 2) * (List.length inp + 2)) r inp (repeat None (S (groupCount r)))
      (fun inp' caps' => Some (inp', caps')).

(** The leftmost match in [inp], which starts at offset [pos] of the
    subject; returns what remains after the match as well. *)
Fixpoint search (r : Regex) (inp : list ascii) (pos : nat)
  : option (MatchResult * list ascii) :=
  match matchHere r inp with
  | Some (inp', caps) => Some (mkMatch pos (setCap 0 (consumed inp inp') caps), inp')
  | None =>
      match inp with
      | [] => None
      | _ :: rest => search r rest (S pos)
      end
  end.

Definition regexMatch (r : Regex) (s : string) : option MatchResult :=
  option_map fst (search r (list_ascii_of_string s) 0).

(** The successive matches of a global pattern; an empty match moves on by
    one character. *)
Fixpoint searchAll (fuel : nat) (r : Regex) (inp : list ascii) (pos : nat) : list MatchResult :=
  match fuel with
  | O => []
  | S fuel' =>
      match search r inp pos with
      | None => []
      | Some (m, inp') =>
          let stop := (matchIndex m + String.length (captured 0 m))%nat in
          match String.length (captured 0 m), inp' with
          | O, [] => [m]
          | O, _ :: inp'' => m :: searchAll fuel' r inp'' (S stop)
          | S _, _ => m :: searchAll fuel' r inp' stop
          end
      end
  end.

Definition regexMatchAll (r : Regex) (s : string) : list MatchResult :=
  searchAll (S (String.length s)) r (list_ascii_of_string s) 0.

(** Decimal digits, most significant first. *)
Fixpoint digitsValue (l : list ascii) (acc : Z) : Z * list ascii :=
  match l with
  | c :: rest =>
      if digit c then digitsValue rest (10 * acc + Z.of_nat (nat_of_ascii c - 48))
      else (acc, l)
  | [] => (acc, [])
  end.

Definition stripSign (l : list ascii) : bool * list ascii :=
  match l with
  | c :: rest => if Ascii.eqb c "-" then (true, rest) else (false, l)
  | [] => (false, [])
  end.

(** The integer a double holds when it is given [n], not negative: [n]
    itself below 2^53, and from there on the multiple of the spacing of
    the doubles around [n] that is nearest to [n], the one with the even
    mantissa of two equally near.  (From 2^1024 on the engine holds
    Infinity, which [Z] cannot.) *)
Definition nearestDouble (n : Z) : Z :=
  let e := (Z.log2 n - 52)%Z in
  if (e <=? 0)%Z then n
  else
    let q := (n / 2 ^ e)%Z in
    let r := (n mod 2 ^ e)%Z in
    let half := (2 ^ (e - 1))%Z in
    let q := if (r <? half)%Z then q
             else if (half <? r)%Z then (q + 1)%Z
             else if Z.even q then q else (q + 1)%Z in
    (q * 2 ^ e)%Z.

Definition parseInt (s : string) : Z :=
  let '(neg, l) := stripSign (list_ascii_of_string s) in
  let '(v, _) := digitsValue l 0 in
  let v := nearestDouble v in
  if neg then (- v)%Z else v.

Fixpoint digitsCount (l : list ascii) : nat :=
  match l with
  | c :: rest => if digit c then S (digitsCount rest) else 0
  | [] => 0
  end.

Definition parseFloat (s : string) : number :=
  let '(neg, l) := stripSign (list_ascii_of_string s) in
  let '(whole, rest) := digitsValue l 0 in
  let q :=
    match rest with
    | c :: frac =>
        if Ascii.eqb c "." then
          let '(f, _) := digitsValue frac 0 in
          let scale := Z.pow 10 (Z.of_nat (digitsCount frac)) in
          Qred (Qmake (whole * scale + f) (Z.to_pos scale))
        else inject_Z whole
    | [] => inject_Z whole
    end in
  if neg then Qred (- q) else q.

Definition stringToResourceType (s : string) : Z * option Z :=
  if String.eqb s "Mana" then (1%Z, None)
  else if String.eqb s "Energy" then (2%Z, None)
  else if String.eqb s "Rage" then (3%Z, None)
  else if String.eqb s "Health" then (6%Z, None)
  else (0%Z, None).

(** What [run] computes, as a relation: [Matches r inp caps inp' caps'] when
    [r] matches at the head of [inp], leaves [inp'] and turns the groups
    [caps] into [caps']. *)
Inductive Matches : Regex -> list ascii -> Caps -> list ascii -> Caps -> Prop :=
| M_Lit s inp inp' caps :
    stripPrefix (list_ascii_of_string s) inp = Some inp' ->
    Matches (Lit s) inp caps inp' caps
| M_Chr c a inp caps :
    c a = true -> Matches (Chr c) (a :: inp) caps inp caps
| M_Seq r1 r2 inp caps inp1 caps1 inp2 caps2 :
    Matches r1 inp caps inp1 caps1 -> Matches r2 inp1 caps1 inp2 caps2 ->
    Matches (Seq r1 r2) inp caps inp2 caps2
| M_AltL r1 r2 inp caps inp' caps' :
    Matches r1 inp caps inp' caps' -> Matches (Alt r1 r2) inp caps inp' caps'
| M_AltR r1 r2 inp caps inp' caps' :
    Matches r2 inp caps inp' caps' -> Matches (Alt r1 r2) inp caps inp' caps'
| M_Star0 g r inp caps :
    Matches (Star g r) inp caps inp caps
| M_StarS g r inp caps inp1 caps1 inp2 caps2 :
    Matches r inp caps inp1 caps1 -> Matches (Star g r) inp1 caps1 inp2 caps2 ->
    Matches (Star g r) inp caps inp2 caps2
| M_Plus g r inp caps inp' caps' :
    Matches (Seq r (Star g r)) inp caps inp' caps' ->
    Matches (Plus g r) inp caps inp' caps'
| M_Opt0 r inp caps :
    Matches (Opt r) inp caps inp caps
| M_OptS r inp caps inp' caps' :
    Matches r inp caps inp' caps' -> Matches (Opt r) inp caps inp' caps'
| M_Group n r inp caps inp' caps' :
    Matches r inp caps inp' caps' ->
    Matches (Group n r) inp caps inp' (setCap n (consumed inp inp') caps').

(** The least number of characters a match of [r] takes. *)
Fixpoint minLen (r : Regex) : nat :=
  match r with
  | Lit s => String.length s
  | Chr _ => 1
  | Seq r1 r2 => minLen r1 + minLen r2
  | Alt r1 r2 => Nat.min (minLen r1) (minLen r2)
  | Star _ _ | Opt _ => 0
  | Plus _ r1 | Group _ r1 => minLen r1
  end.

(** A group that has taken a character is set and not empty. *)
Definition filled (n : nat) (caps : Caps) : Prop :=
  exists v, nth n caps None = Some v /\ String.eqb v "" = false.

Definition host : HostApi :=
  Build_HostApi regexMatch regexMatchAll parseFloat parseInt stringToResourceType
                [0; 1; 2; 3; 4; 5; 6; 7]%Z 0%Z.

(** Identifiers: a name, a spell id and a tag.  The log label of an action
    is its name, optionally followed by the spell id in braces. *)
Record Id := mkId {
  idName : string;
  idSpell : Z;
  idTag : string
}.

Definition idEqualsIgnoringTag (a b : Id) : bool :=
  String.eqb (idName a) (idName b) && Z.eqb (idSpell a) (idSpell b).

Definition idEquals (a b : Id) : bool :=
  idEqualsIgnoringTag a b && String.eqb (idTag a) (idTag b).

Definition idToStringIgnoringTag (a : Id) : string := idName a.

Definition idToString (a : Id) : string := (idName a ++ "-" ++ idTag a)%string.

Definition idResolve (label : string) (index : option Z) : Id :=
  mkId label 0 "0".

Definition ids : ActionIdApi :=
  Build_ActionIdApi idEquals idEqualsIgnoringTag idToString idToStringIgnoringTag
                    idSpell idName idResolve.

(** A reference for the helpers of [../utils.js]: the sum of a list and a
    three-way comparison of strings. *)
Definition utils : UtilsApi :=
  Build_UtilsApi (fold_right Qplus 0)
                 (fun a b => match String.compare a b with
                             | Lt => -1
                             | Eq => 0
                             | Gt => 1
                             end).

End RefHost.

(** What a match of the entity pattern holds in its groups. *)
Definition targetShape (caps : RefHost.Caps) : Prop :=
  exists d,
    d <> [] /\ Forall (fun a => digit a = true) d
    /\ nth 1 caps None = Some ("Target " ++ string_of_list_ascii d)%string
    /\ nth 2 caps None = Some (string_of_list_ascii d).

Definition petShape (caps : RefHost.Caps) : Prop :=
  exists o d n,
    d <> [] /\ Forall (fun a => digit a = true) d /\ o <> []
    /\ nth 1 caps None = None
    /\ nth 3 caps None
       = Some (string_of_list_ascii o ++ " (#" ++ string_of_list_ascii d ++ ") - "
               ++ string_of_list_ascii n)%string
    /\ nth 4 caps None = Some (string_of_list_ascii o)
    /\ nth 5 caps None = Some (string_of_list_ascii d)
    /\ nth 6 caps None = Some (string_of_list_ascii n).

Definition playerShape (caps : RefHost.Caps) : Prop :=
  exists n d,
    d <> [] /\ Forall (fun a => digit a = true) d /\ n <> []
    /\ nth 1 caps None = None /\ nth 3 caps None = None
    /\ nth 7 caps None
       = Some (string_of_list_ascii n ++ " (#" ++ string_of_list_ascii d ++ ")")%string
    /\ nth 8 caps None = Some (string_of_list_ascii n)
    /\ nth 9 caps None = Some (string_of_list_ascii d).

(** * Sample logs

    Concrete logs over the reference host, used to run the definitions. *)

Module Sample.

#[local] Existing Instance RefHost.ids.
#[local] Existing Instance RefHost.host.

Definition bob : Entity.t := Entity.make "Bob" "" 0 false false.
Definition target1 : Entity.t := Entity.make "Target 1" "" 0 true false.

Definition idA : RefHost.Id := RefHost.mkId "A" 0 "0".
Definition idB : RefHost.Id := RefHost.mkId "B" 0 "0".

(** The header of the log at index [i], at time [t], of the action [a]
    of Bob. *)
Definition hdr (text : string) (i : nat) (t : number) (a : RefHost.Id) : SimLogParams :=
  mkParams text i t (Some bob) None (Some a) None 0.

Definition nl : string := String "010" EmptyString.

(** Three lines: an aura event, a line that is no event, a damage event. *)
Definition threeLines : RaidSimResult :=
  mkRaidSimResult
    ("[1.00] [Bob (#1)] Aura gained: Foo" ++ nl ++ "hello" ++ nl
     ++ "[2.50] [Bob (#1)] Foo Hit [Target 1] for 150.00 damage (SpellSchool: 2) (Threat: 5.00)")%string.

(** A line whose bracketed timestamp is not at its start. *)
Definition lateTimestamp : string := "x[1.50] Aura gained: Foo".

(** Casts of one ability: a damage log precedes the first completion. *)
Definition began0 : CastBeganLog := mkCastBeganLog (hdr "Casting A" 0 0 idA) 0 0 0.
Definition damage1 : DamageDealtLog :=
  newDamageDealtLog (hdr "A Hit" 1 1 idA) 10 "damage"
                    false false false false false false false false false false false.
Definition completed2 : CastCompletedLog := mkCastCompletedLog (hdr "Completed cast A" 2 2 idA).
Definition began3 : CastBeganLog := mkCastBeganLog (hdr "Casting A" 3 3 idA) 0 0 0.
Definition completed4 : CastCompletedLog := mkCastCompletedLog (hdr "Completed cast A" 4 4 idA).
Definition damage5 : DamageDealtLog :=
  newDamageDealtLog (hdr "A Hit" 5 5 idA) 10 "damage"
                    false false false false false false false false false false false.

Definition casts : list SimLog :=
  [ CastBegan began0; DamageDealt damage1; CastCompleted completed2;
    CastBegan began3; CastCompleted completed4; DamageDealt damage5 ].

(** A cast whose only damage log lands three units after its completion. *)
Definition travelling : CastLog := newCastLog began0 (Some completed2) [damage5].

(** Auras. *)
Definition gainA : AuraEventLog := mkAuraEventLog (hdr "Aura gained: A" 0 1 idA) true false false.
Definition stacksA : AuraStacksChangeLog :=
  mkAuraStacksChangeLog (hdr "A stacks: 0 --> 2" 1 3 idA) 0%Z 2%Z.
Definition fadeA : AuraEventLog :=
  mkAuraEventLog (mkParams "Aura faded: A" 2 5 (Some bob) (Some target1) (Some idA) (Some 4%Z) 0)
                 false true false.

Definition gainStacksFade : list SimLog :=
  [ AuraEvent gainA; AuraStacksChange stacksA; AuraEvent fadeA ].


(** Two auras gained at time 1; the second fades, the first never does. *)
Definition gainB : AuraEventLog := mkAuraEventLog (hdr "Aura gained: B" 1 1 idB) true false false.
Definition fadeB : AuraEventLog := mkAuraEventLog (hdr "Aura faded: B" 2 2 idB) false true false.

Definition twoGains : list SimLog := [ AuraEvent gainA; AuraEvent gainB; AuraEvent fadeB ].

(** Damage: 150 at time 0, 30 at time 20. *)
Definition hit150 : DamageDealtLog :=
  newDamageDealtLog (hdr "A Hit" 0 0 idA) 150 "damage"
                    false false false false false false false false false false false.
Definition hit30 : DamageDealtLog :=
  newDamageDealtLog (hdr "A Hit" 1 20 idA) 30 "damage"
                    false false false false false false false false false false false.

(** Damage of 0.1 at time 0 and of 0.02 at time 15, when the first has
    just left the window. *)
Definition tenth : DamageDealtLog :=
  newDamageDealtLog (hdr "A Hit" 0 0 idA) (1 # 10) "damage"
                    false false false false false false false false false false false.
Definition fiftieth : DamageDealtLog :=
  newDamageDealtLog (hdr "A Hit" 1 15 idA) (1 # 50) "damage"
                    false false false false false false false false false false false.

(** Two amounts beyond the largest double, written with 310 digits, at the
    times 0 and 16. *)
Definition huge0 : DamageDealtLog :=
  newDamageDealtLog (hdr "A Hit" 0 0 idA) (inject_Z (10 ^ 309)) "damage"
                    false false false false false false false false false false false.
Definition huge16 : DamageDealtLog :=
  newDamageDealtLog (hdr "A Hit" 1 16 idA) (inject_Z (10 ^ 309)) "damage"
                    false false false false false false false false false false false.

(** Two simultaneous gains of mana (resource type 1). *)
Definition mana1 : ResourceChangedLog :=
  mkResourceChangedLog (hdr "Gained 5.0 Mana" 0 1 idA) 1%Z 10 15 false 100 None.
Definition mana2 : ResourceChangedLog :=
  mkResourceChangedLog (hdr "Gained 5.0 Mana" 1 1 idA) 1%Z 15 20 false 100 None.

(** Two auras: A is up from 1 to 5, B from 1 to 2; and the headers of three
    logs, at the times 0, 1 and 3. *)
Definition uptimes : list AuraUptimeLog :=
  [ newAuraUptimeLog (hdr "Aura gained: B" 1 1 idB) 2 [];
    newAuraUptimeLog (hdr "Aura gained: A" 0 1 idA) 5 [] ].

Definition headers : list SimLogParams :=
  [ hdr "x" 0 0 idA; hdr "y" 1 1 idA; hdr "z" 2 3 idA ].

(** The header of a line that reports damage. *)
Definition hitLine : SimLogParams :=
  hdr "[2.50] [Bob (#1)] Foo Hit [Target 1] for 150.00 damage" 0 (5 # 2) idA.

End Sample.

(** * Properties *)

Section Properties.

Context {AID : ActionIdApi} {HOST : HostApi}.

(** ** Numbers *)

Lemma Qlt_bool_iff (x y : Q) : Qlt_bool x y = true <-> x < y.
Proof.
  unfold Qlt_bool. rewrite negb_true_iff.
  split; intro H.
  - apply Qnot_le_lt. intro Hle. apply Qle_bool_iff in Hle. congruence.
  - destruct (Qle_bool y x) eqn:E; [|reflexivity].
    apply Qle_bool_iff in E. exfalso. apply (Qlt_not_le _ _ H E).
Qed.

Lemma Qlt_bool_false_iff (x y : Q) : Qlt_bool x y = false <-> y <= x.
Proof.
  unfold Qlt_bool. rewrite negb_false_iff. apply Qle_bool_iff.
Qed.

Lemma truthy_iff (x : Q) : truthy x = true <-> ~ x == 0.
Proof.
  unfold truthy. rewrite negb_true_iff. split; intro H.
  - now apply Qeq_bool_neq.
  - destruct (Qeq_bool x 0) eqn:E; [|reflexivity].
    apply Qeq_bool_iff in E. contradiction.
Qed.

Lemma truthy_false_iff (x : Q) : truthy x = false <-> x == 0.
Proof.
  unfold truthy. rewrite negb_false_iff. apply Qeq_bool_iff.
Qed.

(** ** The constructor of [CastLog] *)

(** C10: the header of a cast log takes [actionId], [spellSchool] and
    [threat] from the completion log when it has a truthy value there (an
    identifier that is not null, a school that is neither null nor 0, a
    threat that is not 0) and from the begin log otherwise, and always from
    the begin log when there is no completion log. *)
Theorem C10_header_fallback (cb : CastBeganLog) (cc : option CastCompletedLog)
    (dds : list DamageDealtLog) :
  let c := newCastLog cb cc dds in
  (cc = None ->
     actionId c = actionId cb /\ spellSchool c = spellSchool cb /\ threat c = threat cb)
  /\ (forall ccl, cc = Some ccl ->
        (forall a, actionId ccl = Some a -> actionId c = Some a)
        /\ (actionId ccl = None -> actionId c = actionId cb)
        /\ (forall s, spellSchool ccl = Some s -> s <> 0%Z -> spellSchool c = Some s)
        /\ (spellSchool ccl = None \/ spellSchool ccl = Some 0%Z ->
            spellSchool c = spellSchool cb)
        /\ (~ threat ccl == 0 -> threat c = threat ccl)
        /\ (threat ccl == 0 -> threat c = threat cb)).
Proof.
  cbn zeta. split.
  - intros ->. repeat split.
  - intros ccl ->. cbn. repeat split.
    + intros a Ha. now rewrite Ha.
    + intros Ha. now rewrite Ha.
    + intros s Hs Hnz. rewrite Hs. apply Z.eqb_neq in Hnz. now rewrite Hnz.
    + intros [Hs|Hs]; rewrite Hs; reflexivity.
    + intro Hnz. apply truthy_iff in Hnz. unfold orThreat. now rewrite Hnz.
    + intro Hz. apply truthy_false_iff in Hz. unfold orThreat. now rewrite Hz.
Qed.

(** ** The error monad *)

Lemma mapM_Forall2 {A B} (f : A -> Result B) (l : list A) :
  Forall (fun a => exists b, f a = Ok b) l ->
  exists bs, mapM f l = Ok bs /\ Forall2 (fun a b => f a = Ok b) l bs.
Proof.
  induction 1 as [|a l [b Hb] _ [bs [Hbs HF]]]; cbn.
  - exists []. split; [reflexivity|constructor].
  - exists (b :: bs). rewrite Hb; cbn. rewrite Hbs; cbn.
    split; [reflexivity|]. now constructor.
Qed.

(** ** Groups of simultaneous logs *)

Section GroupingFacts.

Variable LogType : Type.
Variable ts : LogType -> number.

Local Abbreviation groupsFrom := (groupsFrom ts).
Local Abbreviation sameTimestamp := (sameTimestamp ts).
Local Abbreviation headTimestamp := (headTimestamp ts).
Local Abbreviation distinctNeighbours := (distinctNeighbours ts).

Lemma fold_groupStep_grouped (l : list LogType) :
  forall grouped curGroup,
    fold_left (groupStep ts) l (grouped, curGroup)
    = (grouped ++ fst (fold_left (groupStep ts) l ([], curGroup)),
       snd (fold_left (groupStep ts) l ([], curGroup))).
Proof.
  induction l as [|x l IH]; intros grouped curGroup; cbn [fold_left].
  - cbn. now rewrite app_nil_r.
  - unfold groupStep at 2 4 6.
    destruct curGroup as [|first rest].
    + apply IH.
    + destruct (Qeq_bool (ts x) (ts first)).
      * apply IH.
      * rewrite (IH (grouped ++ [first :: rest])).
        rewrite (IH ([] ++ [first :: rest])). cbn.
        now rewrite <- app_assoc.
Qed.

Lemma groupsFrom_nil (curGroup : list LogType) :
  groupsFrom curGroup [] = match curGroup with [] => [] | _ :: _ => [curGroup] end.
Proof. reflexivity. Qed.

Lemma groupsFrom_cons (curGroup : list LogType) (x : LogType) (l : list LogType) :
  groupsFrom curGroup (x :: l)
  = match curGroup with
    | [] => groupsFrom [x] l
    | first :: _ =>
        if Qeq_bool (ts x) (ts first) then groupsFrom (curGroup ++ [x]) l
        else curGroup :: groupsFrom [x] l
    end.
Proof.
  unfold groupsFrom. cbn [fold_left]. unfold groupStep at 2.
  destruct curGroup as [|first rest]; [reflexivity|].
  destruct (Qeq_bool (ts x) (ts first)); [reflexivity|].
  rewrite fold_groupStep_grouped. cbn.
  destruct (fold_left (groupStep ts) l ([], [x])) as [grouped cur]. cbn.
  destruct cur; reflexivity.
Qed.

Lemma groupDuplicateTimestamps_groupsFrom (l : list LogType) :
  groupDuplicateTimestamps ts l = groupsFrom [] l.
Proof. reflexivity. Qed.

Lemma sameTimestamp_snoc (g : list LogType) (x : LogType) :
  sameTimestamp g -> ts x == headTimestamp g -> sameTimestamp (g ++ [x]).
Proof.
  destruct g as [|first rest]; cbn; [tauto|].
  intros Hg Hx. inversion Hg as [|? ? Hf Hrest]; subst.
  constructor; [assumption|].
  apply Forall_app. split; [assumption|]. constructor; [assumption|constructor].
Qed.

Lemma sameTimestamp_singleton (x : LogType) : sameTimestamp [x].
Proof. cbn. constructor; [reflexivity|constructor]. Qed.

Lemma groupsFrom_spec (l : list LogType) :
  forall curGroup,
    curGroup = [] \/ sameTimestamp curGroup ->
    List.concat (groupsFrom curGroup l) = curGroup ++ l
    /\ Forall sameTimestamp (groupsFrom curGroup l)
    /\ distinctNeighbours (groupsFrom curGroup l)
    /\ (curGroup <> [] ->
        exists g rest, groupsFrom curGroup l = g :: rest
                       /\ headTimestamp g = headTimestamp curGroup).
Proof.
  induction l as [|x l IH]; intros curGroup Hcur.
  - rewrite groupsFrom_nil. destruct curGroup as [|first rest].
    + repeat split; try constructor. congruence.
    + destruct Hcur as [Hcur|Hcur]; [discriminate|].
      cbn [List.concat]. rewrite !app_nil_r. repeat split.
      * constructor; [assumption|constructor].
      * constructor.
      * intros _. exists (first :: rest), []. split; reflexivity.
  - rewrite groupsFrom_cons. destruct curGroup as [|first rest].
    + destruct (IH [x] (or_intror (sameTimestamp_singleton x))) as (Hc & Hs & Hd & _).
      repeat split; try assumption. congruence.
    + destruct Hcur as [Hcur|Hcur]; [discriminate|].
      destruct (Qeq_bool (ts x) (ts first)) eqn:E.
      * apply Qeq_bool_iff in E.
        destruct (IH ((first :: rest) ++ [x])) as (Hc & Hs & Hd & Hh).
        { right. apply sameTimestamp_snoc; assumption. }
        repeat split; try assumption.
        -- rewrite Hc. now rewrite <- app_assoc.
        -- intros _. apply Hh. discriminate.
      * apply Qeq_bool_neq in E.
        destruct (IH [x] (or_intror (sameTimestamp_singleton x))) as (Hc & Hs & Hd & Hh).
        destruct Hh as (g & r & Hg & Hhead); [discriminate|].
        repeat split.
        -- cbn [List.concat]. rewrite Hc. reflexivity.
        -- constructor; assumption.
        -- rewrite Hg in *. constructor; [|assumption].
           rewrite Hhead. exact E.
        -- intros _. eexists _, _. split; reflexivity.
Qed.

(** [groupDuplicateTimestamps] cuts its input into the maximal runs of
    logs with one timestamp. *)
Lemma groupDuplicateTimestamps_spec (l : list LogType) :
  List.concat (groupDuplicateTimestamps ts l) = l
  /\ Forall sameTimestamp (groupDuplicateTimestamps ts l)
  /\ distinctNeighbours (groupDuplicateTimestamps ts l).
Proof.
  rewrite groupDuplicateTimestamps_groupsFrom.
  destruct (groupsFrom_spec l (curGroup := [])) as (Hc & Hs & Hd & _); [now left|].
  repeat split; assumption.
Qed.

End GroupingFacts.

(** ** [ResourceChangedLogGroup.fromLogs] *)

Lemma maxResource_fold (g : list ResourceChangedLog) :
  forall acc,
    let m := fold_left (fun max l => if Qlt_bool max (total l) then total l else max) g acc in
    acc <= m
    /\ (forall l, In l g -> total l <= m)
    /\ (m = acc \/ exists l, In l g /\ m = total l).
Proof.
  induction g as [|x g IH]; intros acc; cbn zeta; cbn [fold_left].
  - repeat split; [lra|intros l []|now left].
  - specialize (IH (if Qlt_bool acc (total x) then total x else acc)).
    cbn zeta in IH. destruct IH as (Hle & Hall & Hwit).
    destruct (Qlt_bool acc (total x)) eqn:E.
    + apply Qlt_bool_iff in E. repeat split.
      * lra.
      * intros l [<-|Hl]; [assumption|now apply Hall].
      * right. destruct Hwit as [->|(l & Hl & ->)].
        -- exists x. split; [now left|reflexivity].
        -- exists l. split; [now right|reflexivity].
    + apply Qlt_bool_false_iff in E. repeat split.
      * assumption.
      * intros l [<-|Hl]; [lra|now apply Hall].
      * destruct Hwit as [->|(l & Hl & ->)]; [now left|].
        right. exists l. split; [now right|reflexivity].
Qed.

Lemma maxResource_spec (g : list ResourceChangedLog) :
  (forall l, In l g -> total l <= maxResource g)
  /\ (maxResource g = 0 \/ exists l, In l g /\ maxResource g = total l)
  /\ (Forall (fun l => total l == 0) g -> maxResource g = 0).
Proof.
  destruct (maxResource_fold g 0) as (Hle & Hall & Hwit). fold (maxResource g) in *.
  repeat split; try assumption.
  intro Hzero. unfold maxResource.
  clear Hle Hall Hwit. induction Hzero as [|x g Hx _ IH]; [reflexivity|].
  cbn [fold_left].
  assert (E : Qlt_bool 0 (total x) = false) by (apply Qlt_bool_false_iff; lra).
  rewrite E. exact IH.
Qed.

Lemma nth_error_last_snoc {A} (init : list A) (x : A) :
  nth_error (init ++ [x]) (List.length (init ++ [x]) - 1) = Some x.
Proof.
  rewrite length_app. cbn [List.length].
  replace (List.length init + 1 - 1)%nat with (List.length init) by lia.
  rewrite nth_error_app2 by lia. now rewrite Nat.sub_diag.
Qed.

Lemma resourceGroup_ok (rt : ResourceType) (g : list ResourceChangedLog) :
  sameTimestamp resourceTimestamp g ->
  exists o, resourceGroup rt g = Ok o /\ summarises rt g o.
Proof.
  intro Hg. destruct g as [|first rest]; [destruct Hg|].
  destruct (exists_last (l := first :: rest)) as (init & lst & Hlast); [discriminate|].
  assert (Hnth : nth_error (first :: rest) (List.length (first :: rest) - 1) = Some lst).
  { rewrite Hlast. apply nth_error_last_snoc. }
  unfold resourceGroup. rewrite Hnth. cbn [nth_error deref bind].
  eexists. split; [reflexivity|].
  destruct (maxResource_spec (first :: rest)) as (Hall & Hwit & Hzero).
  unfold summarises; cbn [rg_logs rg_resourceType rg_valueBefore rg_valueAfter maxValue
                          rg_base timestamp].
  split; [reflexivity|]. split; [reflexivity|]. split.
  { exists first, rest, init, lst. repeat split. exact Hlast. }
  split; [assumption|]. split; [assumption|]. split; [assumption|].
  intro Hpos. destruct Hwit as [H0|(l & Hl & Hmax)].
  - exists first. split; [now left|]. rewrite H0.
    pose proof (Hall first (or_introl eq_refl)) as Hle. rewrite H0 in Hle.
    pose proof (Forall_inv Hpos) as Hge. cbn beta in Hge. lra.
  - exists l. split; [assumption|]. now rewrite Hmax.
Qed.

Lemma resourceGroupsOf_ok (all : list ResourceChangedLog) (rt : ResourceType) :
  let events := filter (fun log : ResourceChangedLog => Z.eqb (resourceType log) rt) all in
  let grouped := groupDuplicateTimestamps resourceTimestamp events in
  exists out, resourceGroupsOf all rt = Ok out /\ Forall2 (summarises rt) grouped out.
Proof.
  cbn zeta. unfold resourceGroupsOf.
  set (grouped := groupDuplicateTimestamps _ _).
  destruct (groupDuplicateTimestamps_spec resourceTimestamp
              (filter (fun log : ResourceChangedLog => Z.eqb (resourceType log) rt) all))
    as (_ & Hsame & _).
  fold grouped in Hsame.
  assert (Hgood : Forall (fun g => exists o, resourceGroup rt g = Ok o /\ summarises rt g o) grouped).
  { eapply Forall_impl; [|exact Hsame]. intros g Hg. now apply resourceGroup_ok. }
  clear Hsame. induction Hgood as [|g gs (o & Ho & Hsum) _ (out & Hout & HF)]; cbn.
  - exists []. split; [reflexivity|constructor].
  - exists (o :: out). rewrite Ho; cbn. rewrite Hout; cbn.
    split; [reflexivity|]. now constructor.
Qed.

Lemma fromLogs_results (all : list ResourceChangedLog) (keys : list ResourceType) :
  exists results,
    mapM (fun rt => let* groups := resourceGroupsOf all rt in Ok (rt, groups)) keys = Ok results
    /\ forall rt, In rt keys ->
         exists out, lookupResult rt results = Some out /\ resourceGroupsOf all rt = Ok out.
Proof.
  induction keys as [|k keys (results & Hres & Hlook)]; cbn.
  - exists []. split; [reflexivity|]. intros rt [].
  - destruct (resourceGroupsOf_ok all k) as (out & Hout & _).
    rewrite Hout; cbn. rewrite Hres; cbn.
    eexists. split; [reflexivity|].
    intros rt Hin. cbn. destruct (Z.eqb k rt) eqn:E.
    + apply Z.eqb_eq in E. subst. exists out. split; [reflexivity|assumption].
    + destruct Hin as [->|Hin]; [rewrite Z.eqb_refl in E; discriminate|].
      now apply Hlook.
Qed.

Lemma resource_groups_general (logs : list SimLog) :
  exists results,
    ResourceChangedLogGroup_fromLogs logs = Ok results
    /\ forall rt, In rt resourceTypeValues -> rt <> ResourceTypeNone ->
         let events := filter (fun log : ResourceChangedLog => Z.eqb (resourceType log) rt)
                              (filterType isResourceChanged logs) in
         let grouped := groupDuplicateTimestamps resourceTimestamp events in
         List.concat grouped = events
         /\ Forall (sameTimestamp resourceTimestamp) grouped
         /\ distinctNeighbours resourceTimestamp grouped
         /\ exists out, lookupResult rt results = Some out
                        /\ Forall2 (summarises rt) grouped out.
Proof.
  unfold ResourceChangedLogGroup_fromLogs.
  destruct (fromLogs_results (filterType isResourceChanged logs)
              (filter (fun val => negb (Z.eqb val ResourceTypeNone)) resourceTypeValues))
    as (results & Hres & Hlook).
  exists results. split; [exact Hres|].
  intros rt Hin Hne. cbn zeta.
  destruct (groupDuplicateTimestamps_spec resourceTimestamp
              (filter (fun log : ResourceChangedLog => Z.eqb (resourceType log) rt)
                      (filterType isResourceChanged logs))) as (Hc & Hs & Hd).
  repeat split; try assumption.
  destruct (Hlook rt) as (out & Hl & Hout).
  { apply filter_In. split; [assumption|]. apply negb_true_iff. now apply Z.eqb_neq. }
  exists out. split; [assumption|].
  destruct (resourceGroupsOf_ok (filterType isResourceChanged logs) rt) as (out' & Hout' & HF).
  rewrite Hout in Hout'. injection Hout' as <-. exact HF.
Qed.

(** C8: for every resource type other than [ResourceTypeNone], the logs of
    that type are cut into the maximal runs of simultaneous logs, and one
    group log is emitted per run, in order: it keeps the run, takes
    [valueBefore] from its first log, [valueAfter] from its last log and as
    [maxValue] the largest [total] of the run (0 when no [total] is above 0).
    Two simultaneous logs of one type give one group whose [valueAfter] is
    that of the second log. *)
Theorem C8_resource_groups :
  (forall logs : list SimLog,
     exists results,
       ResourceChangedLogGroup_fromLogs logs = Ok results
       /\ forall rt, In rt resourceTypeValues -> rt <> ResourceTypeNone ->
            let events := filter (fun log : ResourceChangedLog => Z.eqb (resourceType log) rt)
                                 (filterType isResourceChanged logs) in
            let grouped := groupDuplicateTimestamps resourceTimestamp events in
            List.concat grouped = events
            /\ Forall (sameTimestamp resourceTimestamp) grouped
            /\ distinctNeighbours resourceTimestamp grouped
            /\ exists out, lookupResult rt results = Some out
                           /\ Forall2 (summarises rt) grouped out)
  /\ (forall (a b : ResourceChangedLog) (rt : ResourceType),
        In rt resourceTypeValues -> rt <> ResourceTypeNone ->
        resourceType a = rt -> resourceType b = rt -> timestamp b == timestamp a ->
        exists results o,
          ResourceChangedLogGroup_fromLogs [ResourceChanged a; ResourceChanged b] = Ok results
          /\ lookupResult rt results = Some [o]
          /\ rg_logs o = [a; b]
          /\ rg_valueBefore o = valueBefore a
          /\ rg_valueAfter o = valueAfter b).
Proof.
  split; [exact resource_groups_general|].
  intros a b rt Hin Hne Ha Hb Hts.
  destruct (resource_groups_general [ResourceChanged a; ResourceChanged b])
    as (results & Hres & Hall).
  specialize (Hall rt Hin Hne). cbn zeta in Hall.
  destruct Hall as (_ & _ & _ & out & Hlook & HF).
  cbn [filterType isResourceChanged filter] in HF.
  rewrite Ha, Hb, Z.eqb_refl in HF.
  unfold groupDuplicateTimestamps in HF. cbn [fold_left groupStep app] in HF.
  unfold resourceTimestamp in HF at 1 2.
  apply Qeq_bool_iff in Hts. rewrite Hts in HF. cbn in HF.
  inversion HF as [|g o gs os Hsum Hrest]; subst. inversion Hrest; subst.
  exists results, o. destruct Hsum as (Hlogs & _ & (first & rest & init & lst & Hf & Hl & _ & Hvb & Hva) & _).
  injection Hf as <- <-.
  assert (lst = b).
  { change [a; b] with ([a] ++ [b]) in Hl. symmetry in Hl.
    now apply app_inj_tail in Hl. }
  subst lst. repeat split; assumption.
Qed.

(** ** The line classifier *)

Lemma sameButAction_refl (p : SimLogParams) : sameButAction p p.
Proof. repeat split. Qed.

Lemma sameButAction_set (p : SimLogParams) (a : option ActionId) :
  sameButAction (set_actionId p a) p.
Proof. repeat split. Qed.

Create HintDb parser.
#[local] Hint Resolve sameButAction_refl sameButAction_set : parser.

Ltac parser_header :=
  let m := fresh "m" in
  intros params pr;
  destruct (regexMatch _ (raw params)) as [m|]; [|discriminate];
  repeat match goal with
         | |- context [stringToResourceType ?x] => destruct (stringToResourceType x)
         | |- context [if grpTruthy ?k m then Some _ else None] =>
             destruct (grpTruthy k m); [|discriminate]
         end;
  let H := fresh "H" in
  intro H; injection H as <-; cbn; auto with parser.

Lemma DamageDealtLog_parse_header :
  forall params pr, DamageDealtLog_parse params = Some pr ->
                    sameButAction (header (settle pr)) params.
Proof. unfold DamageDealtLog_parse. parser_header. Qed.

Lemma ResourceChangedLog_parse_header :
  forall params pr, ResourceChangedLog_parse params = Some pr ->
                    sameButAction (header (settle pr)) params.
Proof. unfold ResourceChangedLog_parse. parser_header. Qed.

Lemma AuraEventLog_parse_header :
  forall params pr, AuraEventLog_parse params = Some pr ->
                    sameButAction (header (settle pr)) params.
Proof. unfold AuraEventLog_parse. parser_header. Qed.

Lemma AuraStacksChangeLog_parse_header :
  forall params pr, AuraStacksChangeLog_parse params = Some pr ->
                    sameButAction (header (settle pr)) params.
Proof. unfold AuraStacksChangeLog_parse. parser_header. Qed.

Lemma MajorCooldownUsedLog_parse_header :
  forall params pr, MajorCooldownUsedLog_parse params = Some pr ->
                    sameButAction (header (settle pr)) params.
Proof. unfold MajorCooldownUsedLog_parse. parser_header. Qed.

Lemma CastBeganLog_parse_header :
  forall params pr, CastBeganLog_parse params = Some pr ->
                    sameButAction (header (settle pr)) params.
Proof. unfold CastBeganLog_parse. parser_header. Qed.

Lemma CastCompletedLog_parse_header :
  forall params pr, CastCompletedLog_parse params = Some pr ->
                    sameButAction (header (settle pr)) params.
Proof. unfold CastCompletedLog_parse. parser_header. Qed.

Lemma StatChangeLog_parse_header :
  forall params pr, StatChangeLog_parse params = Some pr ->
                    sameButAction (header (settle pr)) params.
Proof. unfold StatChangeLog_parse. parser_header. Qed.

Lemma orElse_header (params : SimLogParams) (a : option (Promise SimLog)) (b : Promise SimLog) :
  (forall pr, a = Some pr -> sameButAction (header (settle pr)) params) ->
  sameButAction (header (settle b)) params ->
  sameButAction (header (settle (orElse a b))) params.
Proof.
  intros Ha Hb. destruct a as [pr|]; cbn; [now apply Ha|exact Hb].
Qed.

Lemma classify_header (params : SimLogParams) :
  sameButAction (header (settle (classify params))) params.
Proof.
  unfold classify.
  apply orElse_header; [apply DamageDealtLog_parse_header|].
  apply orElse_header; [apply ResourceChangedLog_parse_header|].
  apply orElse_header; [apply AuraEventLog_parse_header|].
  apply orElse_header; [apply AuraStacksChangeLog_parse_header|].
  apply orElse_header; [apply MajorCooldownUsedLog_parse_header|].
  apply orElse_header; [apply CastBeganLog_parse_header|].
  apply orElse_header; [apply CastCompletedLog_parse_header|].
  apply orElse_header; [apply StatChangeLog_parse_header|].
  cbn. apply sameButAction_refl.
Qed.

(** When no pattern of a kind matches the raw line, the classifier answers
    with the plain log. *)
Lemma classify_plain (params : SimLogParams) :
  Forall (fun re => regexMatch re (raw params) = None) kindPatterns ->
  classify params = Resolved (Plain params).
Proof.
  unfold kindPatterns. intro H.
  repeat match goal with
         | H : Forall _ (_ :: _) |- _ =>
             let H1 := fresh "Hre" in
             let H2 := fresh "Hrest" in
             inversion H as [|? ? H1 H2]; subst; clear H; rename H2 into H
         end.
  unfold classify, DamageDealtLog_parse, ResourceChangedLog_parse, AuraEventLog_parse,
    AuraStacksChangeLog_parse, MajorCooldownUsedLog_parse, CastBeganLog_parse,
    CastCompletedLog_parse, StatChangeLog_parse.
  rewrite Hre, Hre0, Hre1, Hre2, Hre3, Hre4, Hre5, Hre6. reflexivity.
Qed.

Lemma annotations_header (line : string) (lineIndex : nat) :
  let params := fst (annotations line lineIndex) in
  raw params = line /\ logIndex params = lineIndex /\ timestamp params = 0
  /\ source params = None /\ target params = None /\ actionId params = None.
Proof.
  unfold annotations.
  destruct (regexMatch Patterns.spellSchoolRe line);
    destruct (regexMatch Patterns.threatRe line); cbn; repeat split.
Qed.

Lemma timedParams_header (params : SimLogParams) (m : MatchResult) (entities : list Entity.t) :
  raw (timedParams params m entities) = raw params
  /\ logIndex (timedParams params m entities) = logIndex params.
Proof. split; reflexivity. Qed.

(** Every answer of the callback carries the raw line and its index. *)
Lemma parseLine_header (line : string) (lineIndex : nat) (pr : Promise SimLog) :
  parseLine line lineIndex = Ok pr ->
  raw (header (settle pr)) = line /\ logIndex (header (settle pr)) = lineIndex.
Proof.
  unfold parseLine.
  pose proof (annotations_header line lineIndex) as Hann. cbn zeta in Hann.
  destruct (annotations line lineIndex) as [params line']. cbn [fst] in Hann.
  destruct Hann as (Hraw & Hidx & _).
  destruct (regexMatch Patterns.timestampRe line') as [m|].
  - destruct (grpTruthy 1 m); cbn [negb].
    + destruct (Entity.parseAll (captured 2 m)) as [entities|]; cbn [bind]; [|discriminate].
      intro H. injection H as <-.
      destruct (classify_header (timedParams params m entities)) as (Hr & Hi & _).
      rewrite Hr, Hi. cbn. split; assumption.
    + intro H. injection H as <-. cbn. split; assumption.
  - intro H. injection H as <-. cbn. split; assumption.
Qed.

(** A line in which the timestamp pattern finds nothing is answered at once
    with the plain log of its annotations. *)
Lemma parseLine_no_timestamp (line : string) (lineIndex : nat) :
  regexMatch Patterns.timestampRe (snd (annotations line lineIndex)) = None ->
  parseLine line lineIndex = Ok (Resolved (Plain (fst (annotations line lineIndex)))).
Proof.
  unfold parseLine. destruct (annotations line lineIndex) as [params line']. cbn [fst snd].
  now intros ->.
Qed.

(** A line that no kind-specific pattern matches is answered, unless the
    entity parser throws, with a plain log: that of its annotations, or that
    of its annotations with the timestamp and the entities. *)
Lemma parseLine_no_kind (line : string) (lineIndex : nat) (pr : Promise SimLog) :
  Forall (fun re => regexMatch re line = None) kindPatterns ->
  parseLine line lineIndex = Ok pr ->
  let params := fst (annotations line lineIndex) in
  match regexMatch Patterns.timestampRe (snd (annotations line lineIndex)) with
  | Some m =>
      if grpTruthy 1 m then
        exists entities,
          Entity.parseAll (captured 2 m) = Ok entities
          /\ pr = Resolved (Plain (timedParams params m entities))
      else pr = Resolved (Plain params)
  | None => pr = Resolved (Plain params)
  end.
Proof.
  intros Hnone. unfold parseLine. cbn zeta.
  pose proof (annotations_header line lineIndex) as Hann. cbn zeta in Hann.
  destruct (annotations line lineIndex) as [params line']. cbn [fst snd] in *.
  destruct Hann as (Hraw & _).
  destruct (regexMatch Patterns.timestampRe line') as [m|] eqn:Em.
  - destruct (grpTruthy 1 m); cbn [negb].
    + destruct (Entity.parseAll (captured 2 m)) as [entities|] eqn:Ee; cbn [bind]; [|discriminate].
      intro H. injection H as <-. exists entities.
      split; [reflexivity|].
      f_equal. apply classify_plain. cbn. now rewrite Hraw.
    + intro H. now injection H as <-.
  - intro H. now injection H as <-.
Qed.

(** ** The ordered join *)

Lemma mapIndexed_spec {A B} (f : A -> nat -> Result B) (l : list A) :
  forall i bs,
    mapIndexed f l i = Ok bs ->
    List.length bs = List.length l
    /\ forall k a, nth_error l k = Some a ->
         exists b, nth_error bs k = Some b /\ f a (i + k)%nat = Ok b.
Proof.
  induction l as [|x l IH]; intros i bs; cbn [mapIndexed].
  - intro H. injection H as <-. split; [reflexivity|]. intros [|k] a; discriminate.
  - destruct (f x i) as [b|] eqn:Hb; cbn [bind]; [|discriminate].
    destruct (mapIndexed f l (S i)) as [bs'|] eqn:Hbs; cbn [bind]; [|discriminate].
    intro H. injection H as <-.
    destruct (IH _ _ Hbs) as (Hlen & Hnth).
    split; [cbn; now rewrite Hlen|].
    intros [|k] a Ha; cbn in Ha.
    + injection Ha as <-. exists b. rewrite Nat.add_0_r. split; [reflexivity|assumption].
    + destruct (Hnth k a Ha) as (b' & Hb' & Hf). exists b'.
      rewrite Nat.add_succ_r. split; assumption.
Qed.

Lemma mapIndexed_total {A B} (f : A -> nat -> Result B) (l : list A) :
  forall i,
    (forall k a, nth_error l k = Some a -> f a (i + k)%nat <> Throw) ->
    exists bs, mapIndexed f l i = Ok bs.
Proof.
  induction l as [|x l IH]; intros i Hok; cbn [mapIndexed].
  - now exists [].
  - destruct (f x i) as [b|] eqn:Hb.
    + destruct (IH (S i)) as (bs & Hbs).
      { intros k a Ha. rewrite Nat.add_succ_comm. apply (Hok (S k) a Ha). }
      exists (b :: bs). cbn. now rewrite Hbs.
    + exfalso. apply (Hok 0%nat x eq_refl). now rewrite Nat.add_0_r.
Qed.

Lemma setSlot_length {A} (i : nat) (v : A) (slots : list (option A)) :
  List.length (setSlot i v slots) = List.length slots.
Proof.
  revert i. induction slots as [|s slots IH]; intros [|i]; cbn; auto.
Qed.

Lemma setSlot_same {A} (i : nat) (v : A) (slots : list (option A)) :
  (i < List.length slots)%nat -> nth_error (setSlot i v slots) i = Some (Some v).
Proof.
  revert i. induction slots as [|s slots IH]; intros [|i] Hi; cbn in *; try lia.
  - reflexivity.
  - apply IH. lia.
Qed.

Lemma setSlot_other {A} (i k : nat) (v : A) (slots : list (option A)) :
  k <> i -> nth_error (setSlot i v slots) k = nth_error slots k.
Proof.
  revert i k. induction slots as [|s slots IH]; intros [|i] [|k] Hne; cbn; auto.
  - congruence.
Qed.

Lemma fulfil_sound {A} (promises : list (Promise A)) (slots : list (option A)) (i : nat) :
  slotsSound promises slots -> slotsSound promises (fulfil promises slots i).
Proof.
  intros (Hlen & Hval). unfold fulfil.
  destruct (nth_error promises i) as [p|] eqn:Hp; [|now split].
  split; [now rewrite setSlot_length|].
  intros k v. destruct (Nat.eq_dec k i) as [->|Hne].
  - rewrite setSlot_same.
    + intro H. injection H as <-. now exists p.
    + rewrite Hlen. apply nth_error_Some. congruence.
  - rewrite setSlot_other by assumption. apply Hval.
Qed.

Lemma fulfil_keeps {A} (promises : list (Promise A)) (slots : list (option A)) (i k : nat) :
  slotsSound promises slots ->
  (exists v, nth_error slots k = Some (Some v)) ->
  exists v, nth_error (fulfil promises slots i) k = Some (Some v).
Proof.
  intros (Hlen & _) (v & Hv). unfold fulfil.
  destruct (nth_error promises i) as [p|] eqn:Hp; [|now exists v].
  destruct (Nat.eq_dec k i) as [->|Hne].
  - exists (settle p). apply setSlot_same. rewrite Hlen. apply nth_error_Some. congruence.
  - exists v. now rewrite setSlot_other.
Qed.

Lemma fulfil_fills {A} (promises : list (Promise A)) (slots : list (option A)) (i : nat) :
  slotsSound promises slots -> (i < List.length promises)%nat ->
  exists v, nth_error (fulfil promises slots i) i = Some (Some v).
Proof.
  intros (Hlen & _) Hi. unfold fulfil.
  destruct (nth_error promises i) as [p|] eqn:Hp.
  - exists (settle p). apply setSlot_same. now rewrite Hlen.
  - apply nth_error_None in Hp. lia.
Qed.

Lemma fold_fulfil {A} (promises : list (Promise A)) (order : list nat) :
  forall slots,
    slotsSound promises slots ->
    let slots' := fold_left (fulfil promises) order slots in
    slotsSound promises slots'
    /\ forall k, (k < List.length promises)%nat ->
         In k order \/ (exists v, nth_error slots k = Some (Some v)) ->
         exists v, nth_error slots' k = Some (Some v).
Proof.
  induction order as [|i order IH]; intros slots Hs; cbn zeta; cbn [fold_left].
  - split; [assumption|]. intros k _ [[]|H]; assumption.
  - destruct (IH (fulfil promises slots i) (fulfil_sound i Hs)) as (Hs' & Hfill).
    cbn zeta in Hfill. split; [assumption|].
    intros k Hk [[->|Hin]|Hset].
    + apply Hfill; [assumption|]. right. now apply fulfil_fills.
    + apply Hfill; [assumption|]. now left.
    + apply Hfill; [assumption|]. right. now apply fulfil_keeps.
Qed.

Lemma allFilled_settled {A} (promises : list (Promise A)) :
  forall slots,
    slotsSound promises slots ->
    (forall k, (k < List.length promises)%nat -> exists v, nth_error slots k = Some (Some v)) ->
    allFilled slots = Some (map settle promises).
Proof.
  induction promises as [|p promises IH]; intros slots (Hlen & Hval) Hfull.
  - destruct slots; [reflexivity|discriminate].
  - destruct slots as [|s slots]; [discriminate|].
    destruct (Hfull 0%nat) as (v & Hv); [cbn; lia|].
    cbn in Hv. injection Hv as ->.
    destruct (Hval 0%nat v eq_refl) as (p' & Hp' & ->). cbn in Hp'. injection Hp' as <-.
    cbn [allFilled map]. rewrite (IH slots); [reflexivity| |].
    + split; [cbn in Hlen; lia|]. intros k w Hw. apply (Hval (S k) w Hw).
    + intros k Hk. apply (Hfull (S k)). cbn. lia.
Qed.

Lemma repeat_None_sound {A} (promises : list (Promise A)) :
  slotsSound promises (repeat None (List.length promises)).
Proof.
  split; [apply repeat_length|].
  intros k v Hk. apply nth_error_In, repeat_spec in Hk. discriminate.
Qed.

(** [Promise.all] delivers the values in the order of the promises, in
    whatever order they are fulfilled. *)
Lemma Promise_all_ordered {A} (order : list nat) (promises : list (Promise A)) :
  (forall k, (k < List.length promises)%nat -> In k order) ->
  Promise_all order promises = Fulfilled (map settle promises).
Proof.
  intro Hcover. unfold Promise_all.
  destruct (fold_fulfil order (repeat_None_sound promises)) as (Hs & Hfill).
  cbn zeta in Hfill.
  rewrite (allFilled_settled Hs); [reflexivity|].
  intros k Hk. apply Hfill; [assumption|]. left. now apply Hcover.
Qed.

(** ** [SimLog.parseAll] *)

Lemma ofMatch_labelled (m : MatchResult) :
  grpTruthy 1 m || grpTruthy 3 m || grpTruthy 7 m = true ->
  exists e, Entity.ofMatch m = Ok e.
Proof.
  unfold Entity.ofMatch. intro H.
  destruct (grpTruthy 1 m); [eexists; reflexivity|].
  destruct (grpTruthy 3 m); [eexists; reflexivity|].
  destruct (grpTruthy 7 m); [eexists; reflexivity|discriminate].
Qed.

(** On an engine that delivers only labelled entity matches, the entity
    parser and the callback of [lines.map] never throw. *)
Lemma Entity_parseAll_total :
  entityMatchesLabelled -> forall str, exists entities, Entity.parseAll str = Ok entities.
Proof.
  intros Hlab str. unfold Entity.parseAll.
  destruct (@mapM_Forall2 _ _ Entity.ofMatch (regexMatchAll Patterns.entityRe str))
    as (es & Hes & _).
  - apply Forall_forall. intros m Hm. apply ofMatch_labelled. now apply (Hlab str).
  - now exists es.
Qed.

Lemma parseLine_total :
  entityMatchesLabelled -> forall line lineIndex, parseLine line lineIndex <> Throw.
Proof.
  intros Hlab line lineIndex. unfold parseLine.
  destruct (annotations line lineIndex) as [params line'].
  destruct (regexMatch Patterns.timestampRe line') as [m|]; [|discriminate].
  destruct (grpTruthy 1 m); cbn [negb]; [|discriminate].
  destruct (Entity_parseAll_total Hlab (captured 2 m)) as (entities & ->). discriminate.
Qed.

(** When the entity parser cannot throw and every promise is fulfilled at
    some point, [parseAll] delivers the settled answers of the lines, in line order. *)
Lemma parseAll_join (order : list nat) (result : RaidSimResult) :
  let lines := split_newline (logs result) in
  entityMatchesLabelled ->
  (forall i, (i < List.length lines)%nat -> In i order) ->
  exists promises,
    mapIndexed parseLine lines 0 = Ok promises
    /\ List.length promises = List.length lines
    /\ parseAll order result = Fulfilled (map settle promises)
    /\ forall i line, nth_error lines i = Some line ->
         exists pr, nth_error promises i = Some pr /\ parseLine line i = Ok pr.
Proof.
  cbn zeta. intros Hlab Hcover.
  destruct (mapIndexed_total parseLine (split_newline (logs result)) 0) as (promises & Hps).
  { intros k a Ha. now apply parseLine_total. }
  destruct (mapIndexed_spec _ _ _ Hps) as (Hlen & Hnth).
  exists promises. split; [assumption|]. split; [assumption|]. split.
  - unfold parseAll. rewrite Hps. apply Promise_all_ordered.
    intros k Hk. apply Hcover. now rewrite <- Hlen.
  - intros i line Hline. destruct (Hnth i line Hline) as (pr & Hpr & Hf).
    exists pr. split; assumption.
Qed.

(** C1: on an engine whose entity matches are labelled, every blob of N
    lines yields N events once every per-line promise is fulfilled; the event
    at index i comes from line i and carries [logIndex] i, so the events are
    in line order with strictly increasing [logIndex]; the order in which the
    promises are fulfilled does not change the result. *)
Theorem C1_parseAll_order (order : list nat) (result : RaidSimResult) :
  let lines := split_newline (logs result) in
  entityMatchesLabelled ->
  (forall i, (i < List.length lines)%nat -> In i order) ->
  exists events,
    parseAll order result = Fulfilled events
    /\ List.length events = List.length lines
    /\ (forall i line, nth_error lines i = Some line ->
          exists e, nth_error events i = Some e
                    /\ logIndex (header e) = i /\ raw (header e) = line)
    /\ (forall i j ei ej, nth_error events i = Some ei -> nth_error events j = Some ej ->
          (i < j)%nat -> (logIndex (header ei) < logIndex (header ej))%nat)
    /\ (forall order', (forall i, (i < List.length lines)%nat -> In i order') ->
          parseAll order' result = Fulfilled events).
Proof.
  cbn zeta. intros Hok Hcover.
  destruct (parseAll_join order result Hok Hcover) as (promises & Hps & Hlen & Hall & Hnth).
  assert (Hevent : forall i line, nth_error (split_newline (logs result)) i = Some line ->
            exists e, nth_error (map settle promises) i = Some e
                      /\ logIndex (header e) = i /\ raw (header e) = line).
  { intros i line Hline. destruct (Hnth i line Hline) as (pr & Hpr & Hparse).
    exists (settle pr). split; [now apply map_nth_error|].
    destruct (parseLine_header _ _ Hparse) as (Hraw & Hidx). now split. }
  exists (map settle promises). repeat split.
  - exact Hall.
  - now rewrite length_map.
  - exact Hevent.
  - intros i j ei ej Hi Hj Hlt.
    assert (Hbound : forall k e, nth_error (map settle promises) k = Some e ->
              logIndex (header e) = k).
    { intros k e Hk.
      assert (Hk' : (k < List.length (split_newline (logs result)))%nat).
      { rewrite <- Hlen, <- (length_map settle). apply nth_error_Some. congruence. }
      destruct (nth_error (split_newline (logs result)) k) as [line|] eqn:Hline.
      - destruct (Hevent k line Hline) as (e' & He' & Hidx & _). congruence.
      - apply nth_error_None in Hline. lia. }
    rewrite (Hbound _ _ Hi), (Hbound _ _ Hj). exact Hlt.
  - intros order' Hcover'.
    destruct (parseAll_join order' result Hok Hcover') as (promises' & Hps' & _ & Hall' & _).
    rewrite Hps in Hps'. injection Hps' as <-. exact Hall'.
Qed.

(** C9, amended: a line in which the timestamp pattern matches nowhere
    (once the [Threat] annotation is cut off) is answered with the plain log
    of its annotations, with timestamp 0 and without source and target; a
    line that no kind-specific pattern matches is answered with a plain log
    that keeps the raw text, the index and the annotations and all the
    header fields: where the timestamp pattern matches, the event carries
    exactly this timestamp and the first and second entity of the rest of
    the line, and otherwise timestamp 0 and no entity.  Such a line never
    makes the batch fail, and its event stands at the index of the line. *)
Theorem C9_generic_fallback (order : list nat) (result : RaidSimResult) :
  let lines := split_newline (logs result) in
  entityMatchesLabelled ->
  (forall i, (i < List.length lines)%nat -> In i order) ->
  exists events,
    parseAll order result = Fulfilled events
    /\ List.length events = List.length lines
    /\ forall i line, nth_error lines i = Some line ->
         let params := fst (annotations line i) in
         (regexMatch Patterns.timestampRe (snd (annotations line i)) = None ->
            parseLine line i = Ok (Resolved (Plain params))
            /\ nth_error events i = Some (Plain params)
            /\ raw params = line /\ logIndex params = i /\ timestamp params = 0
            /\ source params = None /\ target params = None /\ actionId params = None)
         /\ (Forall (fun re => regexMatch re line = None) kindPatterns ->
            exists p, nth_error events i = Some (Plain p)
              /\ raw p = line /\ logIndex p = i /\ actionId p = None
              /\ spellSchool p = spellSchool params /\ threat p = threat params
              /\ match regexMatch Patterns.timestampRe (snd (annotations line i)) with
                 | Some m =>
                     if grpTruthy 1 m then
                       exists entities,
                         Entity.parseAll (captured 2 m) = Ok entities
                         /\ p = timedParams params m entities
                         /\ timestamp p = parseFloat (captured 1 m)
                         /\ source p = nth_error entities 0
                         /\ target p = nth_error entities 1
                     else p = params /\ timestamp p = 0
                          /\ source p = None /\ target p = None
                 | None => p = params /\ timestamp p = 0
                           /\ source p = None /\ target p = None
                 end).
Proof.
  cbn zeta. intros Hok Hcover.
  destruct (parseAll_join order result Hok Hcover) as (promises & Hps & Hlen & Hall & Hnth).
  exists (map settle promises). split; [exact Hall|]. split; [now rewrite length_map|].
  intros i line Hline.
  destruct (Hnth i line Hline) as (pr & Hpr & Hparse).
  destruct (annotations_header line i) as (Hraw & Hidx & Hts & Hsrc & Htgt & Hact).
  split.
  - intro Hno. pose proof (parseLine_no_timestamp line i Hno) as Hplain.
    rewrite Hplain in Hparse. injection Hparse as <-.
    repeat split; try assumption.
    apply (map_nth_error settle) in Hpr. exact Hpr.
  - intro Hnone.
    pose proof (@parseLine_no_kind line i pr Hnone Hparse) as Hkind. cbn zeta in Hkind.
    apply (map_nth_error settle) in Hpr.
    destruct (regexMatch Patterns.timestampRe (snd (annotations line i))) as [m|].
    + destruct (grpTruthy 1 m).
      * destruct Hkind as (entities & He & ->).
        exists (timedParams (fst (annotations line i)) m entities).
        repeat split; try assumption.
        exists entities. repeat split. exact He.
      * subst pr. exists (fst (annotations line i)). repeat split; assumption.
    + subst pr. exists (fst (annotations line i)). repeat split; assumption.
Qed.

(** ** The stable sort *)

Section SortFacts.

Variable A : Type.
Variable key : A -> number.

Lemma insertByKey_perm (x : A) (l : list A) : Permutation (insertByKey key x l) (x :: l).
Proof.
  induction l as [|y l IH]; cbn; [reflexivity|].
  destruct (Qle_bool (key x) (key y)); [reflexivity|].
  rewrite IH. apply perm_swap.
Qed.

Lemma sortByKey_perm (l : list A) : Permutation (sortByKey key l) l.
Proof.
  induction l as [|x l IH]; cbn; [reflexivity|].
  rewrite insertByKey_perm. now constructor.
Qed.

Lemma insertByKey_sorted (x : A) (l : list A) :
  sortedBy key l -> sortedBy key (insertByKey key x l).
Proof.
  unfold sortedBy. induction 1 as [|y l Hl IH Hy]; cbn.
  - constructor; constructor.
  - destruct (Qle_bool (key x) (key y)) eqn:E.
    + apply Qle_bool_iff in E. constructor; [now constructor|].
      constructor; [exact E|].
      eapply Forall_impl; [|exact Hy]. cbn. intros a Ha. lra.
    + constructor; [exact IH|].
      assert (Hyx : key y <= key x).
      { apply Qlt_le_weak, Qnot_le_lt. intro H. apply Qle_bool_iff in H. congruence. }
      eapply Permutation_Forall; [symmetry; apply insertByKey_perm|].
      constructor; assumption.
Qed.

Lemma sortByKey_sorted (l : list A) : sortedBy key (sortByKey key l).
Proof.
  induction l as [|x l IH]; cbn; [constructor|]. now apply insertByKey_sorted.
Qed.

Lemma insertByKey_withKey (t : number) (x : A) (l : list A) :
  withKey key t (insertByKey key x l) = withKey key t (x :: l).
Proof.
  unfold withKey. induction l as [|y l IH]; cbn; [reflexivity|].
  destruct (Qle_bool (key x) (key y)) eqn:E; [reflexivity|].
  cbn [filter]. rewrite IH. cbn [filter].
  destruct (Qeq_bool (key x) t) eqn:Ex; destruct (Qeq_bool (key y) t) eqn:Ey; try reflexivity.
  apply Qeq_bool_iff in Ex, Ey.
  assert (H : Qle_bool (key x) (key y) = true) by (apply Qle_bool_iff; lra).
  congruence.
Qed.

(** The sort is stable: logs with one key keep their order. *)
Lemma sortByKey_stable (t : number) (l : list A) :
  withKey key t (sortByKey key l) = withKey key t l.
Proof.
  induction l as [|x l IH]; cbn [sortByKey]; [reflexivity|].
  rewrite insertByKey_withKey. unfold withKey in *. cbn [filter]. now rewrite IH.
Qed.

Lemma sortByKey_In (x : A) (l : list A) : In x (sortByKey key l) <-> In x l.
Proof.
  split; apply Permutation_in; [apply sortByKey_perm|symmetry; apply sortByKey_perm].
Qed.

Lemma sortByKey_singleton (x : A) : sortByKey key [x] = [x].
Proof. reflexivity. Qed.

End SortFacts.

(** ** [AuraUptimeLog.fromLogs]: one round of the loop *)

Lemma matchesGained_identified (log : SimLogParams) (a : ActionId) (o : OpenAura) :
  actionId log = Some a -> openIdentified o ->
  matchesGained log o = Ok (matchesId a o).
Proof.
  unfold matchesGained, matchesId, openIdentified. intros -> Ho.
  destruct (actionId (gained o)); [reflexivity|congruence].
Qed.

(** [findIndex] delivers the first open aura that matches: those before it do
    not match. *)
Lemma findIndexFrom_matches (log : SimLogParams) (a : ActionId) (unmatched : list OpenAura) :
  actionId log = Some a -> Forall openIdentified unmatched ->
  forall idx,
    (exists pre o post,
        unmatched = pre ++ o :: post
        /\ Forall (fun x => matchesId a x = false) pre
        /\ matchesId a o = true
        /\ findIndexFrom (matchesGained log) unmatched idx = Ok (Some (idx + List.length pre)%nat))
    \/ (Forall (fun x => matchesId a x = false) unmatched
        /\ findIndexFrom (matchesGained log) unmatched idx = Ok None).
Proof.
  intros Ha. induction 1 as [|o unmatched Ho _ IH]; intro idx.
  - right. split; [constructor|reflexivity].
  - cbn [findIndexFrom]. rewrite (matchesGained_identified _ Ha Ho). cbn [bind].
    destruct (matchesId a o) eqn:Em.
    + left. exists [], o, unmatched. cbn. rewrite Nat.add_0_r. repeat split; auto.
    + destruct (IH (S idx)) as [(pre & o' & post & -> & Hpre & Ho' & Hfind)|(Hnone & Hfind)].
      * left. exists (o :: pre), o', post. cbn [List.length app].
        rewrite Hfind. repeat split; auto. f_equal. f_equal. lia.
      * right. split; [now constructor|exact Hfind].
Qed.

Lemma findIndex_matches (log : SimLogParams) (a : ActionId) (unmatched : list OpenAura) :
  actionId log = Some a -> Forall openIdentified unmatched ->
  (exists pre o post,
      unmatched = pre ++ o :: post
      /\ Forall (fun x => matchesId a x = false) pre
      /\ matchesId a o = true
      /\ findIndex (matchesGained log) unmatched = Ok (Some (List.length pre)))
  \/ (Forall (fun x => matchesId a x = false) unmatched
      /\ findIndex (matchesGained log) unmatched = Ok None).
Proof.
  intros Ha Hid. exact (findIndexFrom_matches _ Ha Hid 0).
Qed.

(** The first match is the only possible answer of [findIndex]. *)
Lemma findIndex_first (log : SimLogParams) (a : ActionId) (pre post : list OpenAura)
    (o : OpenAura) :
  actionId log = Some a -> Forall openIdentified (pre ++ o :: post) ->
  Forall (fun x => matchesId a x = false) pre -> matchesId a o = true ->
  findIndex (matchesGained log) (pre ++ o :: post) = Ok (Some (List.length pre)).
Proof.
  intros Ha Hid Hpre Ho. unfold findIndex.
  enough (H : forall idx, findIndexFrom (matchesGained log) (pre ++ o :: post) idx
                          = Ok (Some (idx + List.length pre)%nat)) by apply (H 0%nat).
  induction pre as [|x pre IH]; intro idx; cbn [app findIndexFrom List.length].
  - inversion Hid; subst. rewrite (matchesGained_identified _ Ha) by assumption.
    cbn. rewrite Ho. now rewrite Nat.add_0_r.
  - inversion Hid; subst. inversion Hpre; subst.
    rewrite (matchesGained_identified _ Ha) by assumption. cbn [bind].
    rewrite H3. rewrite IH by assumption. f_equal. f_equal. lia.
Qed.

Lemma findIndex_none (log : SimLogParams) (a : ActionId) (unmatched : list OpenAura) :
  actionId log = Some a -> Forall openIdentified unmatched ->
  Forall (fun x => matchesId a x = false) unmatched ->
  findIndex (matchesGained log) unmatched = Ok None.
Proof.
  intros Ha Hid Hnone. unfold findIndex. generalize 0%nat.
  induction unmatched as [|x unmatched IH]; intro idx; cbn [findIndexFrom]; [reflexivity|].
  inversion Hid; subst. inversion Hnone; subst.
  rewrite (matchesGained_identified _ Ha) by assumption. cbn [bind].
  rewrite H3. now apply IH.
Qed.

Lemma nth_error_middle {A} (pre post : list A) (o : A) :
  nth_error (pre ++ o :: post) (List.length pre) = Some o.
Proof.
  rewrite nth_error_app2 by lia. now rewrite Nat.sub_diag.
Qed.

Lemma removeAt_middle {A} (pre post : list A) (o : A) :
  removeAt (List.length pre) (pre ++ o :: post) = pre ++ post.
Proof.
  unfold removeAt. induction pre as [|x pre IH]; cbn; [reflexivity|].
  f_equal. exact IH.
Qed.

Lemma pushStacks_middle (log : AuraStacksChangeLog) (pre post : list OpenAura) (o : OpenAura) :
  pushStacks (List.length pre) log (pre ++ o :: post)
  = pre ++ mkOpenAura (gained o) (stacks o ++ [log]) :: post.
Proof.
  induction pre as [|x pre IH]; cbn; [reflexivity|]. now rewrite IH.
Qed.

(** A log of another entity, or without a source, leaves the state as it is. *)
Lemma auraStep_ignored (entity : Entity.t) (st : AuraState) (log : SimLog) :
  ~ fromEntity entity (header log) -> auraStep entity st log = Ok st.
Proof.
  unfold fromEntity, auraStep. intro Hnot.
  destruct (source (header log)) as [src|]; [|reflexivity].
  destruct (Entity.equals src entity) eqn:E; [|reflexivity].
  exfalso. apply Hnot. now exists src.
Qed.

Ltac from_entity H :=
  let src := fresh "src" in
  let Hsrc := fresh "Hsrc" in
  let Heq := fresh "Heq" in
  destruct H as (src & Hsrc & Heq); unfold auraStep; cbn [header];
  rewrite Hsrc, Heq; cbn [negb].

(** A gain opens a new entry at the end of the open entries. *)
Lemma auraStep_gain (entity : Entity.t) (st : AuraState) (log : AuraEventLog) :
  fromEntity entity log -> isGained log = true ->
  auraStep entity st (AuraEvent log)
  = Ok (mkAuraState (unmatchedGainedLogs st ++ [mkOpenAura log []])
                    (uptimeLogs st) (warnings st)).
Proof.
  intros Hent Hg. from_entity Hent. now rewrite Hg.
Qed.

(** A fade or refresh closes the oldest open entry that matches it, and a
    refresh opens a new entry for its own identifier. *)
Lemma auraStep_close (entity : Entity.t) (st : AuraState) (log : AuraEventLog)
    (a : ActionId) (pre post : list OpenAura) (o : OpenAura) :
  fromEntity entity log -> isGained log = false -> actionId log = Some a ->
  unmatchedGainedLogs st = pre ++ o :: post ->
  Forall openIdentified (unmatchedGainedLogs st) ->
  Forall (fun x => matchesId a x = false) pre -> matchesId a o = true ->
  exists u,
    auraStep entity st (AuraEvent log)
    = Ok (mkAuraState
            (pre ++ post ++ (if isRefreshed log then [mkOpenAura log []] else []))
            (uptimeLogs st ++ [u]) (warnings st))
    /\ closedBy (gained o) log u
    /\ stacksChange u = stacks o.
Proof.
  intros Hent Hg Ha Hun Hid Hpre Ho. from_entity Hent. rewrite Hg, Hun.
  rewrite Hun in Hid.
  rewrite (@findIndex_first log a pre post o Ha Hid Hpre Ho). cbn [bind].
  rewrite nth_error_middle. cbn [deref bind]. rewrite removeAt_middle.
  eexists. split.
  - destruct (isRefreshed log); [rewrite <- app_assoc|rewrite app_nil_r]; reflexivity.
  - split; [|reflexivity]. repeat split. cbn. now rewrite Hsrc.
Qed.

(** A fade or refresh that matches no open entry is reported and dropped. *)
Lemma auraStep_close_unmatched (entity : Entity.t) (st : AuraState) (log : AuraEventLog)
    (a : ActionId) :
  fromEntity entity log -> isGained log = false -> actionId log = Some a ->
  Forall openIdentified (unmatchedGainedLogs st) ->
  Forall (fun x => matchesId a x = false) (unmatchedGainedLogs st) ->
  auraStep entity st (AuraEvent log)
  = Ok (mkAuraState (unmatchedGainedLogs st) (uptimeLogs st)
          (warnings st ++ [("Unmatched aura faded log: " ++ actionName a)%string])).
Proof.
  intros Hent Hg Ha Hid Hnone. from_entity Hent. rewrite Hg.
  rewrite (@findIndex_none log a _ Ha Hid Hnone). cbn [bind]. rewrite Ha. reflexivity.
Qed.

(** A change to a positive number of stacks is appended to the oldest open
    entry that matches it. *)
Lemma auraStep_stacks (entity : Entity.t) (st : AuraState) (log : AuraStacksChangeLog)
    (a : ActionId) (pre post : list OpenAura) (o : OpenAura) :
  fromEntity entity log -> (0 < newStacks log)%Z -> actionId log = Some a ->
  unmatchedGainedLogs st = pre ++ o :: post ->
  Forall openIdentified (unmatchedGainedLogs st) ->
  Forall (fun x => matchesId a x = false) pre -> matchesId a o = true ->
  auraStep entity st (AuraStacksChange log)
  = Ok (mkAuraState (pre ++ mkOpenAura (gained o) (stacks o ++ [log]) :: post)
                    (uptimeLogs st) (warnings st)).
Proof.
  intros Hent Hpos Ha Hun Hid Hpre Ho. from_entity Hent.
  assert (E : (newStacks log <=? 0)%Z = false) by (apply Z.leb_gt; lia).
  rewrite E, Hun. rewrite Hun in Hid.
  rewrite (@findIndex_first log a pre post o Ha Hid Hpre Ho). cbn [bind].
  now rewrite pushStacks_middle.
Qed.

Lemma auraStep_stacks_unmatched (entity : Entity.t) (st : AuraState)
    (log : AuraStacksChangeLog) (a : ActionId) :
  fromEntity entity log -> (0 < newStacks log)%Z -> actionId log = Some a ->
  Forall openIdentified (unmatchedGainedLogs st) ->
  Forall (fun x => matchesId a x = false) (unmatchedGainedLogs st) ->
  auraStep entity st (AuraStacksChange log)
  = Ok (mkAuraState (unmatchedGainedLogs st) (uptimeLogs st)
          (warnings st ++ [("Unmatched aura stacks change log: " ++ actionName a)%string])).
Proof.
  intros Hent Hpos Ha Hid Hnone. from_entity Hent.
  assert (E : (newStacks log <=? 0)%Z = false) by (apply Z.leb_gt; lia).
  rewrite E. rewrite (@findIndex_none log a _ Ha Hid Hnone). cbn [bind]. rewrite Ha. reflexivity.
Qed.

Lemma auraStep_stacks_dropped (entity : Entity.t) (st : AuraState)
    (log : AuraStacksChangeLog) :
  (newStacks log <= 0)%Z -> auraStep entity st (AuraStacksChange log) = Ok st.
Proof.
  intro Hle. unfold auraStep. cbn [header].
  destruct (source log) as [src|]; [|reflexivity].
  destruct (Entity.equals src entity); [|reflexivity]. cbn [negb].
  apply Z.leb_le in Hle. now rewrite Hle.
Qed.

(** ** [AuraUptimeLog.fromLogs]: the whole loop *)

Lemma foldM_app {S A} (f : S -> A -> Result S) (l1 l2 : list A) (s : S) :
  foldM f (l1 ++ l2) s = let* s1 := foldM f l1 s in foldM f l2 s1.
Proof.
  revert s. induction l1 as [|a l1 IH]; intro s; cbn; [reflexivity|].
  destruct (f s a); cbn; [apply IH|reflexivity].
Qed.

Lemma foldM_invariant {S A} (f : S -> A -> Result S) (Inv : S -> Prop) (Good : A -> Prop)
    (l : list A) :
  (forall s a, Inv s -> Good a -> exists s', f s a = Ok s' /\ Inv s') ->
  Forall Good l ->
  forall s, Inv s -> exists s', foldM f l s = Ok s' /\ Inv s'.
Proof.
  intros Hstep. induction 1 as [|a l Ha _ IH]; intros s Hs; cbn.
  - now exists s.
  - destruct (Hstep s a Hs Ha) as (s1 & -> & Hs1). cbn. now apply IH.
Qed.

Lemma fromEntity_dec (entity : Entity.t) (p : SimLogParams) :
  fromEntity entity p \/ ~ fromEntity entity p.
Proof.
  unfold fromEntity. destruct (source p) as [src|].
  - destruct (Entity.equals src entity) eqn:E.
    + left. now exists src.
    + right. intros (src' & H & H'). injection H as <-. congruence.
  - right. intros (src' & H & _). discriminate.
Qed.

Lemma openSound_identified (logs : list SimLog) (l : list OpenAura) :
  Forall (openSound logs) l -> Forall openIdentified l.
Proof. apply Forall_impl. now intros o []. Qed.

Lemma auraStep_invariant (logs : list SimLog) (entity : Entity.t) (st : AuraState)
    (log : SimLog) :
  auraInv logs st -> In log logs /\ identified log ->
  exists st', auraStep entity st log = Ok st' /\ auraInv logs st'.
Proof.
  intros (Hopen & Hclosed) (Hin & Hid).
  pose proof (openSound_identified Hopen) as Hident.
  destruct (fromEntity_dec entity (header log)) as [Hent|Hent];
    [|exists st; split; [now apply auraStep_ignored|now split]].
  destruct log as [l|l|l|l|l|l|l|l|l];
    try (exists st; split; [|now split]; cbn [header] in Hent;
         destruct Hent as (src & Hsrc & Heq); unfold auraStep; cbn [header];
         rewrite Hsrc, Heq; reflexivity).
  - (* an aura event *)
    cbn in Hid, Hent. destruct (actionId l) as [a|] eqn:Ha; [|congruence].
    destruct (isGained l) eqn:Hg.
    + eexists. split; [now apply auraStep_gain|]. split; [|assumption].
      apply Forall_app. split; [assumption|]. constructor; [|constructor].
      split; [unfold openIdentified; cbn; congruence|]. split; [assumption|now left].
    + destruct (@findIndex_matches l a _ Ha Hident)
        as [(pre & o & post & Hun & Hpre & Ho & _)|(Hnone & _)].
      * destruct (@auraStep_close entity st l a pre post o Hent Hg Ha Hun Hident Hpre Ho)
          as (u & -> & Hu & _).
        eexists. split; [reflexivity|].
        rewrite Hun in Hopen. apply Forall_app in Hopen. destruct Hopen as (Hp & Hrest).
        inversion Hrest as [|? ? Ho' Hpost]; subst.
        split; cbn.
        -- apply Forall_app. split; [assumption|]. apply Forall_app. split; [assumption|].
           destruct (isRefreshed l) eqn:Hr; constructor; [|constructor].
           split; [unfold openIdentified; cbn; congruence|]. split; [assumption|now right].
        -- apply Forall_app. split; [assumption|]. constructor; [|constructor].
           exists (gained o), l. destruct Ho' as (_ & Hopens). repeat split; try assumption;
             try apply Hopens; apply Hu.
      * eexists. split; [now apply (@auraStep_close_unmatched entity st l a Hent Hg Ha Hident Hnone)|].
        now split.
  - (* a change of stacks *)
    cbn in Hid, Hent. destruct (actionId l) as [a|] eqn:Ha; [|congruence].
    destruct (Z_lt_le_dec 0 (newStacks l)) as [Hpos|Hle];
      [|exists st; split; [now apply auraStep_stacks_dropped|now split]].
    destruct (@findIndex_matches l a _ Ha Hident)
      as [(pre & o & post & Hun & Hpre & Ho & _)|(Hnone & _)].
    + eexists. split; [now apply (@auraStep_stacks entity st l a pre post o Hent Hpos Ha Hun Hident Hpre Ho)|].
      rewrite Hun in Hopen. apply Forall_app in Hopen. destruct Hopen as (Hp & Hrest).
      inversion Hrest as [|? ? Ho' Hpost]; subst.
      split; cbn; [|assumption].
      apply Forall_app. split; [assumption|]. constructor; assumption.
    + eexists. split; [now apply (@auraStep_stacks_unmatched entity st l a Hent Hpos Ha Hident Hnone)|].
      now split.
Qed.

(** On identified logs the loop never throws, and it keeps its invariant. *)
Lemma auraRun_invariant (logs : list SimLog) (entity : Entity.t) :
  Forall identified logs ->
  exists st, auraRun logs entity = Ok st /\ auraInv logs st.
Proof.
  intro Hid. unfold auraRun.
  apply foldM_invariant with (Inv := auraInv logs)
                             (Good := fun log => In log logs /\ identified log).
  - intros s a. apply auraStep_invariant.
  - apply Forall_forall. intros log Hin. split; [assumption|].
    now apply (proj1 (Forall_forall _ _) Hid).
  - split; constructor.
Qed.




(** The loop only ever appends to [uptimeLogs]. *)
Lemma auraStep_appends (entity : Entity.t) (st st' : AuraState) (log : SimLog) :
  auraStep entity st log = Ok st' ->
  exists new, uptimeLogs st' = uptimeLogs st ++ new.
Proof.
  unfold auraStep.
  destruct (source (header log)) as [src|];
    [|intro H; injection H as <-; exists []; now rewrite app_nil_r].
  destruct (Entity.equals src entity); cbn [negb];
    [|intro H; injection H as <-; exists []; now rewrite app_nil_r].
  destruct log as [l|l|l|l|l|l|l|l|l];
    try (intro H; injection H as <-; exists []; now rewrite app_nil_r).
  - destruct (isGained l);
      [intro H; injection H as <-; exists []; cbn; now rewrite app_nil_r|].
    destruct (findIndex (matchesGained l) (unmatchedGainedLogs st)) as [[i|]|];
      cbn [bind]; [| |discriminate].
    + destruct (nth_error (unmatchedGainedLogs st) i) as [found|]; cbn [deref bind];
        [|discriminate].
      intro H. injection H as <-. cbn. eexists. reflexivity.
    + destruct (actionId l); cbn [deref bind]; [|discriminate].
      intro H. injection H as <-. exists []. cbn. now rewrite app_nil_r.
  - destruct (newStacks l <=? 0)%Z;
      [intro H; injection H as <-; exists []; now rewrite app_nil_r|].
    destruct (findIndex (matchesGained l) (unmatchedGainedLogs st)) as [[i|]|];
      cbn [bind]; [| |discriminate].
    + intro H. injection H as <-. exists []. cbn. now rewrite app_nil_r.
    + destruct (actionId l); cbn [deref bind]; [|discriminate].
      intro H. injection H as <-. exists []. cbn. now rewrite app_nil_r.
Qed.

Lemma auraRun_appends (entity : Entity.t) (l : list SimLog) :
  forall st st', foldM (auraStep entity) l st = Ok st' ->
                 exists new, uptimeLogs st' = uptimeLogs st ++ new.
Proof.
  induction l as [|log l IH]; intros st st'; cbn.
  - intro H. injection H as <-. exists []. now rewrite app_nil_r.
  - destruct (auraStep entity st log) as [st1|] eqn:E; cbn [bind]; [|discriminate].
    intro H. destruct (auraStep_appends _ _ _ E) as (new1 & H1).
    destruct (IH _ _ H) as (new2 & H2). exists (new1 ++ new2).
    now rewrite H2, H1, app_assoc.
Qed.

Lemma fromLogs_end (logs : list SimLog) (entity : Entity.t) (encounterDuration : number) :
  Forall identified logs ->
  exists st out,
    auraRun logs entity = Ok st
    /\ AuraUptimeLog_fromLogs logs entity encounterDuration = Ok out
    /\ Permutation out (uptimeLogs st
                        ++ map (closeAtEnd encounterDuration) (unmatchedGainedLogs st))
    /\ forall o, In o (unmatchedGainedLogs st) ->
         exists u, In u out /\ fadedAt u = encounterDuration
                   /\ gainedAt u = timestamp (gained o) /\ stacksChange u = stacks o.
Proof.
  intro Hid. destruct (auraRun_invariant entity Hid) as (st & Hrun & _).
  exists st, (sortByKey gainedAt (auraUnsorted st encounterDuration)).
  split; [assumption|]. split; [unfold AuraUptimeLog_fromLogs; now rewrite Hrun|].
  split; [apply sortByKey_perm|].
  intros o Ho. exists (closeAtEnd encounterDuration o). split; [|repeat split].
  apply sortByKey_In. unfold auraUnsorted. apply in_or_app. right. now apply in_map.
Qed.

Lemma fromLogs_gain_stacks_fade (entity : Entity.t) (g f : AuraEventLog)
    (sc : AuraStacksChangeLog) (a : ActionId) (encounterDuration : number) :
  fromEntity entity g -> fromEntity entity sc -> fromEntity entity f ->
  isGained g = true -> isGained f = false -> isRefreshed f = false ->
  (0 < newStacks sc)%Z ->
  actionId g = Some a -> actionId sc = Some a -> actionId f = Some a ->
  equals a a || equalsIgnoringTag a a = true ->
  exists u,
    AuraUptimeLog_fromLogs [AuraEvent g; AuraStacksChange sc; AuraEvent f] entity
                           encounterDuration = Ok [u]
    /\ gainedAt u = timestamp g /\ fadedAt u = timestamp f /\ stacksChange u = [sc].
Proof.
  intros Hg Hsc Hf Hgain Hfade Hnoref Hpos Hag Hasc Haf Hrefl.
  assert (Hm : forall stk, matchesId a (mkOpenAura g stk) = true).
  { intro stk. unfold matchesId. cbn. now rewrite Hag. }
  assert (Hi : forall stk, Forall openIdentified [mkOpenAura g stk]).
  { intro stk. constructor; [|constructor]. unfold openIdentified. cbn. congruence. }
  unfold AuraUptimeLog_fromLogs, auraRun. cbn [foldM].
  rewrite (@auraStep_gain entity _ g Hg Hgain). cbn [bind unmatchedGainedLogs uptimeLogs warnings app].
  rewrite (@auraStep_stacks entity (mkAuraState [mkOpenAura g []] [] []) sc a [] []
             (mkOpenAura g []) Hsc Hpos Hasc eq_refl
             (Hi []) (Forall_nil _) (Hm [])).
  cbn [bind unmatchedGainedLogs uptimeLogs warnings app gained stacks].
  destruct (@auraStep_close entity (mkAuraState [mkOpenAura g [sc]] [] []) f a [] []
              (mkOpenAura g [sc]) Hf Hfade Haf eq_refl (Hi [sc]) (Forall_nil _) (Hm [sc]))
    as (u & Hstep & Hby & Hstacks).
  rewrite Hstep. rewrite Hnoref. cbn [bind app].
  exists u. unfold auraUnsorted. cbn [unmatchedGainedLogs uptimeLogs map app sortByKey insertByKey].
  split; [reflexivity|]. destruct Hby as (_ & _ & Hgained & _ & _ & Hfaded & _).
  cbn in Hgained, Hfaded, Hstacks. repeat split; assumption.
Qed.

(** Two open instances of one aura: the fade closes the older one, the
    younger one stays open until the end. *)
Lemma fromLogs_oldest_first (entity : Entity.t) (g1 g2 f : AuraEventLog) (a : ActionId)
    (encounterDuration : number) :
  fromEntity entity g1 -> fromEntity entity g2 -> fromEntity entity f ->
  isGained g1 = true -> isGained g2 = true -> isGained f = false -> isRefreshed f = false ->
  actionId g1 = Some a -> actionId g2 = Some a -> actionId f = Some a ->
  equals a a || equalsIgnoringTag a a = true ->
  exists out u1 u2,
    AuraUptimeLog_fromLogs [AuraEvent g1; AuraEvent g2; AuraEvent f] entity
                           encounterDuration = Ok out
    /\ Permutation out [u1; u2]
    /\ gainedAt u1 = timestamp g1 /\ fadedAt u1 = timestamp f
    /\ gainedAt u2 = timestamp g2 /\ fadedAt u2 = encounterDuration.
Proof.
  intros Hg1 Hg2 Hf Hgain1 Hgain2 Hfade Hnoref Ha1 Ha2 Haf Hrefl.
  assert (Hm : matchesId a (mkOpenAura g1 []) = true).
  { unfold matchesId. cbn. now rewrite Ha1. }
  assert (Hi : Forall openIdentified [mkOpenAura g1 []; mkOpenAura g2 []]).
  { repeat constructor; unfold openIdentified; cbn; congruence. }
  unfold AuraUptimeLog_fromLogs, auraRun. cbn [foldM].
  rewrite (@auraStep_gain entity _ g1 Hg1 Hgain1).
  cbn [bind unmatchedGainedLogs uptimeLogs warnings app].
  rewrite (@auraStep_gain entity _ g2 Hg2 Hgain2).
  cbn [bind unmatchedGainedLogs uptimeLogs warnings app].
  destruct (@auraStep_close entity
              (mkAuraState [mkOpenAura g1 []; mkOpenAura g2 []] [] []) f a []
              [mkOpenAura g2 []] (mkOpenAura g1 []) Hf Hfade Haf eq_refl Hi (Forall_nil _) Hm)
    as (u & Hstep & Hby & _).
  rewrite Hstep, Hnoref. cbn [bind app].
  eexists _, u, (closeAtEnd encounterDuration (mkOpenAura g2 [])).
  split; [reflexivity|]. split; [apply sortByKey_perm|].
  destruct Hby as (_ & _ & Hgained & _ & _ & Hfaded & _). cbn in Hgained, Hfaded.
  repeat split; assumption.
Qed.

Lemma fromLogs_open_at_end (entity : Entity.t) (g : AuraEventLog) (encounterDuration : number) :
  fromEntity entity g -> isGained g = true ->
  exists u,
    AuraUptimeLog_fromLogs [AuraEvent g] entity encounterDuration = Ok [u]
    /\ gainedAt u = timestamp g /\ fadedAt u = encounterDuration /\ stacksChange u = [].
Proof.
  intros Hg Hgain. unfold AuraUptimeLog_fromLogs, auraRun. cbn [foldM].
  rewrite (@auraStep_gain entity _ g Hg Hgain). cbn [bind].
  eexists. split; [reflexivity|]. repeat split.
Qed.

(** C3: among the events of the given entity, a gain opens an entry at the
    end of the open entries; a fade, a refresh and a change to a positive
    number of stacks go to the first, that is the oldest, open entry whose
    identifier equals theirs exactly or up to the tag; without such an entry
    they are reported and dropped; a refresh closes its entry and opens one
    for itself; what is open at the end is closed at the encounter
    duration.  A gain, a change of stacks and a fade of one aura give one
    uptime log from the gain to the fade with the change inside, an aura that
    never fades ends at the encounter duration, and of two open instances of
    one aura a fade closes the older one. *)
Theorem C3_aura_reconstruction (entity : Entity.t) :
  (forall st log, ~ fromEntity entity (header log) -> auraStep entity st log = Ok st)
  /\ (forall st (log : AuraEventLog),
        fromEntity entity log -> isGained log = true ->
        auraStep entity st (AuraEvent log)
        = Ok (mkAuraState (unmatchedGainedLogs st ++ [mkOpenAura log []])
                          (uptimeLogs st) (warnings st)))
  /\ (forall st (log : AuraEventLog) a pre post o,
        fromEntity entity log -> isGained log = false -> actionId log = Some a ->
        unmatchedGainedLogs st = pre ++ o :: post ->
        Forall openIdentified (unmatchedGainedLogs st) ->
        Forall (fun x => matchesId a x = false) pre -> matchesId a o = true ->
        exists u,
          auraStep entity st (AuraEvent log)
          = Ok (mkAuraState
                  (pre ++ post ++ (if isRefreshed log then [mkOpenAura log []] else []))
                  (uptimeLogs st ++ [u]) (warnings st))
          /\ gainedAt u = timestamp (gained o) /\ fadedAt u = timestamp log
          /\ stacksChange u = stacks o)
  /\ (forall st (log : AuraStacksChangeLog) a pre post o,
        fromEntity entity log -> (0 < newStacks log)%Z -> actionId log = Some a ->
        unmatchedGainedLogs st = pre ++ o :: post ->
        Forall openIdentified (unmatchedGainedLogs st) ->
        Forall (fun x => matchesId a x = false) pre -> matchesId a o = true ->
        auraStep entity st (AuraStacksChange log)
        = Ok (mkAuraState (pre ++ mkOpenAura (gained o) (stacks o ++ [log]) :: post)
                          (uptimeLogs st) (warnings st)))
  /\ (forall st (log : AuraEventLog) a,
        fromEntity entity log -> isGained log = false -> actionId log = Some a ->
        Forall openIdentified (unmatchedGainedLogs st) ->
        Forall (fun x => matchesId a x = false) (unmatchedGainedLogs st) ->
        auraStep entity st (AuraEvent log)
        = Ok (mkAuraState (unmatchedGainedLogs st) (uptimeLogs st)
                (warnings st ++ [("Unmatched aura faded log: " ++ actionName a)%string])))
  /\ (forall st (log : AuraStacksChangeLog) a,
        fromEntity entity log -> (0 < newStacks log)%Z -> actionId log = Some a ->
        Forall openIdentified (unmatchedGainedLogs st) ->
        Forall (fun x => matchesId a x = false) (unmatchedGainedLogs st) ->
        auraStep entity st (AuraStacksChange log)
        = Ok (mkAuraState (unmatchedGainedLogs st) (uptimeLogs st)
                (warnings st
                 ++ [("Unmatched aura stacks change log: " ++ actionName a)%string])))
  /\ (forall logs encounterDuration,
        Forall identified logs ->
        exists st out,
          auraRun logs entity = Ok st
          /\ AuraUptimeLog_fromLogs logs entity encounterDuration = Ok out
          /\ Permutation out (uptimeLogs st
                              ++ map (closeAtEnd encounterDuration) (unmatchedGainedLogs st))
          /\ forall o, In o (unmatchedGainedLogs st) ->
               exists u, In u out /\ fadedAt u = encounterDuration
                         /\ gainedAt u = timestamp (gained o)
                         /\ stacksChange u = stacks o)
  /\ (forall (g f : AuraEventLog) (sc : AuraStacksChangeLog) a encounterDuration,
        fromEntity entity g -> fromEntity entity sc -> fromEntity entity f ->
        isGained g = true -> isGained f = false -> isRefreshed f = false ->
        (0 < newStacks sc)%Z ->
        actionId g = Some a -> actionId sc = Some a -> actionId f = Some a ->
        equals a a || equalsIgnoringTag a a = true ->
        exists u,
          AuraUptimeLog_fromLogs [AuraEvent g; AuraStacksChange sc; AuraEvent f] entity
                                 encounterDuration = Ok [u]
          /\ gainedAt u = timestamp g /\ fadedAt u = timestamp f /\ stacksChange u = [sc])
  /\ (forall (g : AuraEventLog) encounterDuration,
        fromEntity entity g -> isGained g = true ->
        exists u,
          AuraUptimeLog_fromLogs [AuraEvent g] entity encounterDuration = Ok [u]
          /\ gainedAt u = timestamp g /\ fadedAt u = encounterDuration
          /\ stacksChange u = [])
  /\ (forall (g1 g2 f : AuraEventLog) a encounterDuration,
        fromEntity entity g1 -> fromEntity entity g2 -> fromEntity entity f ->
        isGained g1 = true -> isGained g2 = true ->
        isGained f = false -> isRefreshed f = false ->
        actionId g1 = Some a -> actionId g2 = Some a -> actionId f = Some a ->
        equals a a || equalsIgnoringTag a a = true ->
        exists out u1 u2,
          AuraUptimeLog_fromLogs [AuraEvent g1; AuraEvent g2; AuraEvent f] entity
                                 encounterDuration = Ok out
          /\ Permutation out [u1; u2]
          /\ gainedAt u1 = timestamp g1 /\ fadedAt u1 = timestamp f
          /\ gainedAt u2 = timestamp g2 /\ fadedAt u2 = encounterDuration).
Proof.
  split; [intros; now apply auraStep_ignored|].
  split; [intros; now apply auraStep_gain|].
  split.
  { intros st log a pre post o Hent Hg Ha Hun Hid Hpre Ho.
    destruct (@auraStep_close entity st log a pre post o Hent Hg Ha Hun Hid Hpre Ho)
      as (u & Hstep & Hby & Hst).
    exists u. destruct Hby as (_ & _ & Hgained & _ & _ & Hfaded & _). now repeat split. }
  split; [intros; eapply auraStep_stacks; eassumption|].
  split; [intros; eapply auraStep_close_unmatched; eassumption|].
  split; [intros; eapply auraStep_stacks_unmatched; eassumption|].
  split; [intros; now apply fromLogs_end|].
  split; [intros; eapply fromLogs_gain_stacks_fade; eassumption|].
  split; [intros; now apply fromLogs_open_at_end|].
  intros. eapply fromLogs_oldest_first; eassumption.
Qed.


(** ** [DpsLog.fromLogs] *)

Lemma sorted_app_le {A} (R : A -> A -> Prop) (l1 l2 : list A) :
  StronglySorted R (l1 ++ l2) -> forall a b, In a l1 -> In b l2 -> R a b.
Proof.
  induction l1 as [|x l1 IH]; cbn; intros Hs a b Ha Hb; [destruct Ha|].
  inversion Hs as [|? ? Hrest Hall]; subst. destruct Ha as [<-|Ha].
  - apply (proj1 (Forall_forall _ _) Hall). apply in_or_app. now right.
  - now apply IH.
Qed.

Lemma sorted_app_r {A} (R : A -> A -> Prop) (l1 l2 : list A) :
  StronglySorted R (l1 ++ l2) -> StronglySorted R l2.
Proof.
  induction l1 as [|x l1 IH]; cbn; intro Hs; [assumption|].
  inversion Hs; subst. now apply IH.
Qed.

Lemma filter_none {A} (p : A -> bool) (l : list A) :
  Forall (fun a => p a = false) l -> filter p l = [].
Proof.
  induction 1 as [|a l Ha _ IH]; cbn; [reflexivity|]. now rewrite Ha.
Qed.

Lemma filter_all {A} (p : A -> bool) (l : list A) :
  Forall (fun a => p a = true) l -> filter p l = l.
Proof.
  induction 1 as [|a l Ha _ IH]; cbn; [reflexivity|]. now rewrite Ha, IH.
Qed.

Lemma skipn_app_length {A} (l1 l2 : list A) : skipn (List.length l1) (l1 ++ l2) = l2.
Proof. induction l1 as [|a l1 IH]; cbn; auto. Qed.

(** [findIndex] evicts the logs at the front of the queue that have
    expired, takes their amounts off the running total one after the other,
    and finds the first log that has not expired. *)
Lemma findWindowStart_evicts (t : number) (queue : list DamageDealtLog) :
  forall total idx,
    findWindowStart t queue total idx
    = (match kept t queue with
       | [] => None
       | _ :: _ => Some (idx + List.length (evicted t queue))%nat
       end,
       subAmounts (evicted t queue) total).
Proof.
  induction queue as [|l queue IH]; intros total idx; cbn [findWindowStart kept evicted].
  - reflexivity.
  - unfold expired.
    destruct (PrimFloat.ltb (PrimFloat.sub (toDouble t) DPS_WINDOW) (toDouble (timestamp l)));
      cbn [negb].
    + cbn [List.length]. now rewrite Nat.add_0_r.
    + rewrite IH. cbn [List.length subAmounts fold_left].
      destruct (kept t queue); [reflexivity|]. do 2 f_equal. lia.
Qed.

Lemma evicted_kept (t : number) (queue : list DamageDealtLog) :
  queue = evicted t queue ++ kept t queue.
Proof.
  induction queue as [|l queue IH]; cbn [evicted kept]; [reflexivity|].
  destruct (expired t l); [|reflexivity]. cbn [app]. now rewrite <- IH.
Qed.

(** The queue after the slice. *)
Lemma slice_kept (t : number) (queue : list DamageDealtLog) :
  match match kept t queue with
        | [] => None
        | _ :: _ => Some (0 + List.length (evicted t queue))%nat
        end with
  | None => []
  | Some i => skipn i queue
  end = kept t queue.
Proof.
  destruct (kept t queue) as [|l rest] eqn:E; [reflexivity|].
  cbn [Nat.add]. rewrite (evicted_kept t queue) at 2. rewrite E. apply skipn_app_length.
Qed.

(** The loop of the code keeps the queue and the running sum of the
    contract, round by round. *)
Lemma dpsLoop_window (gs : list (list DamageDealtLog)) :
  Forall (sameTimestamp damageTimestamp) gs ->
  forall cur total,
  exists out,
    dpsLoop gs cur total = Ok (out, nanWarnings out)
    /\ map dps_damageLogs out = gs
    /\ forall i o, nth_error out i = Some o ->
         dps o = PrimFloat.div (snd (fold_left windowStep (firstn (S i) gs) (cur, total)))
                               DPS_WINDOW
         /\ exists first rest,
              dps_damageLogs o = first :: rest
              /\ timestamp o = timestamp first /\ logIndex o = logIndex first.
Proof.
  induction 1 as [|g gs Hg _ IH]; intros cur total.
  - exists []. split; [reflexivity|]. split; [reflexivity|]. intros [|i] o H; discriminate H.
  - destruct g as [|first rest]; [destruct Hg|].
    cbn [dpsLoop nth_error deref bind].
    rewrite findWindowStart_evicts, slice_kept.
    fold (addAmounts (first :: rest) total).
    change (timestamp first) with (headTimestamp damageTimestamp (first :: rest)) at 1 2 3.
    set (t := headTimestamp damageTimestamp (first :: rest)).
    destruct (IH (kept t (cur ++ first :: rest))
                 (subAmounts (evicted t (cur ++ first :: rest))
                             (addAmounts (first :: rest) total)))
      as (out & Hout & Hmap & Hnth).
    rewrite Hout. cbn [bind fst snd].
    match goal with
    | |- exists out', Ok (?o :: out, _) = _ /\ _ => exists (o :: out)
    end.
    split; [reflexivity|].
    split; [cbn [map dps_damageLogs]; now rewrite Hmap|].
    intros [|i] o Ho.
    + injection Ho as <-. cbn [dps dps_damageLogs]. split; [reflexivity|].
      exists first, rest. repeat split.
    + apply (Hnth i o Ho).
Qed.

(** The queue of the contract is the rear of the logs that have arrived,
    and its first log has not expired at the last group. *)
Lemma windowAfter_rear (gs : list (list DamageDealtLog)) :
  forall queue sum,
    exists gone,
      queue ++ List.concat gs = gone ++ fst (fold_left windowStep gs (queue, sum)).
Proof.
  induction gs as [|g gs IH]; intros queue sum; cbn [fold_left List.concat].
  - exists []. now rewrite app_nil_r.
  - destruct (IH (fst (windowStep (queue, sum) g)) (snd (windowStep (queue, sum) g)))
      as (gone & Hgone).
    rewrite <- surjective_pairing in Hgone. cbn [windowStep fst snd] in Hgone |- *.
    exists (evicted (headTimestamp damageTimestamp g) (queue ++ g) ++ gone).
    set (t := headTimestamp damageTimestamp g) in *.
    rewrite <- (app_assoc (evicted t (queue ++ g)) gone), <- Hgone.
    rewrite (app_assoc (evicted t (queue ++ g))), <- evicted_kept.
    now rewrite <- app_assoc.
Qed.

(** *** The order of the doubles *)

Lemma SFcompare_trans (x a b : spec_float) :
  SFltb x a = true -> SFleb a b = true -> SFltb x b = true.
Proof.
  unfold SFltb, SFleb.
  destruct x as [sx|sx| |sx mx ex], a as [sa|sa| |sa ma ea], b as [sb|sb| |sb mb eb];
    cbn [SFcompare];
    repeat match goal with
           | s : bool |- _ => destruct s
           end;
    try discriminate; try reflexivity;
    change (Pcompare mx ma Eq) with (Pos.compare mx ma);
    change (Pcompare ma mb Eq) with (Pos.compare ma mb);
    change (Pcompare mx mb Eq) with (Pos.compare mx mb);
    destruct (Z.compare_spec ex ea), (Z.compare_spec ea eb), (Z.compare_spec ex eb);
    try discriminate; try reflexivity; try lia;
    destruct (Pos.compare_spec mx ma), (Pos.compare_spec ma mb), (Pos.compare_spec mx mb);
    cbn [CompOpp]; try discriminate; try reflexivity; try lia.
Qed.

Lemma ltb_leb_trans (x a b : double) :
  PrimFloat.ltb x a = true -> PrimFloat.leb a b = true -> PrimFloat.ltb x b = true.
Proof. rewrite !ltb_spec, leb_spec. apply SFcompare_trans. Qed.

(** *** Rounding never makes a NaN *)

Lemma shr_1_nonneg (mrs : shr_record) : (0 <= shr_m mrs)%Z -> (0 <= shr_m (shr_1 mrs))%Z.
Proof.
  destruct mrs as [m r s]. cbn [shr_m]. intro H.
  destruct m as [|[p|p|]|p]; cbn; lia.
Qed.

Lemma iter_shr_1_nonneg (n : positive) :
  forall mrs, (0 <= shr_m mrs)%Z -> (0 <= shr_m (SpecFloat.iter_pos shr_1 n mrs))%Z.
Proof.
  induction n as [n IH|n IH|]; intros mrs H; cbn [SpecFloat.iter_pos].
  - apply IH, IH. now apply shr_1_nonneg.
  - now apply IH, IH.
  - now apply shr_1_nonneg.
Qed.

Lemma shr_fexp_nonneg (m e : Z) (l : location) :
  (0 <= m)%Z -> (0 <= shr_m (fst (shr_fexp prec emax m e l)))%Z.
Proof.
  intro H. unfold shr_fexp, shr.
  assert (H0 : (0 <= shr_m (shr_record_of_loc m l))%Z).
  { destruct l as [|[| |]]; exact H. }
  destruct (_ - e)%Z; cbn [fst]; [assumption| |assumption].
  now apply iter_shr_1_nonneg.
Qed.

Lemma round_nearest_even_nonneg (m : Z) (l : location) :
  (0 <= m)%Z -> (0 <= round_nearest_even m l)%Z.
Proof.
  intro H. destruct l as [|[| |]]; cbn [round_nearest_even]; try assumption.
  - destruct (Z.even m); lia.
  - lia.
Qed.

Lemma binary_round_aux_number (s : bool) (m e : Z) (l : location) :
  (0 <= m)%Z -> binary_round_aux prec emax s m e l <> S754_nan.
Proof.
  intro H. unfold binary_round_aux.
  pose proof (shr_fexp_nonneg e l H) as H1.
  destruct (shr_fexp prec emax m e l) as [mrs' e']. cbn [fst] in H1.
  pose proof (@shr_fexp_nonneg (round_nearest_even (shr_m mrs') (loc_of_shr_record mrs')) e'
                               loc_Exact (round_nearest_even_nonneg _ H1)) as H2.
  destruct (shr_fexp prec emax _ e' loc_Exact) as [mrs'' e'']. cbn [fst] in H2.
  destruct (shr_m mrs''); [discriminate| |lia].
  destruct (e'' <=? emax - prec)%Z; discriminate.
Qed.

Lemma binary_normalize_number (m e : Z) (szero : bool) :
  binary_normalize prec emax m e szero <> S754_nan.
Proof.
  unfold binary_normalize, binary_round.
  destruct m as [|p|p]; [discriminate| |];
    destruct (shl_align _ _ _) as [mz ez]; apply binary_round_aux_number; lia.
Qed.

(** A double is NaN when its specification is. *)
Lemma is_nan_spec (x : double) : PrimFloat.is_nan x = true <-> Prim2SF x = S754_nan.
Proof.
  unfold Prim2SF. destruct (PrimFloat.is_nan x); [tauto|].
  split; [discriminate|]. intro H.
  destruct (PrimFloat.is_zero x); [discriminate|].
  destruct (PrimFloat.is_infinity x); [discriminate|].
  destruct (Z.frexp x) as [r exp].
  destruct (shr_fexp _ _ _ _ _) as [shr e'].
  destruct (shr_m shr); discriminate.
Qed.

Lemma is_finite_spec (x : double) :
  PrimFloat.is_finite x = true ->
  match Prim2SF x with
  | S754_zero _ | S754_finite _ _ _ => True
  | _ => False
  end.
Proof.
  unfold PrimFloat.is_finite, Prim2SF. intro H.
  apply negb_true_iff, orb_false_iff in H. destruct H as (-> & ->).
  destruct (PrimFloat.is_zero x); [exact I|].
  destruct (Z.frexp x) as [r exp].
  destruct (shr_fexp _ _ _ _ _) as [shr e'].
  destruct (shr_m shr); exact I.
Qed.

(** Adding or subtracting a finite double makes no NaN; nor does dividing
    by the window. *)
Lemma add_finite_number (x a : double) :
  PrimFloat.is_nan x = false -> PrimFloat.is_finite a = true ->
  PrimFloat.is_nan (PrimFloat.add x a) = false.
Proof.
  intros Hx Ha. apply is_finite_spec in Ha.
  destruct (PrimFloat.is_nan (PrimFloat.add x a)) eqn:E; [|reflexivity].
  apply is_nan_spec in E. rewrite add_spec in E.
  assert (Hx' : Prim2SF x <> S754_nan) by (intro H; apply is_nan_spec in H; congruence).
  exfalso. unfold SF64add, SFadd in E.
  destruct (Prim2SF x) as [sx|sx| |sx mx ex], (Prim2SF a) as [sa|sa| |sa ma ea];
    try contradiction; try discriminate; try (now apply Hx').
  - destruct sx, sa; discriminate.
  - now apply binary_normalize_number in E.
Qed.

Lemma sub_finite_number (x a : double) :
  PrimFloat.is_nan x = false -> PrimFloat.is_finite a = true ->
  PrimFloat.is_nan (PrimFloat.sub x a) = false.
Proof.
  intros Hx Ha. apply is_finite_spec in Ha.
  destruct (PrimFloat.is_nan (PrimFloat.sub x a)) eqn:E; [|reflexivity].
  apply is_nan_spec in E. rewrite sub_spec in E.
  assert (Hx' : Prim2SF x <> S754_nan) by (intro H; apply is_nan_spec in H; congruence).
  exfalso. unfold SF64sub, SFsub in E.
  destruct (Prim2SF x) as [sx|sx| |sx mx ex], (Prim2SF a) as [sa|sa| |sa ma ea];
    try contradiction; try discriminate; try (now apply Hx').
  - destruct sx, sa; discriminate.
  - now apply binary_normalize_number in E.
Qed.

Lemma div_window_number (x : double) :
  PrimFloat.is_nan x = false -> PrimFloat.is_nan (PrimFloat.div x DPS_WINDOW) = false.
Proof.
  intros Hx.
  destruct (PrimFloat.is_nan (PrimFloat.div x DPS_WINDOW)) eqn:E; [|reflexivity].
  apply is_nan_spec in E. rewrite div_spec in E.
  assert (Hx' : Prim2SF x <> S754_nan) by (intro H; apply is_nan_spec in H; congruence).
  exfalso. unfold SF64div, SFdiv in E.
  change (Prim2SF DPS_WINDOW) with (S754_finite false 8444249301319680 (-49)) in E.
  destruct (Prim2SF x) as [sx|sx| |sx mx ex]; try discriminate; try (now apply Hx').
  destruct (SFdiv_core_binary prec emax (Z.pos mx) ex 8444249301319680 (-49))
    as [[mz ez] lz] eqn:Ecore.
  apply binary_round_aux_number in E; [assumption|].
  unfold SFdiv_core_binary in Ecore.
  match type of Ecore with
  | (let '(q, r) := Z.div_eucl ?m ?d in _) = _ =>
      pose proof (Z_div_mod m d eq_refl) as Hdiv;
      assert (Hm : (0 <= m)%Z);
      [|destruct (Z.div_eucl m d) as [q r]; injection Ecore as <- _ _; nia]
  end.
  destruct (_ - _ - _)%Z; [lia| |lia]. apply Z.shiftl_nonneg. lia.
Qed.

Lemma addAmounts_number (l : list DamageDealtLog) :
  Forall finiteAmount l ->
  forall sum, PrimFloat.is_nan sum = false -> PrimFloat.is_nan (addAmounts l sum) = false.
Proof.
  unfold addAmounts. induction 1 as [|d l Hd _ IH]; intros sum Hsum; cbn [fold_left].
  - exact Hsum.
  - apply IH. now apply add_finite_number.
Qed.

Lemma subAmounts_number (l : list DamageDealtLog) :
  Forall finiteAmount l ->
  forall sum, PrimFloat.is_nan sum = false -> PrimFloat.is_nan (subAmounts l sum) = false.
Proof.
  unfold subAmounts. induction 1 as [|d l Hd _ IH]; intros sum Hsum; cbn [fold_left].
  - exact Hsum.
  - apply IH. now apply sub_finite_number.
Qed.

(** With finite amounts the running sum is never NaN. *)
Lemma window_number (gs : list (list DamageDealtLog)) :
  Forall (Forall finiteAmount) gs ->
  forall state,
    Forall finiteAmount (fst state) -> PrimFloat.is_nan (snd state) = false ->
    Forall finiteAmount (fst (fold_left windowStep gs state))
    /\ PrimFloat.is_nan (snd (fold_left windowStep gs state)) = false.
Proof.
  induction 1 as [|g gs Hg _ IH]; intros state Hq Hsum; cbn [fold_left].
  - now split.
  - assert (Hall : Forall finiteAmount (fst state ++ g)) by (apply Forall_app; now split).
    rewrite (evicted_kept (headTimestamp damageTimestamp g) (fst state ++ g)) in Hall.
    apply Forall_app in Hall. destruct Hall as (He & Hk).
    apply IH; cbn [windowStep fst snd]; [exact Hk|].
    apply subAmounts_number; [exact He|]. now apply addAmounts_number.
Qed.

Lemma Forall_concat_inv {A} (P : A -> Prop) (ls : list (list A)) :
  Forall P (List.concat ls) -> Forall (Forall P) ls.
Proof.
  induction ls as [|l ls IH]; cbn [List.concat]; intro H; [constructor|].
  apply Forall_app in H. destruct H as (H1 & H2). constructor; auto.
Qed.

Lemma Forall_firstn' {A} (P : A -> Prop) (n : nat) (l : list A) :
  Forall P l -> Forall P (firstn n l).
Proof.
  intro H. revert n. induction H as [|a l Ha _ IH]; intros [|n]; cbn [firstn]; constructor; auto.
Qed.

Lemma sorted_app_l {A} (R : A -> A -> Prop) (l1 l2 : list A) :
  StronglySorted R (l1 ++ l2) -> StronglySorted R l1.
Proof.
  induction l1 as [|x l1 IH]; cbn [app]; intro Hs; [constructor|].
  inversion Hs as [|? ? Hrest Hall]; subst. constructor; [now apply IH|].
  apply Forall_app in Hall. tauto.
Qed.

(** In a queue in the order of time the logs that have not expired are
    the rear of the queue: all the logs kept are inside the window. *)
Lemma kept_inside (t : number) (queue : list DamageDealtLog) :
  timeOrdered queue -> Forall (fun l => expired t l = false) (kept t queue).
Proof.
  induction queue as [|l queue IH]; intro Hs; cbn [kept]; [constructor|].
  inversion Hs as [|? ? Hrest Hall]; subst.
  destruct (expired t l) eqn:E; [now apply IH|].
  constructor; [exact E|].
  eapply Forall_impl; [|exact Hall]. intros l' Hle. cbn beta in Hle.
  unfold expired in *. apply negb_false_iff in E. apply negb_false_iff.
  exact (ltb_leb_trans E Hle).
Qed.

Lemma fold_left_snoc {A B} (f : A -> B -> A) (l : list B) (b : B) (a : A) :
  fold_left f (l ++ [b]) a = f (fold_left f l a) b.
Proof. now rewrite fold_left_app. Qed.

Lemma firstn_S_nth {A} (l : list A) (i : nat) (a : A) :
  nth_error l i = Some a -> firstn (S i) l = firstn i l ++ [a].
Proof.
  revert i. induction l as [|x l IH]; intros [|i] H; try discriminate H.
  - injection H as ->. reflexivity.
  - cbn [firstn app]. f_equal. now apply IH.
Qed.

Lemma concat_firstn_skipn {A} (ls : list (list A)) (i : nat) :
  List.concat ls = List.concat (firstn i ls) ++ List.concat (skipn i ls).
Proof. now rewrite <- concat_app, firstn_skipn. Qed.

Lemma concat_snoc {A} (ls : list (list A)) (l : list A) :
  List.concat (ls ++ [l]) = List.concat ls ++ l.
Proof. rewrite concat_app. cbn [List.concat]. now rewrite app_nil_r. Qed.

(** For damage logs in the order of time, every log of the queue after a
    group is inside the window of this group. *)
Lemma queue_inside (groups : list (list DamageDealtLog)) :
  timeOrdered (List.concat groups) ->
  forall i g, nth_error groups i = Some g ->
    Forall (fun l => expired (headTimestamp damageTimestamp g) l = false)
           (fst (windowAfter (firstn (S i) groups))).
Proof.
  intros Hs i g Hg. unfold windowAfter.
  rewrite (firstn_S_nth _ _ Hg), fold_left_snoc. cbn [windowStep fst].
  apply kept_inside.
  destruct (windowAfter_rear (firstn i groups) [] 0%float) as (gone & Hgone).
  cbn [app] in Hgone.
  rewrite (concat_firstn_skipn groups (S i)), (firstn_S_nth _ _ Hg), concat_snoc in Hs.
  apply sorted_app_l in Hs. rewrite Hgone, <- app_assoc in Hs.
  now apply sorted_app_r in Hs.
Qed.

(** With finite amounts no dps is NaN, and nothing is written to the
    console. *)
Lemma nanWarnings_none (out : list DpsLog) :
  Forall (fun o : DpsLog => PrimFloat.is_nan (dps o) = false) out -> nanWarnings out = [].
Proof.
  unfold nanWarnings. induction 1 as [|o out Ho _ IH]; cbn [flat_map]; [reflexivity|].
  now rewrite Ho, IH.
Qed.

(** C7, amended: [DpsLog.fromLogs] emits one log per group of simultaneous
    damage logs, in order, and warns once for every log whose dps is NaN,
    which it emits all the same.  The dps of a group is the running sum
    after this group divided by 15, in double precision: the sum gains the
    amounts of the logs of every group as they arrive and loses the amount
    of every log evicted from the front of the queue, so that it need not be
    the sum of the amounts in the window: these operations round.  The queue
    is the rear of the logs that have arrived, and for logs in the order of
    time all its logs are inside the window, later than the timestamp of
    the group less 15.  With finite amounts no dps is NaN.  One log of amount
    150 at time 0 gives exactly 10; no log gives no dps at all. *)
Theorem C7_dps_window :
  (forall logs : list DamageDealtLog,
     let groups := groupDuplicateTimestamps damageTimestamp logs in
     exists out,
       DpsLog_run logs = Ok (out, nanWarnings out)
       /\ DpsLog_fromLogs logs = Ok out
       /\ map dps_damageLogs out = groups
       /\ (forall i o, nth_error out i = Some o -> dpsOf groups i o)
       /\ (forall i, exists gone,
             List.concat (firstn i groups) = gone ++ fst (windowAfter (firstn i groups)))
       /\ (timeOrdered logs ->
           forall i g, nth_error groups i = Some g ->
             Forall (fun l => expired (headTimestamp damageTimestamp g) l = false)
                    (fst (windowAfter (firstn (S i) groups))))
       /\ (Forall finiteAmount logs ->
           Forall (fun o : DpsLog => PrimFloat.is_nan (dps o) = false) out
           /\ nanWarnings out = []))
  /\ (forall d : DamageDealtLog,
        timestamp d = 0 -> amount d = 150 ->
        exists o, DpsLog_fromLogs [d] = Ok [o] /\ dps o = 10%float)
  /\ DpsLog_run [] = Ok ([], []).
Proof.
  split; [|split].
  - intros logs groups.
    destruct (groupDuplicateTimestamps_spec damageTimestamp logs) as (Hc & Hs & _).
    subst groups.
    destruct (dpsLoop_window Hs [] 0%float) as (out & Hout & Hmap & Hnth).
    exists out. split; [exact Hout|].
    split; [unfold DpsLog_fromLogs, DpsLog_run; fold damageTimestamp; now rewrite Hout|].
    split; [exact Hmap|]. split; [|split; [|split]].
    + intros i o Ho. exact (Hnth i o Ho).
    + intro i. apply (windowAfter_rear (firstn i _) [] 0%float).
    + intro Hsorted. apply queue_inside. now rewrite Hc.
    + intro Hfinite.
      assert (Hnumbers : Forall (fun o : DpsLog => PrimFloat.is_nan (dps o) = false) out).
      { apply Forall_forall. intros o Hin. destruct (In_nth_error _ _ Hin) as (i & Ho).
        destruct (Hnth i o Ho) as (-> & _). apply div_window_number.
        apply window_number; [|constructor|reflexivity].
        apply Forall_firstn', Forall_concat_inv. now rewrite Hc. }
      split; [exact Hnumbers|now apply nanWarnings_none].
  - intros d Ht Ha. unfold DpsLog_fromLogs, DpsLog_run, groupDuplicateTimestamps.
    cbn [fold_left groupStep groupFinish app dpsLoop nth_error deref bind findWindowStart].
    rewrite Ht, Ha. eexists. split; reflexivity.
  - reflexivity.
Qed.

(** ** [CastLog.fromLogs]: every cast log comes from the constructor *)

Lemma castLoop_constructed (rest : list CastBeganLog) :
  forall cbIdx completed damage ddIdx,
    Forall constructed (castLoop rest cbIdx completed damage ddIdx).
Proof.
  induction rest as [|cbLog rest IH]; intros cbIdx completed damage ddIdx; cbn [castLoop].
  - constructor.
  - destruct (match damage with
              | Some d => whileDamage _ (skipn ddIdx d) ddIdx
              | None => ([], ddIdx)
              end) as [ddLogs ddIdx'].
    constructor; [reflexivity|apply IH].
Qed.

(** Every begin log of a bucket yields one cast log, and the cast log at
    position [k] pairs the begin log at [k] with the completion log at the
    same position, if there is one. *)
Lemma castLoop_pairing (rest : list CastBeganLog) :
  forall cbIdx completed damage ddIdx,
    List.length (castLoop rest cbIdx completed damage ddIdx) = List.length rest
    /\ forall k c,
         nth_error (castLoop rest cbIdx completed damage ddIdx) k = Some c ->
         nth_error rest k = Some (castBeganLog c)
         /\ castCompletedLog c
            = match completed with
              | Some cs => nth_error cs (cbIdx + k)
              | None => None
              end.
Proof.
  induction rest as [|cbLog rest IH]; intros cbIdx completed damage ddIdx; cbn [castLoop].
  - split; [reflexivity|]. intros [|k] c H; discriminate H.
  - destruct (match damage with
              | Some d => whileDamage _ (skipn ddIdx d) ddIdx
              | None => ([], ddIdx)
              end) as [ddLogs ddIdx'].
    destruct (IH (S cbIdx) completed damage ddIdx') as (Hlen & Hnth).
    split; [cbn [List.length]; now rewrite Hlen|].
    intros [|k] c H; cbn [nth_error] in H.
    + injection H as <-. cbn [castBeganLog castCompletedLog nth_error].
      split; [reflexivity|]. rewrite Nat.add_0_r.
      destruct completed as [cs|]; [|reflexivity].
      destruct (Nat.ltb cbIdx (List.length cs)) eqn:E; [reflexivity|].
      apply Nat.ltb_ge in E. symmetry. now apply nth_error_None.
    + destruct (Hnth k c H) as (Hb & Hc). split; [exact Hb|].
      rewrite Hc. now rewrite Nat.add_succ_comm.
Qed.

(** A begin log beyond the completion logs of its bucket gets no completion
    log and no travel time. *)
Lemma castLoop_trailing (rest : list CastBeganLog) :
  forall cbIdx completed damage ddIdx,
    (forall cs, completed = Some cs -> (List.length cs <= cbIdx)%nat) ->
    Forall (fun c => castCompletedLog c = None /\ travelTime c = 0)
           (castLoop rest cbIdx completed damage ddIdx).
Proof.
  induction rest as [|cbLog rest IH]; intros cbIdx completed damage ddIdx Hshort;
    cbn [castLoop].
  - constructor.
  - assert (Hcc : match completed with
                  | Some cs => if Nat.ltb cbIdx (List.length cs) then nth_error cs cbIdx else None
                  | None => None
                  end = None).
    { destruct completed as [cs|]; [|reflexivity].
      specialize (Hshort cs eq_refl). apply Nat.ltb_ge in Hshort. now rewrite Hshort. }
    rewrite Hcc.
    destruct (match damage with
              | Some d => whileDamage _ (skipn ddIdx d) ddIdx
              | None => ([], ddIdx)
              end) as [ddLogs ddIdx'].
    constructor; [split; reflexivity|].
    apply IH. intros cs Hcs. specialize (Hshort cs Hcs). lia.
Qed.

Lemma fromLogs_constructed (logs : list SimLog) (out : list CastLog) :
  CastLog_fromLogs logs = Ok out -> Forall constructed out.
Proof.
  unfold CastLog_fromLogs, castLogsUnsorted.
  destruct (bucket (filterType isCastBegan logs) _) as [began|]; cbn [bind]; [|discriminate].
  destruct (bucket (filterType isCastCompleted logs) _) as [completed|]; cbn [bind];
    [|discriminate].
  destruct (bucket (filterType isDamageDealt logs) _) as [damage|]; cbn [bind]; [|discriminate].
  intro H. injection H as <-.
  eapply Permutation_Forall; [symmetry; apply sortByKey_perm|].
  apply Forall_flat_map. apply Forall_forall. intros [bucketKey abilityCastsBegan] _.
  apply castLoop_constructed.
Qed.

Lemma fromLogs_lone_began (cb : CastBeganLog) (a : ActionId) :
  actionId cb = Some a ->
  CastLog_fromLogs [CastBegan cb] = Ok [newCastLog cb None []].
Proof.
  intro Ha. unfold CastLog_fromLogs, castLogsUnsorted.
  cbn [filterType isCastBegan isCastCompleted isDamageDealt bucket foldM].
  unfold bucketKeyOf. rewrite Ha. reflexivity.
Qed.

(** C6: every cast log of [CastLog.fromLogs] comes from the constructor, and
    the travel time the constructor sets is the distance from the completion
    to the damage when there is a completion, exactly one attributed damage
    log, that log is not a tick and it is strictly later than the completion;
    it is 0 in every other case.  In particular a begin log without a
    completion log yields a cast log without completion and with travel time
    0. *)
Theorem C6_travelTime (cb : CastBeganLog) (cc : option CastCompletedLog)
    (dds : list DamageDealtLog) :
  let c := newCastLog cb cc dds in
  castCompletedLog c = cc
  /\ (~ travelTime c == 0 ->
      exists ccl dd, cc = Some ccl /\ dds = [dd] /\ tick dd = false
                     /\ timestamp ccl < timestamp dd)
  /\ (forall ccl dd, cc = Some ccl -> dds = [dd] -> tick dd = false ->
      timestamp ccl < timestamp dd ->
      travelTime c = timestamp dd - timestamp ccl /\ 0 < travelTime c)
  /\ (cc = None -> travelTime c = 0)
  /\ (List.length dds <> 1%nat -> travelTime c = 0)
  /\ (forall ccl dd, cc = Some ccl -> dds = [dd] ->
      (tick dd = true \/ timestamp dd <= timestamp ccl) -> travelTime c = 0)
  /\ (forall logs out, CastLog_fromLogs logs = Ok out -> Forall constructed out)
  /\ (forall a, actionId cb = Some a ->
      exists c0, CastLog_fromLogs [CastBegan cb] = Ok [c0]
                 /\ castCompletedLog c0 = None /\ travelTime c0 = 0)
  /\ (forall rest cbIdx completed damage ddIdx,
        (forall cs, completed = Some cs -> (List.length cs <= cbIdx)%nat) ->
        Forall (fun c0 => castCompletedLog c0 = None /\ travelTime c0 = 0)
               (castLoop rest cbIdx completed damage ddIdx)).
Proof.
  cbn zeta. split; [reflexivity|]. split; [|split; [|split; [|split; [|split]]]].
  - intro Hnz. unfold newCastLog in Hnz; cbn in Hnz.
    destruct cc as [ccl|]; [|exfalso; apply Hnz; reflexivity].
    destruct dds as [|dd [|dd' rest]]; try (exfalso; apply Hnz; reflexivity).
    destruct (Qlt_bool (timestamp ccl) (timestamp dd)) eqn:Hlt; cbn in Hnz;
      [|exfalso; apply Hnz; reflexivity].
    destruct (tick dd) eqn:Htick; cbn in Hnz; [exfalso; apply Hnz; reflexivity|].
    exists ccl, dd. repeat split; auto. now apply Qlt_bool_iff.
  - intros ccl dd -> -> Htick Hlt. cbn. pose proof Hlt as Hlt'.
    apply Qlt_bool_iff in Hlt. rewrite Hlt, Htick. cbn. split; [reflexivity|lra].
  - intros ->. reflexivity.
  - intro Hlen. unfold newCastLog; cbn.
    destruct cc; [|reflexivity].
    destruct dds as [|dd [|dd' rest]]; try reflexivity. cbn in Hlen. congruence.
  - intros ccl dd -> -> [Htick|Hle]; cbn.
    + rewrite Htick. now rewrite andb_false_r.
    + apply Qlt_bool_false_iff in Hle. now rewrite Hle.
  - split; [exact fromLogs_constructed|]. split.
    + intros a Ha. exists (newCastLog cb None []).
      split; [now apply (fromLogs_lone_began cb Ha)|]. split; reflexivity.
    + intros. now apply castLoop_trailing.
Qed.

(** * Further properties *)

Section FurtherProperties.

Context {UTILS : UtilsApi}.

(** ** [SimLog.groupDuplicateTimestamps] *)

Section GroupingMore.

Variable LogType : Type.
Variable ts : LogType -> number.

Lemma sameTimestamp_all (g : list LogType) :
  sameTimestamp ts g -> Forall (fun x => ts x == headTimestamp ts g) g.
Proof.
  destruct g as [|first rest]; cbn; [intros []|]. auto.
Qed.

Lemma sameTimestamp_nonempty (g : list LogType) : sameTimestamp ts g -> g <> [].
Proof. destruct g; cbn; [intros []|discriminate]. Qed.

Lemma withKey_app (t : number) (l1 l2 : list LogType) :
  withKey ts t (l1 ++ l2) = withKey ts t l1 ++ withKey ts t l2.
Proof. apply filter_app. Qed.

Lemma withKey_own (g : list LogType) :
  sameTimestamp ts g -> withKey ts (headTimestamp ts g) g = g.
Proof.
  intro Hg. apply sameTimestamp_all in Hg. unfold withKey.
  apply filter_all. eapply Forall_impl; [|exact Hg].
  intros x Hx. now apply Qeq_bool_iff.
Qed.

Lemma withKey_other (t : number) (gs : list (list LogType)) :
  Forall (sameTimestamp ts) gs ->
  Forall (fun g => ~ headTimestamp ts g == t) gs ->
  withKey ts t (List.concat gs) = [].
Proof.
  induction 1 as [|g gs Hg _ IH]; intro Hne; [reflexivity|].
  cbn [List.concat]. rewrite withKey_app.
  rewrite IH by (now apply Forall_inv_tail in Hne). rewrite app_nil_r.
  apply Forall_inv in Hne. apply sameTimestamp_all in Hg.
  unfold withKey. apply filter_none. eapply Forall_impl; [|exact Hg].
  intros x Hx. cbn beta in Hx. destruct (Qeq_bool (ts x) t) eqn:E; [|reflexivity].
  apply Qeq_bool_iff in E. exfalso. apply Hne. rewrite <- Hx. exact E.
Qed.

Lemma heads_increasing (gs : list (list LogType)) :
  Forall (sameTimestamp ts) gs -> distinctNeighbours ts gs ->
  sortedBy ts (List.concat gs) ->
  StronglySorted (fun g1 g2 => headTimestamp ts g1 < headTimestamp ts g2) gs.
Proof.
  induction gs as [|g gs IH]; intros Hsame Hdist Hsorted; [constructor|].
  pose proof (Forall_inv Hsame) as Hg. pose proof (Forall_inv_tail Hsame) as Hsame'.
  assert (Hdist' : distinctNeighbours ts gs).
  { inversion Hdist; subst; [constructor|assumption]. }
  assert (Hsorted' : sortedBy ts (List.concat gs)).
  { cbn [List.concat] in Hsorted. now apply sorted_app_r in Hsorted. }
  specialize (IH Hsame' Hdist' Hsorted').
  constructor; [exact IH|].
  destruct gs as [|g2 gs']; [constructor|].
  assert (Hlt : headTimestamp ts g < headTimestamp ts g2).
  { inversion Hdist as [| |? ? ? Hne _]; subst.
    pose proof (Forall_inv Hsame') as Hg2.
    destruct g as [|f r]; [destruct Hg|]. destruct g2 as [|f2 r2]; [destruct Hg2|].
    cbn [headTimestamp] in *.
    assert (Hle : ts f <= ts f2).
    { cbn [List.concat] in Hsorted.
      apply (sorted_app_le _ _ Hsorted); [now left|]. apply in_or_app. left. now left. }
    destruct (Qlt_le_dec (ts f) (ts f2)) as [H|H]; [assumption|].
    exfalso. apply Hne. lra. }
  constructor; [exact Hlt|].
  inversion IH as [|? ? _ Hall]; subst.
  eapply Forall_impl; [|exact Hall]. intros g' Hg'. cbn beta in Hg'. lra.
Qed.

Lemma sorted_heads_app (pre post : list (list LogType)) (g : list LogType) :
  StronglySorted (fun g1 g2 => headTimestamp ts g1 < headTimestamp ts g2) (pre ++ g :: post) ->
  Forall (fun g' => ~ headTimestamp ts g' == headTimestamp ts g) pre
  /\ Forall (fun g' => ~ headTimestamp ts g' == headTimestamp ts g) post.
Proof.
  intro Hs. split.
  - apply Forall_forall. intros g' Hin.
    pose proof (sorted_app_le _ _ Hs g' g Hin (or_introl eq_refl)) as Hlt. cbn beta in Hlt. lra.
  - apply sorted_app_r in Hs. inversion Hs as [|? ? _ Hall]; subst.
    eapply Forall_impl; [|exact Hall]. intros g' Hlt. cbn beta in Hlt. lra.
Qed.

(** X1: [groupDuplicateTimestamps] cuts the logs into groups without losing,
    adding or reordering one: the groups, put end to end, are the input.
    Every group is non-empty and all its logs carry the timestamp of its
    first; two neighbouring groups differ in timestamp; there are at most as
    many groups as logs, and none exactly when there is no log. *)
Theorem X1_groups_partition (l : list LogType) :
  let groups := groupDuplicateTimestamps ts l in
  List.concat groups = l
  /\ Forall (sameTimestamp ts) groups
  /\ distinctNeighbours ts groups
  /\ (List.length groups <= List.length l)%nat
  /\ (l = [] <-> groups = []).
Proof.
  cbn zeta.
  destruct (groupDuplicateTimestamps_spec ts l) as (Hc & Hs & Hd).
  split; [assumption|]. split; [assumption|]. split; [assumption|].
  split.
  - rewrite <- Hc at 2. clear Hc Hd.
    induction Hs as [|g gs Hg _ IH]; cbn [List.concat List.length]; [lia|].
    rewrite length_app. destruct g; [destruct Hg|]. cbn [List.length]. lia.
  - split.
    + intros ->. reflexivity.
    + intro H. rewrite H in Hc. now symmetry.
Qed.

(** X2: when the logs are in the order of time, the timestamps of the groups
    of [groupDuplicateTimestamps] increase strictly, and every group holds
    exactly the logs of the input that carry its timestamp, in their
    order. *)
Theorem X2_groups_of_sorted (l : list LogType) :
  sortedBy ts l ->
  let groups := groupDuplicateTimestamps ts l in
  StronglySorted (fun g1 g2 => headTimestamp ts g1 < headTimestamp ts g2) groups
  /\ Forall (fun g => g = withKey ts (headTimestamp ts g) l) groups.
Proof.
  intro Hsorted. cbn zeta.
  destruct (groupDuplicateTimestamps_spec ts l) as (Hc & Hs & Hd).
  assert (Hinc : StronglySorted (fun g1 g2 => headTimestamp ts g1 < headTimestamp ts g2)
                                (groupDuplicateTimestamps ts l)).
  { apply heads_increasing; try assumption. now rewrite Hc. }
  split; [assumption|].
  apply Forall_forall. intros g Hin.
  destruct (in_split _ _ Hin) as (pre & post & Hsplit).
  rewrite <- Hc at 1. rewrite Hsplit in *.
  destruct (sorted_heads_app _ _ _ Hinc) as (Hpre & Hpost).
  apply Forall_app in Hs. destruct Hs as (Hspre & Hsrest).
  rewrite concat_app. cbn [List.concat]. rewrite !withKey_app.
  rewrite (withKey_other Hspre Hpre).
  rewrite (withKey_other (Forall_inv_tail Hsrest) Hpost).
  rewrite app_nil_r. cbn [app]. symmetry. apply withKey_own. now apply Forall_inv in Hsrest.
Qed.

End GroupingMore.

(** ** [DpsLog.fromLogs] and [ThreatLogGroup.fromLogs] *)

Lemma dpsLoop_total (gs : list (list DamageDealtLog)) :
  Forall (sameTimestamp damageTimestamp) gs ->
  forall cur total,
  exists out console,
    dpsLoop gs cur total = Ok (out, console)
    /\ map dps_damageLogs out = gs
    /\ Forall (fun o : DpsLog =>
                 exists first rest,
                   dps_damageLogs o = first :: rest
                   /\ headsGroup o first /\ target o = None /\ threat o = 0) out.
Proof.
  induction 1 as [|g gs Hg _ IH]; intros cur total.
  - exists [], []. repeat split; constructor.
  - destruct g as [|first rest]; [destruct Hg|].
    cbn [dpsLoop nth_error deref bind].
    destruct (findWindowStart _ _ _ _) as [r total2].
    match goal with
    | |- context [dpsLoop gs ?c ?t] =>
        destruct (IH c t) as (out & console & Hout & Hmap & Hall)
    end.
    rewrite Hout. cbn [bind fst snd]. eexists _, _. split; [reflexivity|].
    split; [cbn [map dps_damageLogs]; now rewrite Hmap|].
    constructor; [|assumption].
    exists first, rest. repeat split.
Qed.

(** X3: [DpsLog.fromLogs] never throws and returns one log per group of
    simultaneous damage logs, in their order: the damage logs of the results,
    put end to end, are the input.  Every result takes the index, timestamp,
    source and school of the first log of its group, has an empty text, no
    action, no target and threat 0; no damage log gives no result. *)
Theorem X3_dps_groups (logs : list DamageDealtLog) :
  exists out,
    DpsLog_fromLogs logs = Ok out
    /\ map dps_damageLogs out = groupDuplicateTimestamps damageTimestamp logs
    /\ List.concat (map dps_damageLogs out) = logs
    /\ Forall (fun o : DpsLog =>
                 exists first rest,
                   dps_damageLogs o = first :: rest
                   /\ headsGroup o first /\ target o = None /\ threat o = 0) out
    /\ (logs = [] -> out = []).
Proof.
  destruct (groupDuplicateTimestamps_spec damageTimestamp logs) as (Hc & Hs & _).
  destruct (dpsLoop_total Hs [] 0%float) as (out & console & Hout & Hmap & Hall).
  exists out.
  split; [unfold DpsLog_fromLogs, DpsLog_run; fold damageTimestamp; now rewrite Hout|].
  split; [exact Hmap|].
  split; [now rewrite Hmap|]. split; [exact Hall|].
  intros ->. cbn in Hmap. now destruct out.
Qed.

(** ** ThreatLogGroup *)

Lemma threatLoop_chain (gs : list (list SimLog)) :
  Forall (sameTimestamp logTimestamp) gs ->
  forall cur,
  exists out,
    threatLoop gs cur = Ok out
    /\ map tg_logs out = gs
    /\ chained cur out
    /\ Forall (fun o : ThreatLogGroup =>
                 threatAfter o = threatBefore o + threat o
                 /\ threat o = sum (map threatOf (tg_logs o))
                 /\ target o = match tg_logs o with
                               | first :: _ => target (header first)
                               | [] => None
                               end
                 /\ exists first rest, tg_logs o = first :: rest /\ headsGroup o (header first))
              out.
Proof.
  induction 1 as [|g gs Hg _ IH]; intros cur.
  - exists []. repeat split; constructor.
  - destruct g as [|first rest]; [destruct Hg|].
    cbn [threatLoop nth_error deref bind].
    match goal with
    | |- context [threatLoop gs ?c] => destruct (IH c) as (out & Hout & Hmap & Hch & Hall)
    end.
    rewrite Hout. cbn [bind]. eexists. split; [reflexivity|].
    split; [cbn [map tg_logs]; now rewrite Hmap|].
    split; [cbn [chained threatBefore threatAfter]; split; [reflexivity|exact Hch]|].
    constructor; [|assumption].
    cbn [threatAfter threatBefore tg_base threat tg_logs target].
    split; [reflexivity|]. split; [reflexivity|]. split; [reflexivity|].
    exists first, rest. repeat split.
Qed.

(** X4: [ThreatLogGroup.fromLogs] never throws; it drops the logs whose
    threat is 0 and returns one group log per group of simultaneous logs among
    the others, in their order.  The running threat is threaded through the
    results: the first starts at 0, every one starts where the one before it
    ended and ends at its start plus the [sum] of the threats of its logs;
    its header is that of its first log, without text and action. *)
Theorem X4_threat_chain (logs : list SimLog) :
  let kept := filter (fun log => truthy (threatOf log)) logs in
  exists out,
    ThreatLogGroup_fromLogs logs = Ok out
    /\ map tg_logs out = groupDuplicateTimestamps logTimestamp kept
    /\ List.concat (map tg_logs out) = kept
    /\ Forall (fun log => ~ threatOf log == 0) (List.concat (map tg_logs out))
    /\ chained 0 out
    /\ Forall (fun o : ThreatLogGroup =>
                 threatAfter o = threatBefore o + threat o
                 /\ threat o = sum (map threatOf (tg_logs o))
                 /\ target o = match tg_logs o with
                               | first :: _ => target (header first)
                               | [] => None
                               end
                 /\ exists first rest, tg_logs o = first :: rest /\ headsGroup o (header first))
              out.
Proof.
  cbn zeta.
  destruct (groupDuplicateTimestamps_spec logTimestamp
              (filter (fun log => truthy (threatOf log)) logs)) as (Hc & Hs & _).
  destruct (threatLoop_chain Hs 0) as (out & Hout & Hmap & Hch & Hall).
  exists out. split; [exact Hout|]. split; [exact Hmap|].
  split; [now rewrite Hmap|]. split; [|split; assumption].
  rewrite Hmap, Hc. apply Forall_forall. intros log Hin.
  apply filter_In in Hin. destruct Hin as (_ & Ht). now apply truthy_iff.
Qed.

(** ** [SimLog.parseAll]: text, kinds and annotations *)

Lemma split_newline_nonempty (s : string) : split_newline s <> [].
Proof.
  destruct s as [|c s]; cbn; [discriminate|].
  destruct (Ascii.eqb c "010"); [discriminate|].
  destruct (split_newline s); discriminate.
Qed.

Lemma joinLines_cons (line : string) (rest : list string) :
  rest <> [] -> joinLines (line :: rest) = (line ++ String "010" (joinLines rest))%string.
Proof. destruct rest; [congruence|reflexivity]. Qed.

Lemma join_split (s : string) : joinLines (split_newline s) = s.
Proof.
  induction s as [|c s IH]; [reflexivity|].
  cbn [split_newline]. destruct (Ascii.eqb c "010") eqn:E.
  - apply Ascii.eqb_eq in E. subst c.
    rewrite joinLines_cons by apply split_newline_nonempty. cbn. now rewrite IH.
  - pose proof (split_newline_nonempty s) as Hne.
    destruct (split_newline s) as [|l ls]; [congruence|].
    destruct ls as [|l2 ls].
    + cbn in *. now rewrite IH.
    + rewrite joinLines_cons by discriminate. rewrite joinLines_cons in IH by discriminate.
      rewrite <- IH. reflexivity.
Qed.

Lemma split_newline_length (s : string) :
  List.length (split_newline s) = S (newlines s).
Proof.
  induction s as [|c s IH]; [reflexivity|].
  cbn [split_newline newlines]. destruct (Ascii.eqb c "010").
  - cbn. now rewrite IH.
  - pose proof (split_newline_nonempty s) as Hne.
    destruct (split_newline s) as [|l ls]; [congruence|]. cbn in *. lia.
Qed.

Lemma split_newline_clean (s : string) :
  Forall (fun line => newlines line = 0%nat) (split_newline s).
Proof.
  induction s as [|c s IH]; [repeat constructor|].
  cbn [split_newline]. destruct (Ascii.eqb c "010") eqn:E.
  - constructor; [reflexivity|exact IH].
  - pose proof (split_newline_nonempty s) as Hne.
    destruct (split_newline s) as [|l ls]; [congruence|].
    inversion IH; subst. constructor; [|assumption]. cbn. now rewrite E.
Qed.

Lemma map_eq_nth {A B} (f : A -> B) (l : list A) (l' : list B) :
  List.length l = List.length l' ->
  (forall i b, nth_error l' i = Some b -> exists a, nth_error l i = Some a /\ f a = b) ->
  map f l = l'.
Proof.
  revert l'. induction l as [|a l IH]; intros [|b l'] Hlen Hnth; try discriminate Hlen.
  - reflexivity.
  - cbn. destruct (Hnth 0%nat b eq_refl) as (a' & Ha' & Hf). cbn in Ha'. injection Ha' as <-.
    rewrite Hf. f_equal. apply IH; [cbn in Hlen; lia|].
    intros i b' Hb'. apply (Hnth (S i) b' Hb').
Qed.

(** X6: the events of [SimLog.parseAll] keep the text: their raw lines are
    the lines of the text, joining them with newlines gives the text back,
    there is one event more than the text has newlines, and no raw line holds
    a newline. *)
Theorem X6_parseAll_text (order : list nat) (result : RaidSimResult) :
  let lines := split_newline (logs result) in
  entityMatchesLabelled ->
  (forall i, (i < List.length lines)%nat -> In i order) ->
  exists events,
    parseAll order result = Fulfilled events
    /\ map (fun e => raw (header e)) events = lines
    /\ joinLines (map (fun e => raw (header e)) events) = logs result
    /\ List.length events = S (newlines (logs result))
    /\ Forall (fun e => newlines (raw (header e)) = 0%nat) events.
Proof.
  cbn zeta. intros Hlab Hcover.
  destruct (parseAll_join order result Hlab Hcover) as (promises & Hps & Hlen & Hall & Hnth).
  exists (map settle promises). split; [exact Hall|].
  assert (Hraw : map (fun e => raw (header e)) (map settle promises)
                 = split_newline (logs result)).
  { apply map_eq_nth; [now rewrite length_map|].
    intros i line Hline. destruct (Hnth i line Hline) as (pr & Hpr & Hparse).
    exists (settle pr). split; [now apply map_nth_error|].
    now destruct (parseLine_header _ _ Hparse). }
  split; [exact Hraw|]. split; [rewrite Hraw; apply join_split|].
  split; [rewrite length_map, Hlen; apply split_newline_length|].
  pose proof (split_newline_clean (logs result)) as Hclean. rewrite <- Hraw in Hclean.
  apply Forall_map in Hclean. exact Hclean.
Qed.

(** ** The kind of an event *)

Ltac parser_kind :=
  let m := fresh "m" in
  intros params pr;
  destruct (regexMatch _ (raw params)) as [m|]; [|discriminate];
  repeat match goal with
         | |- context [stringToResourceType ?x] => destruct (stringToResourceType x)
         | |- context [if grpTruthy ?k m then Some _ else None] =>
             destruct (grpTruthy k m); [|discriminate]
         end;
  let H := fresh "H" in
  intro H; injection H as <-; cbn; split; [reflexivity|eexists; reflexivity].

Lemma DamageDealtLog_parse_kind :
  forall params pr, DamageDealtLog_parse params = Some pr ->
    kind (settle pr) = KDamageDealt /\ resolved (settle pr).
Proof. unfold DamageDealtLog_parse. parser_kind. Qed.

Lemma ResourceChangedLog_parse_kind :
  forall params pr, ResourceChangedLog_parse params = Some pr ->
    kind (settle pr) = KResourceChanged /\ resolved (settle pr).
Proof. unfold ResourceChangedLog_parse. parser_kind. Qed.

Lemma AuraEventLog_parse_kind :
  forall params pr, AuraEventLog_parse params = Some pr ->
    kind (settle pr) = KAuraEvent /\ resolved (settle pr).
Proof. unfold AuraEventLog_parse. parser_kind. Qed.

Lemma AuraStacksChangeLog_parse_kind :
  forall params pr, AuraStacksChangeLog_parse params = Some pr ->
    kind (settle pr) = KAuraStacksChange /\ resolved (settle pr).
Proof. unfold AuraStacksChangeLog_parse. parser_kind. Qed.

Lemma MajorCooldownUsedLog_parse_kind :
  forall params pr, MajorCooldownUsedLog_parse params = Some pr ->
    kind (settle pr) = KMajorCooldownUsed /\ resolved (settle pr).
Proof. unfold MajorCooldownUsedLog_parse. parser_kind. Qed.

Lemma CastBeganLog_parse_kind :
  forall params pr, CastBeganLog_parse params = Some pr ->
    kind (settle pr) = KCastBegan /\ resolved (settle pr).
Proof. unfold CastBeganLog_parse. parser_kind. Qed.

Lemma CastCompletedLog_parse_kind :
  forall params pr, CastCompletedLog_parse params = Some pr ->
    kind (settle pr) = KCastCompleted /\ resolved (settle pr).
Proof. unfold CastCompletedLog_parse. parser_kind. Qed.

Lemma StatChangeLog_parse_kind :
  forall params pr, StatChangeLog_parse params = Some pr ->
    kind (settle pr) = KStatChange /\ resolved (settle pr).
Proof. unfold StatChangeLog_parse. parser_kind. Qed.

(** The classifier answers with the kind of the first pattern, in its
    order of priority, that hits the raw line, and with the plain log when
    none does. *)
Lemma classify_kind (params : SimLogParams) :
  kind (settle (classify params)) = firstKind priority (raw params).
Proof.
  unfold classify, priority, firstKind, hits, DamageDealtLog_parse, ResourceChangedLog_parse,
    AuraEventLog_parse, AuraStacksChangeLog_parse, MajorCooldownUsedLog_parse,
    CastBeganLog_parse, CastCompletedLog_parse, StatChangeLog_parse.
  repeat (match goal with
          | |- context [regexMatch ?re (raw params)] => destruct (regexMatch re (raw params))
          end;
          repeat match goal with
                 | |- context [stringToResourceType ?x] => destruct (stringToResourceType x)
                 | |- context [grpTruthy ?k ?m] => destruct (grpTruthy k m)
                 end;
          cbn [orElse settle fillThen kind]; try reflexivity).
Qed.

Lemma orElse_resolved (a : option (Promise SimLog)) (b : Promise SimLog) :
  (forall pr, a = Some pr -> resolved (settle pr)) ->
  resolved (settle b) ->
  resolved (settle (orElse a b)).
Proof. intros Ha Hb. destruct a as [pr|]; cbn; [now apply Ha|exact Hb]. Qed.

Lemma classify_resolved (params : SimLogParams) :
  actionId params = None -> resolved (settle (classify params)).
Proof.
  intro Hnone. unfold classify.
  apply orElse_resolved; [intros pr H; now apply (DamageDealtLog_parse_kind params)|].
  apply orElse_resolved; [intros pr H; now apply (ResourceChangedLog_parse_kind params)|].
  apply orElse_resolved; [intros pr H; now apply (AuraEventLog_parse_kind params)|].
  apply orElse_resolved; [intros pr H; now apply (AuraStacksChangeLog_parse_kind params)|].
  apply orElse_resolved; [intros pr H; now apply (MajorCooldownUsedLog_parse_kind params)|].
  apply orElse_resolved; [intros pr H; now apply (CastBeganLog_parse_kind params)|].
  apply orElse_resolved; [intros pr H; now apply (CastCompletedLog_parse_kind params)|].
  apply orElse_resolved; [intros pr H; now apply (StatChangeLog_parse_kind params)|].
  exact Hnone.
Qed.

Lemma annotations_reads (line : string) (lineIndex : nat) :
  annotations line lineIndex
  = (mkParams line lineIndex 0 None None None (schoolOf line) (threatAnnotation line),
     withoutThreat line).
Proof.
  unfold annotations, schoolOf, threatAnnotation, withoutThreat.
  destruct (regexMatch Patterns.spellSchoolRe line);
    destruct (regexMatch Patterns.threatRe line); reflexivity.
Qed.

Lemma parseLine_event (line : string) (lineIndex : nat) (pr : Promise SimLog) :
  parseLine line lineIndex = Ok pr ->
  timedEvent line (settle pr) /\ annotated line (settle pr) /\ resolved (settle pr).
Proof.
  unfold parseLine, timedEvent, annotated. rewrite annotations_reads.
  destruct (regexMatch Patterns.timestampRe (withoutThreat line)) as [m|].
  - destruct (grpTruthy 1 m); cbn [negb].
    + destruct (Entity.parseAll (captured 2 m)) as [entities|]; cbn [bind]; [|discriminate].
      intro H. injection H as <-.
      set (p := timedParams _ m entities).
      destruct (classify_header p) as (Hraw & _ & Hts & Hsrc & Htgt & Hsch & Hthr).
      split; [|split].
      * split; [now rewrite Hts|]. split; [now rewrite classify_kind|].
        exists entities. split; [reflexivity|]. split; [now rewrite Hsrc|now rewrite Htgt].
      * split; [now rewrite Hsch|now rewrite Hthr].
      * now apply classify_resolved.
    + intro H. injection H as <-. cbn. repeat split.
  - intro H. injection H as <-. cbn. repeat split.
Qed.

(** Every parser resolves the action from the label in its own group. *)
Ltac parser_label :=
  let m := fresh "m" in
  let Hm := fresh "Hm" in
  intros params pr;
  destruct (regexMatch _ (raw params)) as [m|] eqn:Hm; [|discriminate];
  repeat match goal with
         | |- context [stringToResourceType ?x] => destruct (stringToResourceType x)
         | |- context [if grpTruthy ?k m then Some _ else None] =>
             destruct (grpTruthy k m); [|discriminate]
         end;
  let H := fresh "H" in
  intro H; injection H as <-; cbn; exists m; split; [exact Hm|reflexivity].

Lemma DamageDealtLog_parse_label :
  forall params pr, DamageDealtLog_parse params = Some pr ->
    resolvedFrom (raw params) (settle pr).
Proof. unfold DamageDealtLog_parse, resolvedFrom. parser_label. Qed.

Lemma ResourceChangedLog_parse_label :
  forall params pr, ResourceChangedLog_parse params = Some pr ->
    resolvedFrom (raw params) (settle pr).
Proof. unfold ResourceChangedLog_parse, resolvedFrom. parser_label. Qed.

Lemma AuraEventLog_parse_label :
  forall params pr, AuraEventLog_parse params = Some pr ->
    resolvedFrom (raw params) (settle pr).
Proof. unfold AuraEventLog_parse, resolvedFrom. parser_label. Qed.

Lemma AuraStacksChangeLog_parse_label :
  forall params pr, AuraStacksChangeLog_parse params = Some pr ->
    resolvedFrom (raw params) (settle pr).
Proof. unfold AuraStacksChangeLog_parse, resolvedFrom. parser_label. Qed.

Lemma MajorCooldownUsedLog_parse_label :
  forall params pr, MajorCooldownUsedLog_parse params = Some pr ->
    resolvedFrom (raw params) (settle pr).
Proof. unfold MajorCooldownUsedLog_parse, resolvedFrom. parser_label. Qed.

Lemma CastBeganLog_parse_label :
  forall params pr, CastBeganLog_parse params = Some pr ->
    resolvedFrom (raw params) (settle pr).
Proof. unfold CastBeganLog_parse, resolvedFrom. parser_label. Qed.

Lemma CastCompletedLog_parse_label :
  forall params pr, CastCompletedLog_parse params = Some pr ->
    resolvedFrom (raw params) (settle pr).
Proof. unfold CastCompletedLog_parse, resolvedFrom. parser_label. Qed.

Lemma StatChangeLog_parse_label :
  forall params pr, StatChangeLog_parse params = Some pr ->
    resolvedFrom (raw params) (settle pr).
Proof. unfold StatChangeLog_parse, resolvedFrom. parser_label. Qed.

Lemma orElse_resolvedFrom (line : string) (a : option (Promise SimLog)) (b : Promise SimLog) :
  (forall pr, a = Some pr -> resolvedFrom line (settle pr)) ->
  resolvedFrom line (settle b) ->
  resolvedFrom line (settle (orElse a b)).
Proof. intros Ha Hb. destruct a as [pr|]; cbn [orElse]; [now apply Ha|exact Hb]. Qed.

Lemma classify_resolvedFrom (params : SimLogParams) :
  actionId params = None -> resolvedFrom (raw params) (settle (classify params)).
Proof.
  intro Hnone. unfold classify.
  apply orElse_resolvedFrom; [apply DamageDealtLog_parse_label|].
  apply orElse_resolvedFrom; [apply ResourceChangedLog_parse_label|].
  apply orElse_resolvedFrom; [apply AuraEventLog_parse_label|].
  apply orElse_resolvedFrom; [apply AuraStacksChangeLog_parse_label|].
  apply orElse_resolvedFrom; [apply MajorCooldownUsedLog_parse_label|].
  apply orElse_resolvedFrom; [apply CastBeganLog_parse_label|].
  apply orElse_resolvedFrom; [apply CastCompletedLog_parse_label|].
  apply orElse_resolvedFrom; [apply StatChangeLog_parse_label|].
  exact Hnone.
Qed.

Lemma parseLine_resolvedFrom (line : string) (lineIndex : nat) (pr : Promise SimLog) :
  parseLine line lineIndex = Ok pr -> resolvedFrom line (settle pr).
Proof.
  unfold parseLine.
  pose proof (annotations_header line lineIndex) as Hann. cbn zeta in Hann.
  destruct (annotations line lineIndex) as [params line']. cbn [fst snd] in Hann.
  destruct Hann as (Hraw & _ & _ & _ & _ & Hact).
  destruct (regexMatch Patterns.timestampRe line') as [m|].
  - destruct (grpTruthy 1 m); cbn [negb].
    + destruct (Entity.parseAll (captured 2 m)) as [entities|]; cbn [bind]; [|discriminate].
      intro H. injection H as <-. rewrite <- Hraw.
      apply (classify_resolvedFrom (timedParams params m entities)). exact Hact.
    + intro H. injection H as <-. exact Hact.
  - intro H. injection H as <-. exact Hact.
Qed.

(** The events of parsed lines are resolved. *)
Lemma promises_resolved (lines : list string) (promises : list (Promise SimLog)) :
  List.length promises = List.length lines ->
  (forall i line, nth_error lines i = Some line ->
     exists pr, nth_error promises i = Some pr /\ parseLine line i = Ok pr) ->
  Forall resolved (map settle promises).
Proof.
  intros Hlen Hnth.
  apply Forall_forall. intros e He. apply In_nth_error in He. destruct He as (i & He).
  assert (Hi : (i < List.length lines)%nat).
  { rewrite <- Hlen, <- (length_map settle). apply nth_error_Some. congruence. }
  destruct (nth_error lines i) as [line|] eqn:Hline.
  - destruct (Hnth i line Hline) as (pr & Hpr & Hparse).
    apply (map_nth_error settle) in Hpr. rewrite Hpr in He. injection He as <-.
    now destruct (parseLine_event _ _ Hparse) as (_ & _ & ?).
  - apply nth_error_None in Hline. lia.
Qed.

(** X7: the event of a line of [SimLog.parseAll] is decided by the line
    alone.  When the line, cut before its threat annotation, holds a
    bracketed timestamp, the event carries it, its source and target are the
    first and the second entity of the rest of the line, and its kind is the
    first, in the order damage, resource, aura, stacks, cooldown, cast begin,
    cast completion, stat change, whose pattern finds a match in the whole
    line (with a non-empty label where the parser asks for one), the plain
    log if there is none.  Otherwise the event is a plain log at time 0
    without entities. *)
Theorem X7_event_kind (order : list nat) (result : RaidSimResult) :
  let lines := split_newline (logs result) in
  entityMatchesLabelled ->
  (forall i, (i < List.length lines)%nat -> In i order) ->
  exists events,
    parseAll order result = Fulfilled events
    /\ forall i line, nth_error lines i = Some line ->
         exists e, nth_error events i = Some e /\ timedEvent line e.
Proof.
  cbn zeta. intros Hlab Hcover.
  destruct (parseAll_join order result Hlab Hcover) as (promises & Hps & Hlen & Hall & Hnth).
  exists (map settle promises). split; [exact Hall|].
  intros i line Hline. destruct (Hnth i line Hline) as (pr & Hpr & Hparse).
  exists (settle pr). split; [now apply map_nth_error|].
  now destruct (parseLine_event _ _ Hparse).
Qed.

(** X8: every event of [SimLog.parseAll] carries the spell school and the
    threat annotated on its line (none and 0 without annotation), and its
    action is the one resolved from the label that the pattern of its kind
    captures in the line, in the group its parser reads (1 for damage,
    stacks, cooldown and casts, 4 for a resource, 5 for an aura event, 6 for
    a stat change), and from the index of its source; a plain event has no
    action. *)
Theorem X8_event_annotations (order : list nat) (result : RaidSimResult) :
  let lines := split_newline (logs result) in
  entityMatchesLabelled ->
  (forall i, (i < List.length lines)%nat -> In i order) ->
  exists events,
    parseAll order result = Fulfilled events
    /\ Forall resolved events
    /\ forall i line, nth_error lines i = Some line ->
         exists e, nth_error events i = Some e /\ annotated line e /\ resolvedFrom line e.
Proof.
  cbn zeta. intros Hlab Hcover.
  destruct (parseAll_join order result Hlab Hcover) as (promises & Hps & Hlen & Hall & Hnth).
  exists (map settle promises). split; [exact Hall|]. split.
  - exact (@promises_resolved _ _ Hlen Hnth).
  - intros i line Hline. destruct (Hnth i line Hline) as (pr & Hpr & Hparse).
    exists (settle pr). split; [now apply map_nth_error|]. split.
    + now destruct (parseLine_event _ _ Hparse) as (_ & ? & _).
    + exact (parseLine_resolvedFrom _ _ Hparse).
Qed.

(** ** [CastLog.fromLogs] *)

Lemma whileDamage_spec (nextCcLog : option CastCompletedLog) (rest : list DamageDealtLog) :
  forall ddIdx,
  exists taken left,
    rest = taken ++ left
    /\ whileDamage nextCcLog rest ddIdx = (taken, (ddIdx + List.length taken)%nat)
    /\ (nextCcLog = None -> left = [])
    /\ (forall next, nextCcLog = Some next ->
          Forall (fun dd : DamageDealtLog => timestamp dd < timestamp next) taken
          /\ match left with
             | [] => True
             | dd :: _ => timestamp next <= timestamp dd
             end).
Proof.
  induction rest as [|dd rest IH]; intro ddIdx.
  - exists [], []. cbn. rewrite Nat.add_0_r. repeat split; auto.
  - cbn [whileDamage].
    destruct (match nextCcLog with
              | Some next => Qlt_bool (timestamp dd) (timestamp next)
              | None => true
              end) eqn:E.
    + destruct (IH (S ddIdx)) as (taken & left & Hsplit & Hw & Hnone & Hsome).
      rewrite Hw. exists (dd :: taken), left. rewrite Hsplit. cbn [app List.length].
      split; [reflexivity|]. split; [f_equal; lia|]. split; [assumption|].
      intros next ->. destruct (Hsome next eq_refl) as (Ht & Hl).
      split; [|assumption]. constructor; [now apply Qlt_bool_iff|assumption].
    + exists [], (dd :: rest). cbn [app List.length]. rewrite Nat.add_0_r.
      split; [reflexivity|]. split; [reflexivity|].
      split; [intros ->; discriminate|].
      intros next ->. split; [constructor|]. now apply Qlt_bool_false_iff.
Qed.

Lemma skipn_more {A} (l taken left : list A) (n : nat) :
  skipn n l = taken ++ left -> skipn (n + List.length taken) l = left.
Proof.
  intro H. rewrite Nat.add_comm, <- skipn_skipn, H. apply skipn_app_length.
Qed.

(** The cursor over the damage logs of a bucket only moves forward: the
    damage logs of the casts, cast after cast, are the damage logs of the
    bucket from the cursor on, up to what the loop leaves. *)
Lemma castLoop_attribution (rest : list CastBeganLog) :
  forall cbIdx completed damage ddIdx,
  exists left,
    skipn ddIdx (damageOf damage)
    = attributed (castLoop rest cbIdx completed damage ddIdx) ++ left
    /\ (rest <> [] ->
        (forall cs, completed = Some cs -> (List.length cs <= cbIdx + List.length rest)%nat) ->
        left = []).
Proof.
  unfold attributed.
  induction rest as [|cbLog rest IH]; intros cbIdx completed damage ddIdx; cbn [castLoop].
  - exists (skipn ddIdx (damageOf damage)). split; [reflexivity|congruence].
  - set (nextCcLog := match completed with
                      | Some cs =>
                          if Nat.ltb cbIdx (List.length cs)
                             && Nat.ltb (cbIdx + 1) (List.length cs)
                          then nth_error cs (cbIdx + 1) else None
                      | None => None
                      end).
    destruct damage as [d|]; cbn [damageOf].
    + destruct (whileDamage_spec nextCcLog (skipn ddIdx d) ddIdx)
        as (taken & left0 & Hsplit & Hw & Hnone & _).
      rewrite Hw.
      destruct (IH (S cbIdx) completed (Some d) (ddIdx + List.length taken)%nat)
        as (left & Hrest & Hall).
      cbn [damageOf] in Hrest. rewrite (@skipn_more _ _ _ _ _ Hsplit) in Hrest.
      exists left. cbn [map damageDealtLogs List.concat].
      split; [rewrite Hsplit, Hrest; now rewrite app_assoc|].
      intros _ Hshort. destruct rest as [|cb2 rest'].
      * (* the last cast of the bucket: no next completion *)
        cbn [castLoop map List.concat] in Hrest. cbn [app] in Hrest.
        assert (Hn : nextCcLog = None).
        { unfold nextCcLog. destruct completed as [cs|]; [|reflexivity].
          specialize (Hshort cs eq_refl). cbn [List.length] in Hshort.
          assert (E : Nat.ltb (cbIdx + 1) (List.length cs) = false) by (apply Nat.ltb_ge; lia).
          rewrite E. now rewrite andb_false_r. }
        rewrite <- Hrest. now apply Hnone.
      * apply Hall; [discriminate|]. intros cs Hcs. specialize (Hshort cs Hcs).
        cbn [List.length] in *. lia.
    + destruct (IH (S cbIdx) completed None ddIdx) as (left & Hrest & Hall).
      cbn [damageOf] in *. exists left. cbn [map damageDealtLogs List.concat app].
      split; [exact Hrest|].
      intros _ _. rewrite skipn_nil in Hrest. symmetry in Hrest.
      apply app_eq_nil in Hrest. tauto.
Qed.

(** One cast per begin log, in the order of the begin logs. *)
Lemma castLoop_began (abilityCastsBegan : list CastBeganLog)
    (abilityCastsCompleted : option (list CastCompletedLog))
    (abilityDamageDealt : option (list DamageDealtLog)) :
  map castBeganLog (castLoop abilityCastsBegan 0 abilityCastsCompleted abilityDamageDealt 0)
  = abilityCastsBegan.
Proof.
  destruct (castLoop_pairing abilityCastsBegan 0 abilityCastsCompleted abilityDamageDealt 0)
    as (Hlen & Hnth).
  apply map_eq_nth; [exact Hlen|].
  intros i b Hb.
  destruct (nth_error (castLoop abilityCastsBegan 0 abilityCastsCompleted
                                abilityDamageDealt 0) i) as [c|] eqn:Hc.
  - exists c. split; [reflexivity|]. destruct (Hnth i c Hc) as (Hb' & _). congruence.
  - apply nth_error_None in Hc. rewrite Hlen in Hc.
    assert (i < List.length abilityCastsBegan)%nat by (apply nth_error_Some; congruence). lia.
Qed.

(** X9: within a bucket, the loop of [CastLog.fromLogs] makes one cast per
    begin log, in their order, and hands the damage logs of the bucket out
    from the front, in their order and each at most once: the damage logs of
    the casts, put end to end, are a prefix of the damage logs of the bucket,
    and all of them when the bucket has at least one begin log and no more
    completions than begin logs. *)
Theorem X9_cast_attribution (abilityCastsBegan : list CastBeganLog)
    (abilityCastsCompleted : option (list CastCompletedLog))
    (abilityDamageDealt : option (list DamageDealtLog)) :
  let casts := castLoop abilityCastsBegan 0 abilityCastsCompleted abilityDamageDealt 0 in
  map castBeganLog casts = abilityCastsBegan
  /\ (exists left, damageOf abilityDamageDealt = attributed casts ++ left)
  /\ (abilityCastsBegan <> [] ->
      (forall cs, abilityCastsCompleted = Some cs ->
                  (List.length cs <= List.length abilityCastsBegan)%nat) ->
      attributed casts = damageOf abilityDamageDealt).
Proof.
  cbn zeta.
  destruct (castLoop_attribution abilityCastsBegan 0 abilityCastsCompleted abilityDamageDealt 0)
    as (left & Hsplit & Hall).
  cbn [skipn] in Hsplit.
  split; [|split].
  - apply castLoop_began.
  - now exists left.
  - intros Hne Hshort. rewrite Hsplit, (Hall Hne Hshort). now rewrite app_nil_r.
Qed.

(** ** Buckets *)

Lemma bucketInsert_perm {A} (k : string) (v : A) (buckets : list (string * list A)) :
  Permutation (List.concat (map snd (bucketInsert k v buckets)))
              (List.concat (map snd buckets) ++ [v]).
Proof.
  induction buckets as [|[k' vs] buckets IH]; cbn [bucketInsert map snd List.concat].
  - reflexivity.
  - destruct (String.eqb k' k); cbn [map snd List.concat].
    + rewrite <- !app_assoc. apply Permutation_app_head. apply Permutation_app_comm.
    + rewrite IH. now rewrite app_assoc.
Qed.

Lemma bucket_from {A} (toStr : A -> Result string) (arr : list A) :
  Forall (fun a => exists k, toStr a = Ok k) arr ->
  forall buckets,
  exists out,
    foldM (fun buckets val => let* k := toStr val in Ok (bucketInsert k val buckets)) arr buckets
    = Ok out
    /\ Permutation (List.concat (map snd out)) (List.concat (map snd buckets) ++ arr).
Proof.
  induction 1 as [|a arr (k & Hk) _ IH]; intro buckets; cbn [foldM].
  - exists buckets. split; [reflexivity|]. now rewrite app_nil_r.
  - rewrite Hk. cbn [bind]. destruct (IH (bucketInsert k a buckets)) as (out & Hout & Hperm).
    exists out. split; [exact Hout|]. rewrite Hperm, bucketInsert_perm.
    rewrite <- app_assoc. reflexivity.
Qed.

Lemma bucket_total {A} (toStr : A -> Result string) (arr : list A) :
  Forall (fun a => exists k, toStr a = Ok k) arr ->
  exists out, bucket arr toStr = Ok out /\ Permutation (List.concat (map snd out)) arr.
Proof.
  intro H. destruct (@bucket_from _ toStr arr H []) as (out & Hout & Hperm). now exists out.
Qed.

Lemma bucketKeyOf_identified (p : SimLogParams) :
  actionId p <> None -> exists k, bucketKeyOf p = Ok k.
Proof.
  unfold bucketKeyOf. destruct (actionId p); [eexists; reflexivity|congruence].
Qed.

Lemma filterType_Forall {A B} (f : A -> option B) (P : A -> Prop) (Q : B -> Prop)
    (l : list A) :
  (forall a b, f a = Some b -> P a -> Q b) ->
  Forall P l -> Forall Q (filterType f l).
Proof.
  intros Hf. induction 1 as [|a l Ha _ IH]; cbn [filterType]; [constructor|].
  destruct (f a) as [b|] eqn:E; [|exact IH]. constructor; [|exact IH]. now apply (Hf a).
Qed.

Lemma flat_map_castLoop_began (completed : list (string * list CastCompletedLog))
    (damage : list (string * list DamageDealtLog)) (began : list (string * list CastBeganLog)) :
  map castBeganLog
      (flat_map (fun entry : string * list CastBeganLog =>
                   let '(bucketKey, abilityCastsBegan) := entry in
                   castLoop abilityCastsBegan 0 (lookupBucket bucketKey completed)
                            (lookupBucket bucketKey damage) 0) began)
  = List.concat (map snd began).
Proof.
  induction began as [|[k cbs] began IH]; [reflexivity|].
  cbn [flat_map map snd List.concat]. rewrite map_app, IH. f_equal.
  apply castLoop_began.
Qed.

(** The three bucketings of [CastLog.fromLogs] succeed on identified logs;
    the buckets of the begin logs hold these logs and no other. *)
Lemma castBuckets_total (logs : list SimLog) :
  Forall castIdentified logs ->
  exists began completed damage,
    bucket (filterType isCastBegan logs) (fun log : CastBeganLog => bucketKeyOf log)
    = Ok began
    /\ bucket (filterType isCastCompleted logs) (fun log : CastCompletedLog => bucketKeyOf log)
       = Ok completed
    /\ bucket (filterType isDamageDealt logs) (fun log : DamageDealtLog => bucketKeyOf log)
       = Ok damage
    /\ Permutation (List.concat (map snd began)) (filterType isCastBegan logs).
Proof.
  intro Hid.
  destruct (@bucket_total _ (fun log : CastBeganLog => bucketKeyOf log)
                          (filterType isCastBegan logs)) as (began & Hb & Hpb).
  { eapply filterType_Forall; [|exact Hid]. intros [] b H Hl; try discriminate H.
    injection H as <-. now apply bucketKeyOf_identified. }
  destruct (@bucket_total _ (fun log : CastCompletedLog => bucketKeyOf log)
                          (filterType isCastCompleted logs)) as (completed & Hc & _).
  { eapply filterType_Forall; [|exact Hid]. intros [] b H Hl; try discriminate H.
    injection H as <-. now apply bucketKeyOf_identified. }
  destruct (@bucket_total _ (fun log : DamageDealtLog => bucketKeyOf log)
                          (filterType isDamageDealt logs)) as (damage & Hd & _).
  { eapply filterType_Forall; [|exact Hid]. intros [] b H Hl; try discriminate H.
    injection H as <-. now apply bucketKeyOf_identified. }
  exists began, completed, damage. repeat split; assumption.
Qed.

(** X10: on logs whose cast and damage events carry an action,
    [CastLog.fromLogs] does not throw; it returns exactly one cast log per
    begin log of the input (the begin logs of the results are a permutation
    of those of the input), sorted by timestamp, each with the timestamp,
    index and text of its begin log. *)
Theorem X10_cast_logs (logs : list SimLog) :
  Forall castIdentified logs ->
  exists out,
    CastLog_fromLogs logs = Ok out
    /\ Permutation (map castBeganLog out) (filterType isCastBegan logs)
    /\ List.length out = List.length (filterType isCastBegan logs)
    /\ sortedBy (fun c : CastLog => timestamp c) out
    /\ Forall (fun c : CastLog => timestamp c = timestamp (castBeganLog c)
                                  /\ logIndex c = logIndex (castBeganLog c)
                                  /\ raw c = raw (castBeganLog c)) out.
Proof.
  intro Hid. unfold CastLog_fromLogs, castLogsUnsorted.
  destruct (@castBuckets_total logs Hid) as (began & completed & damage & Hb & Hc & Hd & Hpb).
  rewrite Hb, Hc, Hd. cbn [bind]. eexists. split; [reflexivity|].
  assert (Hperm : Permutation
                    (map castBeganLog
                       (sortByKey (fun l : CastLog => timestamp l)
                          (flat_map (fun entry : string * list CastBeganLog =>
                             let '(bucketKey, abilityCastsBegan) := entry in
                             castLoop abilityCastsBegan 0 (lookupBucket bucketKey completed)
                                      (lookupBucket bucketKey damage) 0) began)))
                    (filterType isCastBegan logs)).
  { rewrite sortByKey_perm, flat_map_castLoop_began. exact Hpb. }
  split; [exact Hperm|]. split.
  - rewrite <- (Permutation_length Hperm). now rewrite length_map.
  - split; [apply sortByKey_sorted|].
    eapply Permutation_Forall; [symmetry; apply sortByKey_perm|].
    apply Forall_flat_map. apply Forall_forall. intros [bucketKey cbs] _.
    pose proof (castLoop_constructed cbs 0 (lookupBucket bucketKey completed)
                                     (lookupBucket bucketKey damage) 0) as Hcon.
    eapply Forall_impl; [|exact Hcon]. intros c Hc'. unfold constructed in Hc'.
    rewrite Hc'. cbn. repeat split.
Qed.

(** ** [AuraUptimeLog.fromLogs] *)

Lemma fromEntityb_iff (entity : Entity.t) (p : SimLogParams) :
  fromEntityb entity p = true <-> fromEntity entity p.
Proof.
  unfold fromEntityb, fromEntity. destruct (source p) as [src|].
  - split; [intro H; now exists src|intros (s & H & E); injection H as <-; exact E].
  - split; [discriminate|intros (s & H & _); discriminate].
Qed.

Lemma gainOf_not_entity (entity : Entity.t) (log : SimLog) :
  ~ fromEntity entity (header log) -> gainOf entity log = false.
Proof.
  intro H. destruct log as [l|l|l|l|l|l|l|l|l]; try reflexivity. cbn in *.
  destruct (fromEntityb entity l) eqn:E; [|reflexivity].
  apply fromEntityb_iff in E. contradiction.
Qed.

Lemma auraStep_moves (entity : Entity.t) (st : AuraState) (log : SimLog) :
  Forall openIdentified (unmatchedGainedLogs st) -> identified log ->
  exists st',
    auraStep entity st log = Ok st'
    /\ AuraMove entity st log st'
    /\ Forall openIdentified (unmatchedGainedLogs st').
Proof.
  intros Hident Hid.
  destruct (fromEntity_dec entity (header log)) as [Hent|Hent].
  2:{ exists st. split; [now apply auraStep_ignored|].
      split; [constructor; now apply gainOf_not_entity|assumption]. }
  destruct log as [l|l|l|l|l|l|l|l|l];
    try (exists st; split; [|split; [now constructor|assumption]]; cbn [header] in Hent;
         destruct Hent as (src & Hsrc & Heq); unfold auraStep; cbn [header];
         rewrite Hsrc, Heq; reflexivity).
  - cbn in Hid, Hent. destruct (actionId l) as [a|] eqn:Ha; [|congruence].
    destruct (isGained l) eqn:Hg.
    + eexists. split; [now apply auraStep_gain|]. split; [now constructor|].
      cbn. apply Forall_app. split; [assumption|]. constructor; [|constructor].
      unfold openIdentified; cbn; congruence.
    + destruct (@findIndex_matches l a _ Ha Hident)
        as [(pre & o & post & Hun & Hpre & Ho & _)|(Hnone & _)].
      * destruct (@auraStep_close entity st l a pre post o Hent Hg Ha Hun Hident Hpre Ho)
          as (u & -> & Hu & Hst).
        eexists. split; [reflexivity|]. split; [now apply (@move_close _ entity st l pre o post u)|].
        cbn. rewrite Hun in Hident. apply Forall_app in Hident. destruct Hident as (Hp & Hrest).
        apply Forall_app. split; [assumption|]. apply Forall_app.
        split; [now apply Forall_inv_tail in Hrest|].
        destruct (isRefreshed l); constructor; [|constructor].
        unfold openIdentified; cbn; congruence.
      * eexists. split; [now apply (@auraStep_close_unmatched entity st l a Hent Hg Ha Hident Hnone)|].
        split; [|assumption].
        apply (@move_warn _ entity st (AuraEvent l)). cbn. rewrite Hg. now rewrite andb_false_r.
  - cbn in Hid, Hent. destruct (actionId l) as [a|] eqn:Ha; [|congruence].
    destruct (Z_lt_le_dec 0 (newStacks l)) as [Hpos|Hle].
    2:{ exists st. split; [now apply auraStep_stacks_dropped|]. split; [now constructor|assumption]. }
    destruct (@findIndex_matches l a _ Ha Hident)
      as [(pre & o & post & Hun & Hpre & Ho & _)|(Hnone & _)].
    + eexists. split; [now apply (@auraStep_stacks entity st l a pre post o Hent Hpos Ha Hun Hident Hpre Ho)|].
      split; [now apply (@move_stacks _ entity st l pre o post)|].
      cbn. rewrite Hun in Hident. apply Forall_app in Hident. destruct Hident as (Hp & Hrest).
      apply Forall_app. split; [assumption|].
      constructor; [|now apply Forall_inv_tail in Hrest].
      apply Forall_inv in Hrest. exact Hrest.
    + eexists. split; [now apply (@auraStep_stacks_unmatched entity st l a Hent Hpos Ha Hident Hnone)|].
      split; [|assumption]. now apply (@move_warn _ entity st (AuraStacksChange l)).
Qed.

(** Induction over the loop: a property of the state and of the logs still
    to come that every move keeps holds at the end. *)
Lemma auraFold_ind (entity : Entity.t) (R : list SimLog -> AuraState -> Prop) :
  (forall log rest st st',
      R (log :: rest) st -> AuraMove entity st log st' -> R rest st') ->
  forall logs st,
    Forall identified logs -> Forall openIdentified (unmatchedGainedLogs st) ->
    R logs st ->
    exists st', foldM (auraStep entity) logs st = Ok st' /\ R [] st'.
Proof.
  intros Hstep logs. induction logs as [|log logs IH]; intros st Hid Hopen HR; cbn [foldM].
  - now exists st.
  - destruct (@auraStep_moves entity st log Hopen (Forall_inv Hid))
      as (st1 & Hst1 & Hmove & Hopen1).
    rewrite Hst1. cbn [bind]. apply IH; [now apply Forall_inv_tail in Hid|assumption|].
    now apply (Hstep log logs st st1).
Qed.

(** ** [AuraUptimeLog.fromLogs]: the order of the result *)

Lemma subsequence_nil {A} (l : list A) : subsequence [] l.
Proof. induction l; constructor; assumption. Qed.

Lemma subsequence_refl {A} (l : list A) : subsequence l l.
Proof. induction l; [constructor|now apply subseq_take]. Qed.

Lemma subsequence_app {A} (s1 l1 s2 l2 : list A) :
  subsequence s1 l1 -> subsequence s2 l2 -> subsequence (s1 ++ s2) (l1 ++ l2).
Proof.
  induction 1; intro H2; cbn [app];
    [assumption|apply subseq_skip; auto|apply subseq_take; auto].
Qed.

Lemma subsequence_snoc_skip {A} (s l : list A) (a : A) :
  subsequence s l -> subsequence s (l ++ [a]).
Proof.
  intro H. rewrite <- (app_nil_r s). apply subsequence_app; [assumption|].
  apply subsequence_nil.
Qed.

Lemma subsequence_snoc_take {A} (s l : list A) (a : A) :
  subsequence s l -> subsequence (s ++ [a]) (l ++ [a]).
Proof. intro H. apply subsequence_app; [assumption|apply subsequence_refl]. Qed.

Lemma subsequence_trans {A} (s m l : list A) :
  subsequence s m -> subsequence m l -> subsequence s l.
Proof.
  intros Hsm Hml. revert s Hsm.
  induction Hml as [|a m l _ IH|a m l _ IH]; intros s Hsm.
  - assumption.
  - apply subseq_skip. now apply IH.
  - inversion Hsm; subst.
    + apply subseq_skip. now apply IH.
    + apply subseq_take. now apply IH.
Qed.

Lemma subsequence_remove {A} (pre post l : list A) (o : A) :
  subsequence (pre ++ o :: post) l -> subsequence (pre ++ post) l.
Proof.
  apply subsequence_trans. apply subsequence_app; [apply subsequence_refl|].
  apply subseq_skip. apply subsequence_refl.
Qed.

Lemma Forall2_snoc {A B} (P : A -> B -> Prop) (l : list A) (l' : list B) (a : A) (b : B) :
  Forall2 P l l' -> P a b -> Forall2 P (l ++ [a]) (l' ++ [b]).
Proof. intros H Hab. apply Forall2_app; [assumption|]. now constructor. Qed.

(** Every round keeps the order. *)
Lemma auraMove_order (entity : Entity.t) (processed : list SimLog) (st st' : AuraState)
    (log : SimLog) :
  inInputOrder processed st -> AuraMove entity st log st' ->
  inInputOrder (processed ++ [log]) st'.
Proof.
  intros (Hopen & Hkind & closers & Hclosers & Hcl) Hmove.
  destruct Hmove as [log _|log msg _|l He Hg|l pre o post u He Hg Hsplit Hby Hst|l pre o post He Hpos Hsplit].
  - split; [now apply subsequence_snoc_skip|]. split; [assumption|].
    exists closers. split; [now apply subsequence_snoc_skip|assumption].
  - cbn. split; [now apply subsequence_snoc_skip|]. split; [assumption|].
    exists closers. split; [now apply subsequence_snoc_skip|assumption].
  - cbn [unmatchedGainedLogs uptimeLogs inInputOrder]. unfold inInputOrder.
    cbn [unmatchedGainedLogs uptimeLogs]. split.
    + rewrite map_app. cbn [map opener gained]. now apply subsequence_snoc_take.
    + split.
      * apply Forall_app. split; [assumption|]. constructor; [|constructor]. now left.
      * exists closers. split; [now apply subsequence_snoc_skip|assumption].
  - unfold inInputOrder. cbn [unmatchedGainedLogs uptimeLogs].
    rewrite Hsplit in Hopen, Hkind. rewrite map_app in Hopen. cbn [map] in Hopen.
    apply subsequence_remove in Hopen. rewrite <- map_app in Hopen.
    apply Forall_app in Hkind. destruct Hkind as (Hpre & Hpost).
    apply Forall_inv_tail in Hpost.
    split; [|split].
    + rewrite app_assoc, map_app. destruct (isRefreshed l).
      * cbn [map opener gained]. now apply subsequence_snoc_take.
      * cbn [map]. rewrite app_nil_r. now apply subsequence_snoc_skip.
    + apply Forall_app. split; [assumption|]. apply Forall_app. split; [assumption|].
      destruct (isRefreshed l) eqn:Er; constructor; [|constructor]. now right.
    + exists (closers ++ [l]). split.
      * rewrite map_app. cbn [map]. now apply subsequence_snoc_take.
      * apply Forall2_snoc; [assumption|]. split; [assumption|]. now exists (gained o).
  - unfold inInputOrder. cbn [unmatchedGainedLogs uptimeLogs].
    rewrite Hsplit in Hopen, Hkind.
    apply Forall_app in Hkind. destruct Hkind as (Hpre & Hpost).
    split; [|split].
    + rewrite map_app in *. cbn [map opener gained] in *. now apply subsequence_snoc_skip.
    + apply Forall_app. split; [assumption|].
      constructor; [exact (Forall_inv Hpost)|exact (Forall_inv_tail Hpost)].
    + exists closers. split; [now apply subsequence_snoc_skip|assumption].
Qed.

Lemma auraRun_order (logs : list SimLog) (entity : Entity.t) :
  Forall identified logs ->
  exists st, auraRun logs entity = Ok st /\ inInputOrder logs st.
Proof.
  intro Hid.
  destruct auraFold_ind
    with (entity := entity)
         (R := fun rest st => exists processed,
                   logs = processed ++ rest /\ inInputOrder processed st)
         (logs := logs) (st := mkAuraState [] [] [])
    as (st & Hrun & processed & Hlogs & Horder).
  - intros log rest st st' (processed & Hlogs & Horder) Hmove.
    exists (processed ++ [log]). split; [now rewrite <- app_assoc|].
    now apply (auraMove_order Horder Hmove).
  - exact Hid.
  - constructor.
  - exists []. split; [reflexivity|]. split; [constructor|]. split; [constructor|].
    exists []. split; constructor.
  - exists st. split; [exact Hrun|]. rewrite app_nil_r in Hlogs. now subst.
Qed.

(** C5, amended: the result is ascending by [gainedAt], and logs with one
    [gainedAt] stand in the order in which the loop closed them: first the
    logs closed by a fade or refresh, in the order these closing events have
    in the input, then the logs still open at the end, in the order their
    opening events, gains or refreshes, have in the input. *)
Theorem C5_sorted_stable (logs : list SimLog) (entity : Entity.t)
    (encounterDuration : number) :
  Forall identified logs ->
  exists st out,
    auraRun logs entity = Ok st
    /\ AuraUptimeLog_fromLogs logs entity encounterDuration = Ok out
    /\ sortedBy gainedAt out
    /\ Permutation out (uptimeLogs st
                        ++ map (closeAtEnd encounterDuration) (unmatchedGainedLogs st))
    /\ (forall t, withKey gainedAt t out
                  = withKey gainedAt t
                      (uptimeLogs st
                       ++ map (closeAtEnd encounterDuration) (unmatchedGainedLogs st)))
    /\ (forall prefix rest st1, logs = prefix ++ rest -> auraRun prefix entity = Ok st1 ->
          exists later, uptimeLogs st = uptimeLogs st1 ++ later)
    /\ inInputOrder logs st.
Proof.
  intro Hid. destruct (auraRun_order entity Hid) as (st & Hrun & Horder).
  exists st, (sortByKey gainedAt (auraUnsorted st encounterDuration)).
  split; [assumption|]. split; [unfold AuraUptimeLog_fromLogs; now rewrite Hrun|].
  split; [apply sortByKey_sorted|]. split; [apply sortByKey_perm|].
  split; [intro t; apply sortByKey_stable|]. split; [|exact Horder].
  intros prefix rest st1 -> Hprefix. unfold auraRun in *.
  rewrite foldM_app, Hprefix in Hrun. cbn [bind] in Hrun.
  now apply (auraRun_appends _ _ _ Hrun).
Qed.

Lemma fromLogs_of_run (logs : list SimLog) (entity : Entity.t) (encounterDuration : number)
    (st : AuraState) (P : AuraUptimeLog -> Prop) :
  auraRun logs entity = Ok st ->
  Forall P (uptimeLogs st) ->
  Forall (fun o => P (closeAtEnd encounterDuration o)) (unmatchedGainedLogs st) ->
  exists out, AuraUptimeLog_fromLogs logs entity encounterDuration = Ok out /\ Forall P out.
Proof.
  intros Hrun Hclosed Hopen. unfold AuraUptimeLog_fromLogs. rewrite Hrun. cbn [bind].
  eexists. split; [reflexivity|].
  eapply Permutation_Forall; [symmetry; apply sortByKey_perm|].
  unfold auraUnsorted. apply Forall_app. split; [assumption|]. now apply Forall_map.
Qed.

(** X11: every change of stacks recorded in an uptime log of
    [AuraUptimeLog.fromLogs] is a stacks event of the input, of the entity,
    to a positive number of stacks. *)
Theorem X11_aura_stacks (logs : list SimLog) (entity : Entity.t) (encounterDuration : number) :
  Forall identified logs ->
  exists out,
    AuraUptimeLog_fromLogs logs entity encounterDuration = Ok out
    /\ Forall (fun u => Forall (stacksSound entity logs) (stacksChange u)) out.
Proof.
  intro Hid.
  destruct auraFold_ind with (entity := entity)
              (R := fun rest st =>
                 (forall x, In x rest -> In x logs)
                 /\ Forall (fun o => Forall (stacksSound entity logs) (stacks o))
                           (unmatchedGainedLogs st)
                 /\ Forall (fun u => Forall (stacksSound entity logs) (stacksChange u))
                           (uptimeLogs st))
         (logs := logs) (st := mkAuraState [] [] []) as (st & Hrun & _ & Hopen & Hclosed).
  - intros log rest st st' (Hin & Hopen & Hclosed) Hmove.
    assert (Hin' : forall x, In x rest -> In x logs) by (intros x Hx; apply Hin; now right).
    inversion Hmove; subst; cbn [unmatchedGainedLogs uptimeLogs warn].
    + now repeat split.
    + now repeat split.
    + split; [assumption|]. split; [|assumption].
      apply Forall_app. split; [assumption|]. repeat constructor.
    + match goal with H : unmatchedGainedLogs st = _ |- _ => rewrite H in Hopen end.
      apply Forall_app in Hopen. destruct Hopen as (Hpre & Hrest).
      inversion Hrest as [|? ? Ho Hpost]; subst.
      split; [assumption|]. split.
      * apply Forall_app. split; [assumption|]. apply Forall_app. split; [assumption|].
        destruct (isRefreshed l); repeat constructor.
      * apply Forall_app. split; [assumption|]. constructor; [|constructor].
        match goal with H : stacksChange u = _ |- _ => rewrite H end. exact Ho.
    + match goal with H : unmatchedGainedLogs st = _ |- _ => rewrite H in Hopen end.
      apply Forall_app in Hopen. destruct Hopen as (Hpre & Hrest).
      inversion Hrest as [|? ? Ho Hpost]; subst.
      split; [assumption|]. split; [|assumption].
      apply Forall_app. split; [assumption|]. constructor; [|assumption].
      cbn [stacks]. apply Forall_app. split; [assumption|]. constructor; [|constructor].
      split; [assumption|]. split; [assumption|]. apply Hin. now left.
  - assumption.
  - constructor.
  - split; [auto|]. split; constructor.
  - apply (@fromLogs_of_run logs entity encounterDuration st _ Hrun Hclosed).
    eapply Forall_impl; [|exact Hopen]. intros o Ho. exact Ho.
Qed.

Lemma count_cons {A} (p : A -> bool) (a : A) (l : list A) :
  count p (a :: l) = (Nat.b2n (p a) + count p l)%nat.
Proof. unfold count. cbn [filter]. destruct (p a); reflexivity. Qed.

Lemma gainOf_gain (entity : Entity.t) (l : AuraEventLog) :
  fromEntity entity l -> isGained l = true ->
  gainOf entity (AuraEvent l) = true /\ refreshOf entity (AuraEvent l) = false.
Proof.
  intros He Hg. apply fromEntityb_iff in He. cbn. rewrite He, Hg. split; reflexivity.
Qed.

Lemma gainOf_close (entity : Entity.t) (l : AuraEventLog) :
  fromEntity entity l -> isGained l = false ->
  gainOf entity (AuraEvent l) = false /\ refreshOf entity (AuraEvent l) = isRefreshed l.
Proof.
  intros He Hg. apply fromEntityb_iff in He. cbn. rewrite He, Hg. split; reflexivity.
Qed.

(** X12: [AuraUptimeLog.fromLogs] returns at least one uptime log per gain
    event of the entity, and at most one per gain or refresh event of the
    entity. *)
Theorem X12_aura_count (logs : list SimLog) (entity : Entity.t) (encounterDuration : number) :
  Forall identified logs ->
  exists out,
    AuraUptimeLog_fromLogs logs entity encounterDuration = Ok out
    /\ (count (gainOf entity) logs <= List.length out)%nat
    /\ (List.length out <= count (gainOf entity) logs + count (refreshOf entity) logs)%nat.
Proof.
  intro Hid.
  set (size := fun st : AuraState =>
                 (List.length (uptimeLogs st) + List.length (unmatchedGainedLogs st))%nat).
  destruct auraFold_ind with (entity := entity)
              (R := fun rest st =>
                 (count (gainOf entity) logs <= size st + count (gainOf entity) rest)%nat
                 /\ (size st + count (gainOf entity) rest + count (refreshOf entity) rest
                     <= count (gainOf entity) logs + count (refreshOf entity) logs)%nat)
         (logs := logs) (st := mkAuraState [] [] []) as (st & Hrun & Hlow & Hhigh).
  - intros log rest st st' (Hlow & Hhigh) Hmove. rewrite (count_cons (gainOf entity)) in Hlow, Hhigh.
    rewrite (count_cons (refreshOf entity)) in Hhigh.
    unfold size in *.
    inversion Hmove; subst; cbn [unmatchedGainedLogs uptimeLogs warn].
    + match goal with H : gainOf _ _ = false |- _ => rewrite H in * end.
      destruct (refreshOf entity log); cbn [Nat.b2n] in *; split; lia.
    + match goal with H : gainOf _ _ = false |- _ => rewrite H in * end.
      destruct (refreshOf entity log); cbn [Nat.b2n] in *; split; lia.
    + match goal with
      | H2 : isGained ?l = true |- _ =>
          destruct (@gainOf_gain entity l ltac:(assumption) H2) as (Eg & Er)
      end.
      rewrite Eg, Er in *. rewrite length_app. cbn [List.length Nat.b2n] in *. split; lia.
    + match goal with
      | H2 : isGained ?l = false |- _ =>
          destruct (@gainOf_close entity l ltac:(assumption) H2) as (Eg & Er)
      end.
      rewrite Eg, Er in *.
      match goal with H : unmatchedGainedLogs st = _ |- _ => rewrite H in * end.
      rewrite !length_app in *. cbn [List.length] in *.
      destruct (isRefreshed l); cbn [List.length Nat.b2n] in *; split; lia.
    + match goal with H : unmatchedGainedLogs st = _ |- _ => rewrite H in * end.
      rewrite !length_app in *. cbn [List.length gainOf refreshOf Nat.b2n] in *. split; lia.
  - assumption.
  - constructor.
  - unfold size. cbn. split; lia.
  - unfold AuraUptimeLog_fromLogs, auraRun. rewrite Hrun. cbn [bind]. eexists. split; [reflexivity|].
    rewrite (Permutation_length (sortByKey_perm _ _)). unfold auraUnsorted.
    rewrite length_app, length_map.
    change (count (gainOf entity) []) with 0%nat in *.
    change (count (refreshOf entity) []) with 0%nat in *.
    unfold size in *. split; lia.
Qed.

(** X13: for logs in the order of time, none later than the encounter
    duration, no uptime log of [AuraUptimeLog.fromLogs] fades before it is
    gained. *)
Theorem X13_aura_intervals (logs : list SimLog) (entity : Entity.t)
    (encounterDuration : number) :
  Forall identified logs ->
  sortedBy logTimestamp logs ->
  Forall (fun log => logTimestamp log <= encounterDuration) logs ->
  exists out,
    AuraUptimeLog_fromLogs logs entity encounterDuration = Ok out
    /\ Forall (fun u => gainedAt u <= fadedAt u) out.
Proof.
  intros Hid Hsorted Hbound.
  set (openOk := fun (rest : list SimLog) (o : OpenAura) =>
                   timestamp (gained o) <= encounterDuration
                   /\ Forall (fun x => timestamp (gained o) <= logTimestamp x) rest).
  destruct auraFold_ind with (entity := entity)
              (R := fun rest st =>
                 sortedBy logTimestamp rest
                 /\ Forall (fun log => logTimestamp log <= encounterDuration) rest
                 /\ Forall (openOk rest) (unmatchedGainedLogs st)
                 /\ Forall (fun u => gainedAt u <= fadedAt u) (uptimeLogs st))
         (logs := logs) (st := mkAuraState [] [] [])
    as (st & Hrun & _ & _ & Hopen & Hclosed).
  - intros log rest st st' (Hs & Hb & Hopen & Hclosed) Hmove.
    inversion Hs as [|? ? Hs' Hlater]; subst.
    pose proof (Forall_inv Hb) as Hblog. pose proof (Forall_inv_tail Hb) as Hb'.
    assert (Hweak : forall o, openOk (log :: rest) o -> openOk rest o).
    { intros o (Hd & Hall). split; [assumption|]. now apply Forall_inv_tail in Hall. }
    assert (Hopen' : Forall (openOk rest) (unmatchedGainedLogs st)).
    { eapply Forall_impl; [|exact Hopen]. exact Hweak. }
    inversion Hmove; subst; cbn [unmatchedGainedLogs uptimeLogs warn].
    + now repeat split.
    + now repeat split.
    + repeat split; try assumption.
      apply Forall_app. split; [assumption|]. constructor; [|constructor].
      split; [exact Hblog|exact Hlater].
    + match goal with H : unmatchedGainedLogs st = _ |- _ => rewrite H in * end.
      apply Forall_app in Hopen. destruct Hopen as (_ & Hrest).
      apply Forall_inv in Hrest. destruct Hrest as (_ & Hafter). apply Forall_inv in Hafter.
      apply Forall_app in Hopen'. destruct Hopen' as (Hpre & Hrest').
      repeat split; try assumption.
      * apply Forall_app. split; [assumption|]. apply Forall_app.
        split; [now apply Forall_inv_tail in Hrest'|].
        destruct (isRefreshed l); constructor; [|constructor].
        split; [exact Hblog|exact Hlater].
      * apply Forall_app. split; [assumption|]. constructor; [|constructor].
        match goal with H : closedBy _ _ u |- _ =>
          destruct H as (_ & _ & Hg & _ & _ & Hf & _) end.
        rewrite Hg, Hf. exact Hafter.
    + match goal with H : unmatchedGainedLogs st = _ |- _ => rewrite H in * end.
      apply Forall_app in Hopen'. destruct Hopen' as (Hpre & Hrest').
      repeat split; try assumption.
      apply Forall_app. split; [assumption|].
      constructor; [|now apply Forall_inv_tail in Hrest'].
      apply Forall_inv in Hrest'. exact Hrest'.
  - assumption.
  - constructor.
  - repeat split; try assumption; constructor.
  - apply (@fromLogs_of_run logs entity encounterDuration st _ Hrun Hclosed).
    eapply Forall_impl; [|exact Hopen]. intros o (Hd & _). exact Hd.
Qed.

(** ** The reconstructors on parsed events; [populateActiveAuras] *)

Lemma resolved_identified (e : SimLog) : resolved e -> identified e.
Proof.
  destruct e; cbn; auto; intros (label & H); rewrite H; discriminate.
Qed.

Lemma resolved_castIdentified (e : SimLog) : resolved e -> castIdentified e.
Proof.
  destruct e; cbn; auto; intros (label & H); rewrite H; discriminate.
Qed.

(** X14: on the events delivered by [SimLog.parseAll], none of the
    reconstructors throws: [AuraUptimeLog.fromLogs] (for every entity and
    duration), [CastLog.fromLogs], [DpsLog.fromLogs] on the damage events,
    [ResourceChangedLogGroup.fromLogs] and [ThreatLogGroup.fromLogs] all
    return. *)
Theorem X14_reconstructors_total (order : list nat) (result : RaidSimResult) :
  let lines := split_newline (logs result) in
  entityMatchesLabelled ->
  (forall i, (i < List.length lines)%nat -> In i order) ->
  exists events,
    parseAll order result = Fulfilled events
    /\ (forall entity encounterDuration,
          exists out, AuraUptimeLog_fromLogs events entity encounterDuration = Ok out)
    /\ (exists out, CastLog_fromLogs events = Ok out)
    /\ (exists out, DpsLog_fromLogs (filterType isDamageDealt events) = Ok out)
    /\ (exists out, ResourceChangedLogGroup_fromLogs events = Ok out)
    /\ (exists out, ThreatLogGroup_fromLogs events = Ok out).
Proof.
  cbn zeta. intros Hlab Hcover.
  destruct (parseAll_join order result Hlab Hcover) as (promises & _ & Hlen & Hall & Hnth).
  pose proof (@promises_resolved _ _ Hlen Hnth) as Hres.
  set (events := map settle promises) in *.
  exists events. split; [exact Hall|]. split; [|split; [|split; [|split]]].
  - intros entity encounterDuration.
    destruct (@auraRun_invariant events entity) as (st & Hrun & _).
    { eapply Forall_impl; [|exact Hres]. exact resolved_identified. }
    unfold AuraUptimeLog_fromLogs. rewrite Hrun. eexists. reflexivity.
  - destruct (@castBuckets_total events) as (began & completed & damage & Hb & Hc & Hd & _).
    { eapply Forall_impl; [|exact Hres]. exact resolved_castIdentified. }
    unfold CastLog_fromLogs, castLogsUnsorted. rewrite Hb, Hc, Hd. cbn [bind].
    eexists. reflexivity.
  - destruct (groupDuplicateTimestamps_spec damageTimestamp (filterType isDamageDealt events))
      as (_ & Hs & _).
    destruct (dpsLoop_total Hs [] 0%float) as (out & console & Hout & _).
    exists out. unfold DpsLog_fromLogs, DpsLog_run. fold damageTimestamp. now rewrite Hout.
  - destruct (resource_groups_general events) as (out & Hout & _). now exists out.
  - destruct (groupDuplicateTimestamps_spec logTimestamp
                (filter (fun log => truthy (threatOf log)) events)) as (_ & Hs & _).
    destruct (threatLoop_chain Hs 0) as (out & Hout & _). now exists out.
Qed.

(** ** populateActiveAuras *)

Section SortWithFacts.
Variable A : Type.
Variable cmp : A -> A -> number.

Lemma insertWith_perm (x : A) (l : list A) : Permutation (insertWith cmp x l) (x :: l).
Proof.
  induction l as [|y l IH]; cbn; [reflexivity|].
  destruct (Qle_bool (cmp x y) 0); [reflexivity|].
  rewrite IH. apply perm_swap.
Qed.

Lemma sortWith_perm (l : list A) : Permutation (sortWith cmp l) l.
Proof.
  induction l as [|x l IH]; cbn; [reflexivity|].
  rewrite insertWith_perm. now constructor.
Qed.
End SortWithFacts.

Lemma named_total (l : list AuraUptimeLog) :
  Forall (fun a : AuraUptimeLog => actionId a <> None) l ->
  exists named,
    mapM (fun a : AuraUptimeLog => let* id := deref (actionId a) in Ok (actionName id, a)) l
    = Ok named
    /\ map snd named = l.
Proof.
  induction 1 as [|a l Ha _ (named & Hn & Hs)]; cbn [mapM].
  - now exists [].
  - destruct (actionId a) as [id|]; [|congruence]. cbn [deref bind]. rewrite Hn. cbn [bind].
    eexists. split; [reflexivity|]. cbn. now rewrite Hs.
Qed.

Lemma sortByName_perm (l : list AuraUptimeLog) :
  Forall (fun a : AuraUptimeLog => actionId a <> None) l ->
  exists out, sortByName l = Ok out /\ Permutation out l.
Proof.
  intro Hid. unfold sortByName.
  destruct l as [|a [|b l]]; [now exists []|now exists [a]|].
  destruct (named_total Hid) as (named & -> & Hs). cbn [bind].
  eexists. split; [reflexivity|]. rewrite <- Hs.
  apply Permutation_map. apply sortWith_perm.
Qed.

Lemma whileGained_spec (t : number) (rest : list AuraUptimeLog) :
  forall idx,
  exists pushed left,
    rest = pushed ++ left
    /\ whileGained t rest idx = (pushed, (idx + List.length pushed)%nat)
    /\ Forall (fun a => gainedAt a <= t) pushed
    /\ match left with
       | [] => True
       | a :: _ => t < gainedAt a
       end.
Proof.
  induction rest as [|a rest IH]; intro idx.
  - exists [], []. cbn. rewrite Nat.add_0_r. repeat split; constructor.
  - cbn [whileGained]. destruct (Qle_bool (gainedAt a) t) eqn:E.
    + destruct (IH (S idx)) as (pushed & left & -> & Hw & Hp & Hl).
      rewrite Hw. exists (a :: pushed), left. cbn [app List.length].
      split; [reflexivity|]. split; [f_equal; lia|].
      split; [constructor; [now apply Qle_bool_iff|assumption]|assumption].
    + exists [], (a :: rest). cbn [app List.length]. rewrite Nat.add_0_r.
      split; [reflexivity|]. split; [reflexivity|]. split; [constructor|].
      apply Qnot_le_lt. intro H. apply Qle_bool_iff in H. congruence.
Qed.

Lemma filter_ext_in' {A} (p q : A -> bool) (l : list A) :
  (forall a, In a l -> p a = q a) -> filter p l = filter q l.
Proof.
  induction l as [|a l IH]; intro H; cbn; [reflexivity|].
  rewrite (H a (or_introl eq_refl)), IH; [reflexivity|].
  intros b Hb. apply H. now right.
Qed.

Lemma filter_filter {A} (p q : A -> bool) (l : list A) :
  filter p (filter q l) = filter (fun a => q a && p a) l.
Proof.
  induction l as [|a l IH]; cbn; [reflexivity|].
  destruct (q a); cbn; [destruct (p a); now rewrite IH|exact IH].
Qed.

(** The loop, from a state in which [taken] are the auras already pushed,
    [rest] those still to come, and [curAuras] those of [taken] that a
    predicate [q] keeps. *)
Lemma populateLoop_spec (auraLogs : list AuraUptimeLog) (logs : list SimLogParams) :
  sortedBy headerTimestamp logs ->
  Forall (fun a : AuraUptimeLog => actionId a <> None) auraLogs ->
  forall taken rest q,
    auraLogs = taken ++ rest ->
    sortedBy gainedAt rest ->
    (forall a, In a taken ->
       Forall (fun log : SimLogParams =>
                 gainedAt a <= timestamp log /\ (q a = false -> fadedAt a <= timestamp log))
              logs) ->
    exists out,
      populateLoop logs auraLogs (filter q taken) (List.length taken) = Ok out
      /\ Forall2 (fun (log : SimLogParams) active =>
                    Permutation active (filter (activeAt (timestamp log)) auraLogs))
                 logs out.
Proof.
  intros Hsorted Hid. induction Hsorted as [|log logs Hlogs IH Hlater];
    intros taken rest q Hsplit Hrest Htaken; cbn [populateLoop].
  - exists []. split; [reflexivity|constructor].
  - assert (Hskip : skipn (List.length taken) auraLogs = rest)
      by (rewrite Hsplit; apply skipn_app_length).
    rewrite Hskip.
    destruct (whileGained_spec (timestamp log) rest (List.length taken))
      as (pushed & left & Hr & Hw & Hp & Hl).
    rewrite Hw.
    set (cur := filter (fun curAura : AuraUptimeLog => Qlt_bool (timestamp log) (fadedAt curAura))
                       (filter q taken ++ pushed)).
    assert (Hleft : Forall (fun a => timestamp log < gainedAt a) left).
    { rewrite Hr in Hrest. apply sorted_app_r in Hrest.
      destruct left as [|a left]; [constructor|].
      inversion Hrest as [|? ? _ Hge]; subst. constructor; [assumption|].
      eapply Forall_impl; [|exact Hge]. intros b Hb. cbn beta in Hb. lra. }
    assert (Hcur : cur = filter (fun a : AuraUptimeLog => Qlt_bool (timestamp log) (fadedAt a))
                                (taken ++ pushed)).
    { unfold cur. rewrite !filter_app. f_equal. rewrite filter_filter.
      apply filter_ext_in'. intros a Ha.
      destruct (q a) eqn:Eq; [reflexivity|]. cbn [andb]. symmetry.
      apply Qlt_bool_false_iff.
      pose proof (Forall_inv (Htaken a Ha)) as (_ & Hdead). now apply Hdead. }
    assert (Hactive : cur = filter (activeAt (timestamp log)) auraLogs).
    { rewrite Hcur, Hsplit, Hr, app_assoc, (filter_app _ (taken ++ pushed) left).
      rewrite (@filter_none _ (activeAt (timestamp log)) left).
      2:{ eapply Forall_impl; [|exact Hleft]. intros a Ha. cbn beta in Ha.
          unfold activeAt. destruct (Qle_bool (gainedAt a) (timestamp log)) eqn:E; [|reflexivity].
          apply Qle_bool_iff in E. lra. }
      rewrite app_nil_r. apply filter_ext_in'. intros a Ha. unfold activeAt.
      assert (Hg : gainedAt a <= timestamp log).
      { apply in_app_or in Ha. destruct Ha as [Ha|Ha].
        - now destruct (Forall_inv (Htaken a Ha)).
        - apply (proj1 (Forall_forall _ _) Hp a Ha). }
      apply Qle_bool_iff in Hg. now rewrite Hg. }
    destruct (@sortByName_perm cur) as (active & Hsort & Hperm).
    { rewrite Hactive. apply Forall_forall. intros a Ha. apply filter_In in Ha.
      apply (proj1 (Forall_forall _ _) Hid a). tauto. }
    rewrite Hsort. cbn [bind].
    destruct (IH (taken ++ pushed) left
                 (fun a : AuraUptimeLog => Qlt_bool (timestamp log) (fadedAt a)))
      as (out & Hout & Hall).
    + rewrite Hsplit, Hr. now rewrite app_assoc.
    + rewrite Hr in Hrest. now apply sorted_app_r in Hrest.
    + intros a Ha. apply Forall_forall. intros later Hin.
      pose proof (proj1 (Forall_forall _ _) Hlater later Hin) as Hle.
      unfold headerTimestamp in Hle. split.
      * apply in_app_or in Ha. destruct Ha as [Ha|Ha].
        -- pose proof (Htaken a Ha) as H. apply Forall_inv_tail in H.
           now destruct (proj1 (Forall_forall _ _) H later Hin).
        -- pose proof (proj1 (Forall_forall _ _) Hp a Ha) as H. cbn beta in H. lra.
      * intro Hdead. apply Qlt_bool_false_iff in Hdead. lra.
    + rewrite length_app in Hout. fold cur in Hout. rewrite <- Hcur in Hout. rewrite Hout.
      cbn [bind]. eexists. split; [reflexivity|].
      constructor; [|exact Hall]. now rewrite Hperm, Hactive.
Qed.

(** X15: for logs in the order of time and uptime logs in the order of their
    gain, each with an action, [populateActiveAuras] does not throw and gives
    every log exactly the auras that are up at its timestamp, gained by then
    and fading later, each once, in some order. *)
Theorem X15_active_auras (logs : list SimLogParams) (auraLogs : list AuraUptimeLog) :
  sortedBy headerTimestamp logs ->
  sortedBy gainedAt auraLogs ->
  Forall (fun a : AuraUptimeLog => actionId a <> None) auraLogs ->
  exists out,
    populateActiveAuras logs auraLogs = Ok out
    /\ Forall2 (fun (log : SimLogParams) active =>
                  Permutation active (filter (activeAt (timestamp log)) auraLogs))
               logs out.
Proof.
  intros Hlogs Hauras Hid. unfold populateActiveAuras.
  apply (@populateLoop_spec auraLogs logs Hlogs Hid [] auraLogs (fun _ => true)).
  - reflexivity.
  - assumption.
  - intros a [].
Qed.

(** ** [DamageDealtLog] and [Entity.equals] *)

Ltac by_word s :=
  repeat match goal with
         | |- context [String.eqb s ?lit] =>
             destruct (String.eqb_spec s lit); [subst s; cbn; repeat split; (lia || reflexivity || discriminate || tauto)|]
         end.

(** X16: a damage log delivered by [DamageDealtLog.parse] has consistent
    flags: [hit] is neither miss nor crit; at most one of miss, dodge, parry,
    crush, crit and glance is set; a block excludes miss, dodge, parry and
    crush; dodge, parry and crush leave [hit] set; at most one partial resist
    is set; and the amount has at most one of the kinds damage, healing and
    shielding. *)
Theorem X16_damage_flags (params : SimLogParams) (pr : Promise SimLog) :
  DamageDealtLog_parse params = Some pr ->
  exists d,
    settle pr = DamageDealt d
    /\ hit d = negb (miss d) && negb (crit d)
    /\ (flagsSet [miss d; dodge d; parry d; crush d; crit d; glance d] <= 1)%nat
    /\ (block d = true ->
        miss d = false /\ dodge d = false /\ parry d = false /\ crush d = false)
    /\ (dodge d = true \/ parry d = true \/ crush d = true -> hit d = true)
    /\ (flagsSet [partialResist1_4 d; partialResist2_4 d; partialResist3_4 d] <= 1)%nat
    /\ (flagsSet [isDamage d; isHealing d; isShielding d] <= 1)%nat.
Proof.
  unfold DamageDealtLog_parse.
  destruct (regexMatch Patterns.damageDealtRe (raw params)) as [m|]; [|discriminate].
  intro H. injection H as <-. eexists. split; [reflexivity|].
  unfold isDamage, isHealing, isShielding.
  cbn [hit miss crit dodge parry crush glance block partialResist1_4 partialResist2_4
       partialResist3_4 newDamageDealtLog isDamage isHealing isShielding type].
  split; [reflexivity|].
  unfold grpIs, flagsSet.
  split; [|split; [|split; [|split]]].
  - destruct (grp 3 m) as [s|]; [|cbn; lia]. by_word s. cbn. lia.
  - destruct (grp 3 m) as [s|]; [|discriminate]. by_word s. discriminate.
  - destruct (grp 3 m) as [s|]; [|cbn; intros [H|[H|H]]; discriminate]. by_word s.
    cbn. intros [H|[H|H]]; discriminate.
  - destruct (grp 15 m) as [s|]; [|cbn; lia]. by_word s. cbn. lia.
  - generalize (if grpTruthy 18 m then captured 18 m else ""). intro s. by_word s. cbn. lia.
Qed.

(** X17: for each of the ten outcome words of the damage pattern, [result]
    shows the word itself, except Critical Block for CriticalBlock, Blocked
    Glance for GlanceBlock and Tick for a Hit of a tick; a healing or
    shielding amount shows Healed or Shielded whatever the outcome. *)
Theorem X17_outcome_text (params : SimLogParams) (m : MatchResult) (word : string) :
  regexMatch Patterns.damageDealtRe (raw params) = Some m ->
  grp 3 m = Some word -> In word outcomeWords ->
  exists pr d,
    DamageDealtLog_parse params = Some pr
    /\ settle pr = DamageDealt d
    /\ (isHealing d = false -> isShielding d = false ->
        resultLabel d = outcomeText word (tick d))
    /\ (isHealing d = true -> resultLabel d = "Healed ")
    /\ (isShielding d = true -> resultLabel d = "Shielded ").
Proof.
  intros Hm Hw Hin. unfold DamageDealtLog_parse. rewrite Hm.
  eexists _, _. split; [reflexivity|]. split; [reflexivity|].
  unfold resultLabel, isHealing, isShielding.
  cbn [hit miss crit dodge parry crush glance block tick newDamageDealtLog type].
  unfold grpIs. rewrite Hw.
  set (ty := if grpTruthy 18 m then captured 18 m else "").
  set (tk := grpTruthy 2 m && includes (captured 2 m) "tick").
  split; [|split].
  - intros -> ->. cbn [orb negb].
    unfold outcomeWords in Hin. cbn [In] in Hin.
    repeat (destruct Hin as [<-|Hin]; [cbn; destruct tk; reflexivity|]). destruct Hin.
  - intros Hh. rewrite Hh. destruct (String.eqb_spec ty "healing") as [E|]; [|discriminate].
    rewrite E. reflexivity.
  - intros Hs. rewrite Hs. destruct (String.eqb_spec ty "shielding") as [E|]; [|discriminate].
    rewrite E. reflexivity.
Qed.

(** ** Entity.equals *)

(** X18: [Entity.equals] compares the target flag, the pet flag, the index
    and the name, and nothing else: it is reflexive, symmetric and
    transitive, and the name of the owner is ignored. *)
Theorem X18_entity_equals :
  (forall a b : Entity.t,
     Entity.equals a b = true
     <-> Entity.isTarget a = Entity.isTarget b /\ Entity.isPet a = Entity.isPet b
         /\ Entity.index a = Entity.index b /\ Entity.name a = Entity.name b)
  /\ (forall a, Entity.equals a a = true)
  /\ (forall a b, Entity.equals a b = Entity.equals b a)
  /\ (forall a b c, Entity.equals a b = true -> Entity.equals b c = true ->
                    Entity.equals a c = true)
  /\ (forall name owner1 owner2 index isTarget isPet,
        Entity.equals (Entity.make name owner1 index isTarget isPet)
                      (Entity.make name owner2 index isTarget isPet) = true).
Proof.
  assert (Hiff : forall a b : Entity.t,
     Entity.equals a b = true
     <-> Entity.isTarget a = Entity.isTarget b /\ Entity.isPet a = Entity.isPet b
         /\ Entity.index a = Entity.index b /\ Entity.name a = Entity.name b).
  { intros a b. unfold Entity.equals.
    rewrite !andb_true_iff, !Bool.eqb_true_iff, Z.eqb_eq, String.eqb_eq. tauto. }
  split; [exact Hiff|]. split; [|split; [|split]].
  - intro a. apply Hiff. repeat split.
  - intros a b. destruct (Entity.equals a b) eqn:E1; destruct (Entity.equals b a) eqn:E2;
      try reflexivity.
    + apply Hiff in E1. assert (Entity.equals b a = true) by (apply Hiff; intuition congruence).
      congruence.
    + apply Hiff in E2. assert (Entity.equals a b = true) by (apply Hiff; intuition congruence).
      congruence.
  - intros a b c H1 H2. apply Hiff in H1, H2. apply Hiff. intuition congruence.
  - intros. apply Hiff. repeat split.
Qed.

(** ** Casts and active auras: bounds *)

Lemma nextCcLog_is (completed : option (list CastCompletedLog)) (cbIdx : nat) :
  match completed with
  | Some cs =>
      if Nat.ltb cbIdx (List.length cs) && Nat.ltb (cbIdx + 1) (List.length cs)
      then nth_error cs (cbIdx + 1) else None
  | None => None
  end = completionAt completed (S cbIdx).
Proof.
  unfold completionAt. destruct completed as [cs|]; [|reflexivity].
  rewrite Nat.add_1_r.
  destruct (Nat.ltb (S cbIdx) (List.length cs)) eqn:E.
  - apply Nat.ltb_lt in E. assert (E' : Nat.ltb cbIdx (List.length cs) = true)
      by (apply Nat.ltb_lt; lia). now rewrite E'.
  - rewrite andb_false_r. apply Nat.ltb_ge in E. symmetry. now apply nth_error_None.
Qed.

Lemma ccLog_is (completed : option (list CastCompletedLog)) (cbIdx : nat) :
  match completed with
  | Some cs => if Nat.ltb cbIdx (List.length cs) then nth_error cs cbIdx else None
  | None => None
  end = completionAt completed cbIdx.
Proof.
  unfold completionAt. destruct completed as [cs|]; [|reflexivity].
  destruct (Nat.ltb cbIdx (List.length cs)) eqn:E; [reflexivity|].
  apply Nat.ltb_ge in E. symmetry. now apply nth_error_None.
Qed.

(** The loop from a cursor behind which every damage log is at or after the
    completion of the cast at hand. *)
Lemma castLoop_within (damage : list DamageDealtLog) (rest : list CastBeganLog) :
  sortedBy damageTimestamp damage ->
  forall cbIdx completed ddIdx,
    (forall cc, completionAt completed cbIdx = Some cc ->
       Forall (fun dd : DamageDealtLog => timestamp cc <= timestamp dd) (skipn ddIdx damage)) ->
    forall k c,
      nth_error (castLoop rest cbIdx completed (Some damage) ddIdx) k = Some c ->
      damageWithin (completionAt completed (S (cbIdx + k))) c.
Proof.
  intro Hsorted.
  induction rest as [|cbLog rest IH]; intros cbIdx completed ddIdx Hlow k c; cbn [castLoop].
  - destruct k; discriminate.
  - rewrite nextCcLog_is, ccLog_is.
    destruct (whileDamage_spec (completionAt completed (S cbIdx)) (skipn ddIdx damage) ddIdx)
      as (taken & left & Hsplit & Hw & _ & Hnext).
    rewrite Hw. destruct k as [|k]; cbn [nth_error].
    + intro H. injection H as <-. rewrite Nat.add_0_r.
      split; cbn [castCompletedLog damageDealtLogs].
      * intros cc Hcc. specialize (Hlow cc Hcc). rewrite Hsplit in Hlow.
        apply Forall_app in Hlow. tauto.
      * intros n Hn. now destruct (Hnext n Hn).
    + intro H. rewrite Nat.add_succ_r, <- Nat.add_succ_l.
      apply (IH (S cbIdx) completed (ddIdx + List.length taken)%nat); [|exact H].
      intros cc Hcc. rewrite (@skipn_more _ _ _ _ _ Hsplit).
      destruct (Hnext cc Hcc) as (_ & Hleft).
      destruct left as [|dd left]; [constructor|].
      assert (Hs : sortedBy damageTimestamp (dd :: left)).
      { rewrite <- (firstn_skipn ddIdx damage) in Hsorted. apply sorted_app_r in Hsorted.
        rewrite Hsplit in Hsorted. now apply sorted_app_r in Hsorted. }
      inversion Hs as [|? ? _ Hge]; subst. constructor; [assumption|].
      eapply Forall_impl; [|exact Hge]. intros x Hx. unfold damageTimestamp in Hx. lra.
Qed.

(** X21: in a bucket, every damage log of a cast is earlier than the next
    completion of the ability, when there is one; and when the damage logs of
    the bucket are in the order of time, every cast after the first holds
    only damage logs from its own completion on. *)
Theorem X21_cast_interval (abilityCastsBegan : list CastBeganLog)
    (abilityCastsCompleted : option (list CastCompletedLog))
    (abilityDamageDealt : list DamageDealtLog) :
  let casts :=
    castLoop abilityCastsBegan 0 abilityCastsCompleted (Some abilityDamageDealt) 0 in
  (forall k c next,
     nth_error casts k = Some c -> completionAt abilityCastsCompleted (S k) = Some next ->
     Forall (fun dd : DamageDealtLog => timestamp dd < timestamp next) (damageDealtLogs c))
  /\ (sortedBy damageTimestamp abilityDamageDealt ->
      forall k c, nth_error casts (S k) = Some c ->
        damageWithin (completionAt abilityCastsCompleted (S (S k))) c).
Proof.
  cbn zeta. split.
  - intros k c next Hc Hn.
    assert (Hgen : forall rest cbIdx ddIdx k c,
              nth_error (castLoop rest cbIdx abilityCastsCompleted (Some abilityDamageDealt)
                                  ddIdx) k = Some c ->
              forall n, completionAt abilityCastsCompleted (S (cbIdx + k)) = Some n ->
              Forall (fun dd : DamageDealtLog => timestamp dd < timestamp n)
                     (damageDealtLogs c)).
    { clear. induction rest as [|cbLog rest IH]; intros cbIdx ddIdx k c; cbn [castLoop].
      - destruct k; discriminate.
      - rewrite nextCcLog_is, ccLog_is.
        destruct (whileDamage_spec (completionAt abilityCastsCompleted (S cbIdx))
                                   (skipn ddIdx abilityDamageDealt) ddIdx)
          as (taken & left & Hsplit & Hw & _ & Hnext).
        rewrite Hw. destruct k as [|k]; cbn [nth_error].
        + intro H. injection H as <-. rewrite Nat.add_0_r. intros n Hn.
          now destruct (Hnext n Hn).
        + intros H n Hn. rewrite Nat.add_succ_r, <- Nat.add_succ_l in Hn.
          now apply (IH _ _ _ _ H n). }
    now apply (Hgen abilityCastsBegan 0%nat 0%nat k c Hc next).
  - intros Hsorted k c. destruct abilityCastsBegan as [|cbLog rest]; [discriminate|].
    cbn [castLoop]. rewrite nextCcLog_is, ccLog_is.
    destruct (whileDamage_spec (completionAt abilityCastsCompleted 1)
                               (skipn 0 abilityDamageDealt) 0)
      as (taken & left & Hsplit & Hw & _ & Hnext).
    rewrite Hw. cbn [nth_error]. intro H.
    change (S (S k)) with (S (1 + k)).
    apply (@castLoop_within abilityDamageDealt rest Hsorted 1%nat abilityCastsCompleted
                            (0 + List.length taken)%nat); [|exact H].
    intros cc Hcc. rewrite (@skipn_more _ _ _ _ _ Hsplit).
    destruct (Hnext cc Hcc) as (_ & Hleft).
    destruct left as [|dd left]; [constructor|].
    assert (Hs : sortedBy damageTimestamp (dd :: left)).
    { cbn [skipn] in Hsplit. rewrite Hsplit in Hsorted. now apply sorted_app_r in Hsorted. }
    inversion Hs as [|? ? _ Hge]; subst. constructor; [assumption|].
    eapply Forall_impl; [|exact Hge]. intros x Hx. unfold damageTimestamp in Hx. lra.
Qed.

(** ** populateActiveAuras, whatever the order of its arguments *)

Lemma mapM_snd {A B} (f : A -> Result (B * A)) (l : list A) (out : list (B * A)) :
  (forall a p, f a = Ok p -> snd p = a) ->
  mapM f l = Ok out -> map snd out = l.
Proof.
  intro Hf. revert out. induction l as [|a l IH]; intro out; cbn [mapM].
  - intro H. now injection H as <-.
  - destruct (f a) as [p|] eqn:Ep; cbn [bind]; [|discriminate].
    destruct (mapM f l) as [ps|]; cbn [bind]; [|discriminate].
    intro H. injection H as <-. cbn. now rewrite (Hf a p Ep), (IH ps eq_refl).
Qed.

Lemma sortByName_ok (l out : list AuraUptimeLog) :
  sortByName l = Ok out -> Permutation out l.
Proof.
  unfold sortByName. destruct l as [|a [|b l]]; try (intro H; injection H as <-; reflexivity).
  destruct (mapM _ (a :: b :: l)) as [named|] eqn:E; cbn [bind]; [|discriminate].
  intro H. injection H as <-.
  apply mapM_snd in E.
  - rewrite <- E. apply Permutation_map. apply sortWith_perm.
  - intros x p. destruct (actionId x); cbn; [|discriminate]. intro H. now injection H as <-.
Qed.

Lemma whileGained_in (t : number) (rest : list AuraUptimeLog) :
  forall idx a, In a (fst (whileGained t rest idx)) -> In a rest.
Proof.
  induction rest as [|x rest IH]; intros idx a; cbn [whileGained]; [intros []|].
  destruct (Qle_bool (gainedAt x) t); [|intros []].
  destruct (whileGained t rest (S idx)) as [pushed i] eqn:E. cbn [fst].
  intros [<-|H]; [now left|]. right. apply (IH (S idx)). now rewrite E.
Qed.

Lemma populateLoop_sound (auraLogs : list AuraUptimeLog) (logs : list SimLogParams) :
  forall cur idx out,
    (forall a, In a cur -> In a auraLogs) ->
    populateLoop logs auraLogs cur idx = Ok out ->
    Forall2 (fun (log : SimLogParams) active =>
               Forall (fun a : AuraUptimeLog =>
                         In a auraLogs /\ timestamp log < fadedAt a) active)
            logs out.
Proof.
  induction logs as [|log logs IH]; intros cur idx out Hcur; cbn [populateLoop].
  - intro H. injection H as <-. constructor.
  - destruct (whileGained (timestamp log) (skipn idx auraLogs) idx) as [pushed idx'] eqn:Ew.
    set (cur' := filter (fun curAura : AuraUptimeLog => Qlt_bool (timestamp log) (fadedAt curAura))
                        (cur ++ pushed)).
    assert (Hcur' : forall a, In a cur' -> In a auraLogs /\ timestamp log < fadedAt a).
    { intros a Ha. apply filter_In in Ha. destruct Ha as (Ha & Hf). split.
      - apply in_app_or in Ha. destruct Ha as [Ha|Ha]; [now apply Hcur|].
        assert (In a (skipn idx auraLogs)).
        { apply (@whileGained_in (timestamp log) _ idx). now rewrite Ew. }
        rewrite <- (firstn_skipn idx auraLogs). apply in_or_app. now right.
      - now apply Qlt_bool_iff. }
    destruct (sortByName cur') as [active|] eqn:Es; cbn [bind]; [|discriminate].
    destruct (populateLoop logs auraLogs cur' idx') as [rest|] eqn:Er; cbn [bind];
      [|discriminate].
    intro H. injection H as <-. constructor.
    + apply sortByName_ok in Es. apply Forall_forall. intros a Ha.
      apply Hcur'. eapply Permutation_in; eassumption.
    + apply (IH cur' idx'); [|exact Er]. intros a Ha. now apply Hcur'.
Qed.

(** X22: whatever the order of its inputs, when [populateActiveAuras]
    returns, it has given one list to every log, and every aura of the list
    of a log is one of the uptime logs and fades after the timestamp of the
    log. *)
Theorem X22_active_auras_sound (logs : list SimLogParams) (auraLogs : list AuraUptimeLog)
    (out : list (list AuraUptimeLog)) :
  populateActiveAuras logs auraLogs = Ok out ->
  List.length out = List.length logs
  /\ Forall2 (fun (log : SimLogParams) active =>
                Forall (fun a : AuraUptimeLog =>
                          In a auraLogs /\ timestamp log < fadedAt a) active)
             logs out.
Proof.
  intro H. unfold populateActiveAuras in H.
  assert (HF := @populateLoop_sound auraLogs logs [] 0%nat out (fun a (Ha : In a []) => match Ha with end) H).
  split; [|exact HF]. symmetry. eapply Forall2_length; eassumption.
Qed.

End FurtherProperties.

End Properties.

(** * The reference host: its matches of the entity pattern *)

Lemma run_sound (fuel : nat) :
  forall r inp caps k res,
    RefHost.run fuel r inp caps k = Some res ->
    exists inp' caps', RefHost.Matches r inp caps inp' caps' /\ k inp' caps' = Some res.
Proof.
  induction fuel as [|fuel IH]; intros r inp caps k res H; [discriminate|].
  destruct r as [s|c|r1 r2|r1 r2|g r1|g r1|r1|n r1]; cbn [RefHost.run] in H.
  - destruct (RefHost.stripPrefix (list_ascii_of_string s) inp) as [inp'|] eqn:E; [|discriminate].
    exists inp', caps. split; [now constructor|assumption].
  - destruct inp as [|a inp']; [discriminate|].
    destruct (c a) eqn:E; [|discriminate].
    exists inp', caps. split; [now constructor|assumption].
  - apply IH in H. destruct H as (inp1 & caps1 & H1 & H).
    apply IH in H. destruct H as (inp2 & caps2 & H2 & H).
    exists inp2, caps2. split; [econstructor; eassumption|assumption].
  - destruct (RefHost.run fuel r1 inp caps k) as [res1|] eqn:E.
    + injection H as <-. apply IH in E. destruct E as (inp' & caps' & H1 & Hk).
      exists inp', caps'. split; [now apply RefHost.M_AltL|assumption].
    + apply IH in H. destruct H as (inp' & caps' & H2 & Hk).
      exists inp', caps'. split; [now apply RefHost.M_AltR|assumption].
  - assert (Hmore : forall res',
              RefHost.run fuel r1 inp caps
                (fun inp' caps' =>
                   if Nat.ltb (List.length inp') (List.length inp)
                   then RefHost.run fuel (Star g r1) inp' caps' k else None) = Some res' ->
              exists inp' caps', RefHost.Matches (Star g r1) inp caps inp' caps'
                                 /\ k inp' caps' = Some res').
    { intros res' Hm. apply IH in Hm. destruct Hm as (inp1 & caps1 & H1 & Hm).
      destruct (Nat.ltb (List.length inp1) (List.length inp)); [|discriminate].
      apply IH in Hm. destruct Hm as (inp2 & caps2 & H2 & Hk).
      exists inp2, caps2. split; [econstructor; eassumption|assumption]. }
    destruct g.
    + destruct (RefHost.run fuel r1 inp caps _) as [res1|] eqn:E.
      * injection H as <-. now apply Hmore.
      * exists inp, caps. split; [constructor|assumption].
    + destruct (k inp caps) as [res0|] eqn:E0.
      * injection H as <-. exists inp, caps. split; [constructor|assumption].
      * now apply Hmore.
  - apply IH in H. destruct H as (inp' & caps' & H1 & Hk).
    exists inp', caps'. split; [now constructor|assumption].
  - destruct (RefHost.run fuel r1 inp caps k) as [res1|] eqn:E.
    + injection H as <-. apply IH in E. destruct E as (inp' & caps' & H1 & Hk).
      exists inp', caps'. split; [now apply RefHost.M_OptS|assumption].
    + exists inp, caps. split; [constructor|assumption].
  - apply IH in H. destruct H as (inp' & caps' & H1 & Hk).
    eexists _, _. split; [apply RefHost.M_Group; eassumption|assumption].
Qed.

Lemma stripPrefix_length (p inp inp' : list ascii) :
  RefHost.stripPrefix p inp = Some inp' ->
  List.length inp = (List.length p + List.length inp')%nat.
Proof.
  revert inp. induction p as [|a p IH]; intros inp H; cbn in H.
  - injection H as <-. reflexivity.
  - destruct inp as [|b inp]; [discriminate|].
    destruct (Ascii.eqb a b); [|discriminate].
    cbn. f_equal. now apply IH.
Qed.

Lemma length_list_ascii_of_string (s : string) :
  List.length (list_ascii_of_string s) = String.length s.
Proof. induction s as [|c s IH]; cbn; auto. Qed.

(** A match takes at least [minLen] characters. *)
Lemma Matches_minLen (r : Regex) (inp inp' : list ascii) (caps caps' : RefHost.Caps) :
  RefHost.Matches r inp caps inp' caps' ->
  (List.length inp' + RefHost.minLen r <= List.length inp)%nat.
Proof.
  induction 1; cbn [RefHost.minLen List.length] in *; try lia.
  apply stripPrefix_length in H. rewrite length_list_ascii_of_string in H. lia.
Qed.

Lemma setCap_same (n : nat) (v : string) (caps : RefHost.Caps) :
  nth n (RefHost.setCap n v caps) None = Some v.
Proof.
  revert caps. induction n as [|n IH]; intros [|c caps]; cbn; auto.
Qed.

Lemma setCap_other (n k : nat) (v : string) (caps : RefHost.Caps) :
  k <> n -> nth k (RefHost.setCap n v caps) None = nth k caps None.
Proof.
  revert k caps. induction n as [|n IH]; intros [|k] [|c caps] Hne; cbn; auto; try congruence.
  - now destruct k.
  - rewrite IH by congruence. now destruct k.
Qed.

Lemma consumed_nonempty (inp inp' : list ascii) :
  (List.length inp' < List.length inp)%nat ->
  String.eqb (RefHost.consumed inp inp') "" = false.
Proof.
  intro H. unfold RefHost.consumed.
  destruct inp as [|a inp]; [cbn in H; lia|].
  destruct (List.length (a :: inp) - List.length inp')%nat as [|n] eqn:E; [lia|].
  reflexivity.
Qed.

Lemma Group_filled (n : nat) (r : Regex) (inp inp' : list ascii) (caps caps' : RefHost.Caps) :
  RefHost.Matches (Group n r) inp caps inp' caps' ->
  (1 <= RefHost.minLen r)%nat ->
  RefHost.filled n caps'.
Proof.
  intros H Hmin. inversion H; subst.
  exists (RefHost.consumed inp inp'). split; [apply setCap_same|].
  apply consumed_nonempty.
  match goal with Hm : RefHost.Matches r _ _ _ _ |- _ => apply Matches_minLen in Hm end. lia.
Qed.

Ltac invert_alt :=
  match goal with
  | H : RefHost.Matches (Alt _ _) _ _ _ _ |- _ => inversion H; subst; clear H
  end.

Ltac invert_seq :=
  match goal with
  | H : RefHost.Matches (Seq _ _) _ _ _ _ |- _ => inversion H; subst; clear H
  end.

Ltac invert_lit :=
  match goal with
  | H : RefHost.Matches (Lit _) _ _ _ _ |- _ => inversion H; subst; clear H
  end.

Lemma entityRe_filled (inp inp' : list ascii) (caps caps' : RefHost.Caps) :
  RefHost.Matches Patterns.entityRe inp caps inp' caps' ->
  RefHost.filled 1 caps' \/ RefHost.filled 3 caps' \/ RefHost.filled 7 caps'.
Proof.
  unfold Patterns.entityRe. intro H.
  invert_alt.
  - invert_alt.
    + invert_seq. left. eapply Group_filled; [eassumption|cbn; lia].
    + right. left. eapply Group_filled; [eassumption|cbn; lia].
  - invert_seq. invert_lit.
    right. right. eapply Group_filled; [eassumption|cbn; lia].
Qed.

Lemma search_matches (r : Regex) (inp : list ascii) :
  forall pos m rest,
    RefHost.search r inp pos = Some (m, rest) ->
    exists inp0 caps,
      RefHost.matchHere r inp0 = Some (rest, caps)
      /\ groups m = RefHost.setCap 0 (RefHost.consumed inp0 rest) caps.
Proof.
  induction inp as [|a inp IH]; intros pos m rest H; cbn [RefHost.search] in H.
  - destruct (RefHost.matchHere r []) as [[inp' caps]|] eqn:E; [|discriminate].
    injection H as <- <-. exists [], caps. split; [assumption|reflexivity].
  - destruct (RefHost.matchHere r (a :: inp)) as [[inp' caps]|] eqn:E.
    + injection H as <- <-. exists (a :: inp), caps. split; [assumption|reflexivity].
    + now apply IH in H.
Qed.

Lemma searchAll_matches (r : Regex) (fuel : nat) :
  forall inp pos m,
    In m (RefHost.searchAll fuel r inp pos) ->
    exists inp0 pos0 rest, RefHost.search r inp0 pos0 = Some (m, rest).
Proof.
  induction fuel as [|fuel IH]; intros inp pos m H; cbn [RefHost.searchAll] in H; [destruct H|].
  destruct (RefHost.search r inp pos) as [[m0 rest]|] eqn:E; [|destruct H].
  destruct (String.length (captured 0 m0)) as [|len].
  - destruct rest as [|c rest'].
    + destruct H as [<-|[]]. now exists inp, pos, [].
    + destruct H as [<-|H]; [now exists inp, pos, (c :: rest')|]. now apply IH in H.
  - destruct H as [<-|H]; [now exists inp, pos, rest|]. now apply IH in H.
Qed.

(** The reference host delivers only labelled entity matches. *)
Lemma refHost_entityMatchesLabelled : @entityMatchesLabelled RefHost.host.
Proof.
  intros str m Hin. cbn [regexMatchAll RefHost.host] in Hin.
  unfold RefHost.regexMatchAll in Hin.
  apply searchAll_matches in Hin. destruct Hin as (inp0 & pos0 & rest & Hs).
  apply search_matches in Hs. destruct Hs as (inp1 & caps & Hm & Hg).
  unfold RefHost.matchHere in Hm. apply run_sound in Hm.
  destruct Hm as (inp' & caps' & HM & Hk). injection Hk as -> ->.
  assert (Hgrp : forall k, k <> 0%nat -> RefHost.filled k caps ->
                           grpTruthy k m = true).
  { intros k Hk (v & Hv & Hne). unfold grpTruthy, grp. rewrite Hg.
    rewrite setCap_other by assumption. rewrite Hv. now rewrite Hne. }
  destruct (entityRe_filled HM) as [H|[H|H]].
  - rewrite (Hgrp 1%nat) by (auto; lia). reflexivity.
  - rewrite (Hgrp 3%nat) by (auto; lia). now rewrite orb_true_r.
  - rewrite (Hgrp 7%nat) by (auto; lia). now rewrite orb_true_r.
Qed.

(** * Integers as text: writing and reading back *)

Lemma string_app_assoc (s1 s2 s3 : string) :
  ((s1 ++ s2) ++ s3 = s1 ++ (s2 ++ s3))%string.
Proof. induction s1 as [|c s1 IH]; cbn; [reflexivity|]. now rewrite IH. Qed.

Lemma string_of_list_ascii_app (l1 l2 : list ascii) :
  string_of_list_ascii (l1 ++ l2)
  = (string_of_list_ascii l1 ++ string_of_list_ascii l2)%string.
Proof. induction l1 as [|c l1 IH]; cbn; [reflexivity|]. now rewrite IH. Qed.

Lemma digit_range (c : ascii) :
  digit c = true -> (0 <= digitValue c <= 9)%Z /\ digitChar (digitValue c) = c.
Proof.
  unfold digit, inRange, digitValue, digitChar. intro H.
  apply andb_true_iff in H. destruct H as (H1 & H2).
  apply Nat.leb_le in H1, H2. split; [lia|].
  rewrite Nat2Z.id. replace (48 + (nat_of_ascii c - 48))%nat with (nat_of_ascii c) by lia.
  apply ascii_nat_embedding.
Qed.

Lemma showDigits_acc (fuel : nat) :
  forall n acc, showDigits fuel n acc = (showDigits fuel n "" ++ acc)%string.
Proof.
  induction fuel as [|fuel IH]; intros n acc; cbn [showDigits]; [reflexivity|].
  destruct (n <? 10)%Z; [reflexivity|].
  rewrite IH. rewrite (IH _ (String _ "")). rewrite string_app_assoc. reflexivity.
Qed.
Lemma enough_step (fuel : nat) (n : Z) :
  enough (S fuel) n -> (10 <= n)%Z -> enough fuel (n / 10).
Proof.
  intros (_ & H0 & Hlt) Hn. rewrite Nat2Z.inj_succ, Z.pow_succ_r in Hlt by lia.
  assert (Hf : (1 <= fuel)%nat).
  { destruct fuel; [cbn in Hlt; lia|lia]. }
  split; [exact Hf|]. split; [apply Z.div_pos; lia|].
  apply Z.div_lt_upper_bound; [lia|].
  assert (0 < 2 ^ Z.of_nat fuel)%Z by (apply Z.pow_pos_nonneg; lia). lia.
Qed.

Lemma showDigits_fuel (f1 : nat) :
  forall f2 n acc, enough f1 n -> enough f2 n -> showDigits f1 n acc = showDigits f2 n acc.
Proof.
  induction f1 as [|f1 IH]; intros f2 n acc H1 H2; [destruct H1; lia|].
  destruct f2 as [|f2]; [destruct H2; lia|].
  cbn [showDigits]. destruct (n <? 10)%Z eqn:E; [reflexivity|].
  apply Z.ltb_ge in E. apply IH; now apply enough_step.
Qed.

Lemma enough_log2 (n : Z) : (0 <= n)%Z -> enough (S (Z.to_nat (Z.log2 n))) n.
Proof.
  intro H. split; [lia|]. split; [assumption|].
  rewrite Nat2Z.inj_succ, Z2Nat.id by apply Z.log2_nonneg.
  destruct (Z.eq_dec n 0) as [->|Hne]; [cbn; lia|].
  apply Z.log2_spec. lia.
Qed.

Lemma showNat_small (n : Z) :
  (0 <= n < 10)%Z -> showNat n = String (digitChar n) "".
Proof.
  intro H. unfold showNat. cbn [showDigits].
  assert (E : (n <? 10)%Z = true) by (apply Z.ltb_lt; lia). rewrite E.
  now rewrite Z.mod_small by lia.
Qed.

Lemma showNat_step (n : Z) :
  (10 <= n)%Z ->
  showNat n = (showNat (n / 10) ++ String (digitChar (n mod 10)) "")%string.
Proof.
  intro H. unfold showNat at 1. cbn [showDigits].
  assert (E : (n <? 10)%Z = false) by (apply Z.ltb_ge; lia). rewrite E.
  rewrite showDigits_acc. f_equal. unfold showNat.
  apply showDigits_fuel.
  - apply enough_step; [apply enough_log2; lia|assumption].
  - apply enough_log2. apply Z.div_pos; lia.
Qed.

Lemma decimalValue_snoc (digits : list ascii) (c : ascii) :
  decimalValue (digits ++ [c]) = (10 * decimalValue digits + digitValue c)%Z.
Proof. unfold decimalValue. now rewrite fold_left_app. Qed.

Lemma decimalValue_nonneg (digits : list ascii) :
  Forall (fun c => digit c = true) digits -> (0 <= decimalValue digits)%Z.
Proof.
  induction digits as [|c digits IH] using rev_ind; intro H; [cbn; lia|].
  apply Forall_app in H. destruct H as (Hd & Hc). apply Forall_inv in Hc.
  rewrite decimalValue_snoc. specialize (IH Hd). destruct (digit_range c Hc). lia.
Qed.

Lemma decimalValue_pos (c : ascii) (digits : list ascii) :
  Forall (fun c => digit c = true) (c :: digits) -> c <> "0"%char ->
  (0 < decimalValue (c :: digits))%Z.
Proof.
  induction digits as [|d digits IH] using rev_ind; intros H Hc.
  - apply Forall_inv in H. destruct (digit_range c H) as (Hr & Hch).
    unfold decimalValue. cbn [fold_left].
    destruct (Z.eq_dec (digitValue c) 0) as [E|E]; [|lia].
    exfalso. apply Hc. rewrite <- Hch, E. reflexivity.
  - change (c :: digits ++ [d]) with ((c :: digits) ++ [d]) in *.
    apply Forall_app in H. destruct H as (Hd & Hlast). apply Forall_inv in Hlast.
    rewrite decimalValue_snoc. specialize (IH Hd Hc). destruct (digit_range d Hlast). lia.
Qed.

(** Printing the value of a canonical numeral gives the numeral back. *)
Lemma showNat_decimalValue (digits : list ascii) :
  canonical digits -> showNat (decimalValue digits) = string_of_list_ascii digits.
Proof.
  induction digits as [|c digits IH] using rev_ind; intros (Hall & Hcan); [destruct Hcan|].
  apply Forall_app in Hall. destruct Hall as (Hd & Hc). apply Forall_inv in Hc.
  destruct (digit_range c Hc) as (Hr & Hch).
  rewrite decimalValue_snoc.
  destruct digits as [|c0 digits].
  - change (decimalValue []) with 0%Z. rewrite Z.mul_0_r, Z.add_0_l.
    rewrite showNat_small by lia. rewrite Hch. reflexivity.
  - assert (Hc0 : c0 <> "0"%char).
    { cbn [app] in Hcan. destruct (digits ++ [c]) eqn:E; [|assumption].
      destruct digits; discriminate. }
    pose proof (decimalValue_pos Hd Hc0) as Hpos.
    rewrite showNat_step by lia.
    replace ((10 * decimalValue (c0 :: digits) + digitValue c) / 10)%Z
      with (decimalValue (c0 :: digits)).
    2:{ symmetry. rewrite Z.mul_comm. rewrite Z.div_add_l by lia.
        rewrite Z.div_small by lia. lia. }
    replace ((10 * decimalValue (c0 :: digits) + digitValue c) mod 10)%Z with (digitValue c).
    2:{ symmetry. rewrite Z.add_comm, Z.mul_comm, Z.mod_add by lia. apply Z.mod_small. lia. }
    rewrite IH.
    + rewrite Hch. now rewrite string_of_list_ascii_app.
    + split; [assumption|]. destruct digits; [exact I|exact Hc0].
Qed.

Lemma digitsValue_digits (digits : list ascii) :
  Forall (fun c => digit c = true) digits ->
  forall acc,
    RefHost.digitsValue digits acc
    = (fold_left (fun acc c => (10 * acc + digitValue c)%Z) digits acc, []).
Proof.
  induction 1 as [|c digits Hc _ IH]; intro acc; cbn [RefHost.digitsValue fold_left].
  - reflexivity.
  - rewrite Hc. apply IH.
Qed.

(** Below 2^53 every integer is a double. *)
Lemma nearestDouble_safe (n : Z) :
  (0 <= n < 2 ^ 53)%Z -> RefHost.nearestDouble n = n.
Proof.
  intros (H0 & H53). unfold RefHost.nearestDouble. cbv zeta.
  assert (E : (Z.log2 n - 52 <=? 0)%Z = true).
  { apply Z.leb_le. destruct (Z.eq_dec n 0) as [->|Hn]; [cbn; lia|].
    assert (Z.log2 n < 53)%Z by (apply Z.log2_lt_pow2; lia). lia. }
  now rewrite E.
Qed.

(** The reference [parseInt] reads a numeral as the double nearest to its
    value. *)
Lemma parseInt_digits (digits : list ascii) :
  digits <> [] -> Forall (fun c => digit c = true) digits ->
  RefHost.parseInt (string_of_list_ascii digits)
  = RefHost.nearestDouble (decimalValue digits).
Proof.
  intros Hne Hall. unfold RefHost.parseInt. rewrite list_ascii_of_string_of_list_ascii.
  destruct digits as [|c digits]; [congruence|].
  unfold RefHost.stripSign.
  assert (E : Ascii.eqb c "-" = false).
  { apply Forall_inv in Hall. destruct (Ascii.eqb_spec c "-") as [->|]; [discriminate Hall|reflexivity]. }
  rewrite E. now rewrite digitsValue_digits.
Qed.

(** * The reference host: the shape of an entity match *)

Lemma stripPrefix_app (p inp inp' : list ascii) :
  RefHost.stripPrefix p inp = Some inp' -> inp = p ++ inp'.
Proof.
  revert inp. induction p as [|a p IH]; intros inp H; cbn in H.
  - now injection H as <-.
  - destruct inp as [|b inp]; [discriminate|].
    destruct (Ascii.eqb_spec a b) as [->|]; [|discriminate].
    cbn. f_equal. now apply IH.
Qed.

Lemma consumed_app (pre inp' : list ascii) :
  RefHost.consumed (pre ++ inp') inp' = string_of_list_ascii pre.
Proof.
  unfold RefHost.consumed. rewrite length_app.
  replace (List.length pre + List.length inp' - List.length inp')%nat
    with (List.length pre + 0)%nat by lia.
  rewrite firstn_app_2. cbn. now rewrite app_nil_r.
Qed.

Lemma consumed_app4 (a b c d rest : list ascii) :
  RefHost.consumed (a ++ b ++ c ++ d ++ rest) rest = string_of_list_ascii (a ++ b ++ c ++ d).
Proof. rewrite <- consumed_app with (inp' := rest). now rewrite <- !app_assoc. Qed.

Lemma consumed_app5 (a b c d e rest : list ascii) :
  RefHost.consumed (a ++ b ++ c ++ d ++ e ++ rest) rest
  = string_of_list_ascii (a ++ b ++ c ++ d ++ e).
Proof. rewrite <- consumed_app with (inp' := rest). now rewrite <- !app_assoc. Qed.

Lemma Matches_Lit (s : string) (inp inp' : list ascii) (caps caps' : RefHost.Caps) :
  RefHost.Matches (Lit s) inp caps inp' caps' ->
  caps' = caps /\ inp = list_ascii_of_string s ++ inp'.
Proof.
  intro H. inversion H; subst. split; [reflexivity|]. now apply stripPrefix_app.
Qed.

Lemma Matches_Star_Chr (g : bool) (c : ascii -> bool) (inp inp' : list ascii)
    (caps caps' : RefHost.Caps) :
  RefHost.Matches (Star g (Chr c)) inp caps inp' caps' ->
  caps' = caps /\ exists pre, inp = pre ++ inp' /\ Forall (fun a => c a = true) pre.
Proof.
  intro H. remember (Star g (Chr c)) as r eqn:Er.
  induction H; try discriminate Er; injection Er as -> ->.
  - split; [reflexivity|]. exists []. split; [reflexivity|constructor].
  - inversion H; subst.
    destruct (IHMatches2 eq_refl) as (-> & pre & -> & Hpre).
    split; [reflexivity|]. exists (a :: pre). split; [reflexivity|]. now constructor.
Qed.

Lemma Matches_Plus_Chr (g : bool) (c : ascii -> bool) (inp inp' : list ascii)
    (caps caps' : RefHost.Caps) :
  RefHost.Matches (Plus g (Chr c)) inp caps inp' caps' ->
  caps' = caps
  /\ exists pre, inp = pre ++ inp' /\ pre <> [] /\ Forall (fun a => c a = true) pre.
Proof.
  intro H. inversion H as [| | | | | | |? ? ? ? ? ? Hseq| | |]; subst.
  inversion Hseq as [| |? ? ? ? ? ? ? ? H1 H2| | | | | | | |]; subst.
  inversion H1; subst.
  destruct (Matches_Star_Chr H2) as (-> & pre & -> & Hpre).
  split; [reflexivity|]. exists (a :: pre). split; [reflexivity|].
  split; [discriminate|now constructor].
Qed.

(** A captured group. *)
Lemma Matches_Group (n : nat) (r : Regex) (inp inp' : list ascii) (caps caps' : RefHost.Caps) :
  RefHost.Matches (Group n r) inp caps inp' caps' ->
  exists caps1,
    RefHost.Matches r inp caps inp' caps1
    /\ caps' = RefHost.setCap n (RefHost.consumed inp inp') caps1.
Proof. intro H. inversion H; subst. eexists. split; [eassumption|reflexivity]. Qed.

Lemma Matches_Seq (r1 r2 : Regex) (inp inp' : list ascii) (caps caps' : RefHost.Caps) :
  RefHost.Matches (Seq r1 r2) inp caps inp' caps' ->
  exists inp1 caps1,
    RefHost.Matches r1 inp caps inp1 caps1 /\ RefHost.Matches r2 inp1 caps1 inp' caps'.
Proof. intro H. inversion H; subst. eexists _, _. split; eassumption. Qed.

Lemma Matches_Alt (r1 r2 : Regex) (inp inp' : list ascii) (caps caps' : RefHost.Caps) :
  RefHost.Matches (Alt r1 r2) inp caps inp' caps' ->
  RefHost.Matches r1 inp caps inp' caps' \/ RefHost.Matches r2 inp caps inp' caps'.
Proof. intro H. inversion H; subst; [now left|now right]. Qed.
Ltac read_match :=
  match goal with
  | H : RefHost.Matches (Seq _ _) _ _ _ _ |- _ =>
      let inp1 := fresh "inp" in
      let caps1 := fresh "caps" in
      let H1 := fresh "Hm" in
      let H2 := fresh "Hm" in
      apply Matches_Seq in H; destruct H as (inp1 & caps1 & H1 & H2)
  | H : RefHost.Matches (Group _ _) _ _ _ _ |- _ =>
      let caps1 := fresh "caps" in
      let E := fresh "Ecaps" in
      apply Matches_Group in H; destruct H as (caps1 & H & E)
  | H : RefHost.Matches (Lit _) _ _ _ _ |- _ =>
      let E := fresh "Elit" in
      let Ec := fresh "Ecaps" in
      apply Matches_Lit in H; destruct H as (Ec & E); cbn [list_ascii_of_string] in E
  | H : RefHost.Matches (Plus _ (Chr _)) _ _ _ _ |- _ =>
      let pre := fresh "pre" in
      let E := fresh "Epre" in
      let Ec := fresh "Ecaps" in
      let Hne := fresh "Hne" in
      let Hall := fresh "Hall" in
      apply Matches_Plus_Chr in H; destruct H as (Ec & pre & E & Hne & Hall)
  end.

Lemma app_string_cons (c : ascii) (l : list ascii) (s : string) :
  (string_of_list_ascii (c :: l) ++ s)%string = String c (string_of_list_ascii l ++ s)%string.
Proof. reflexivity. Qed.

Lemma entityRe_shape (inp inp' : list ascii) (caps caps' : RefHost.Caps) :
  RefHost.Matches Patterns.entityRe inp caps inp' caps' ->
  nth 1 caps None = None -> nth 3 caps None = None ->
  targetShape caps' \/ petShape caps' \/ playerShape caps'.
Proof.
  unfold Patterns.entityRe. intros H H1 H3.
  apply Matches_Alt in H. destruct H as [H|H]; [apply Matches_Alt in H; destruct H as [H|H]|].
  - (* a target *)
    left. repeat read_match. subst.
    match goal with
    | Hd : Forall (fun a => digit a = true) ?d |- _ => exists d
    end.
    split; [assumption|]. split; [assumption|].
    rewrite setCap_same. rewrite setCap_other by lia. rewrite setCap_same.
    rewrite app_assoc, !consumed_app, string_of_list_ascii_app. split; reflexivity.
  - (* a pet *)
    right. left. repeat read_match. subst.
    match goal with
    | Ho : Forall (fun a => alnum a = true) ?o, Hd : Forall (fun a => digit a = true) ?d,
      Hn : Forall (fun a => petNameChar a = true) ?n |- _ => exists o, d, n
    end.
    split; [assumption|]. split; [assumption|]. split; [assumption|].
    rewrite !setCap_same.
    repeat (rewrite setCap_other by lia; rewrite ?setCap_same).
    split; [assumption|].
    rewrite consumed_app5, !consumed_app, !string_of_list_ascii_app. repeat split.
  - (* a player *)
    right. right. repeat read_match. subst.
    match goal with
    | Hn : Forall (fun a => alnumSpace a = true) ?n, Hd : Forall (fun a => digit a = true) ?d
      |- _ => exists n, d
    end.
    split; [assumption|]. split; [assumption|]. split; [assumption|].
    rewrite !setCap_same.
    repeat (rewrite setCap_other by lia; rewrite ?setCap_same).
    split; [assumption|]. split; [assumption|].
    rewrite consumed_app4, !consumed_app, !string_of_list_ascii_app. repeat split.
Qed.

(** * The properties on the sample logs *)

#[local] Existing Instance RefHost.ids.
#[local] Existing Instance RefHost.host.

(** C2, the sample casts: the damage log at time 1 precedes the completion
    at time 2 of the first cast and yet belongs to it; the interval from this
    completion to the next, from 2 to 4, holds no damage log at all. *)
Lemma C2_damage_before_first_completion :
  CastLog_fromLogs Sample.casts
  = Ok [ newCastLog Sample.began0 (Some Sample.completed2) [Sample.damage1];
         newCastLog Sample.began3 (Some Sample.completed4) [Sample.damage5] ]
  /\ timestamp Sample.damage1 < timestamp Sample.completed2
  /\ filter (fun d : DamageDealtLog =>
               Qle_bool (timestamp Sample.completed2) (timestamp d)
               && Qlt_bool (timestamp d) (timestamp Sample.completed4))
            (filterType isDamageDealt Sample.casts) = [].
Proof.
  split; [vm_compute; reflexivity|]. split; [reflexivity|]. vm_compute. reflexivity.
Qed.


(** C5 as stated fails on two auras gained at one time of which the second
    fades and the first does not: the log of the second comes first. *)
Lemma C5_counterexample :
  exists u v,
    AuraUptimeLog_fromLogs Sample.twoGains Sample.bob 300 = Ok [u; v]
    /\ gainedAt u == gainedAt v
    /\ logIndex u = 1%nat /\ logIndex v = 0%nat
    /\ ~ tiesInGainOrder [u; v].
Proof.
  eexists _, _. split; [vm_compute; reflexivity|].
  split; [reflexivity|]. split; [reflexivity|]. split; [reflexivity|].
  intro H. specialize (H 0%nat 1%nat _ _ (Nat.lt_0_1) eq_refl eq_refl (Qeq_refl _)).
  vm_compute in H. lia.
Qed.

(** C7 as stated fails in double precision.  A log of 0.1 at time 0 and a
    log of 0.02 at time 15: the window of the second holds the second log
    alone, and its dps is (0.1 + 0.02 - 0.1) / 15, which is not 0.02 / 15.
    And with two amounts beyond the largest double the second dps is
    Infinity - Infinity over 15, that is NaN; the code warns and emits it. *)
Lemma C7_counterexample :
  (exists o1 o2,
     DpsLog_fromLogs [Sample.tenth; Sample.fiftieth] = Ok [o1; o2]
     /\ timestamp Sample.tenth <= timestamp Sample.fiftieth - 15
     /\ timestamp Sample.fiftieth - 15 < timestamp Sample.fiftieth
     /\ PrimFloat.eqb (dps o2)
                      (PrimFloat.div (toDouble (amount Sample.fiftieth)) DPS_WINDOW)
        = false)
  /\ (exists o1 o2,
        DpsLog_run [Sample.huge0; Sample.huge16] = Ok ([o1; o2], ["NaN dps!"])
        /\ PrimFloat.is_nan (dps o2) = true).
Proof.
  split.
  - eexists _, _. split; [vm_compute; reflexivity|].
    split; [vm_compute; discriminate|]. split; reflexivity.
  - eexists _, _. split; [vm_compute; reflexivity|]. reflexivity.
Qed.

(** C9 as stated fails on a line whose timestamp is not at its start: the
    line has no leading timestamp, and yet it is parsed as an aura event at
    time 1.5. *)
Lemma C9_counterexample :
  noLeadingTimestamp Sample.lateTimestamp
  /\ (exists l, parseAll [0%nat] (mkRaidSimResult Sample.lateTimestamp) = Fulfilled [AuraEvent l]
                /\ timestamp l == 3 # 2)
  /\ ~ (exists p, parseAll [0%nat] (mkRaidSimResult Sample.lateTimestamp) = Fulfilled [Plain p]
                  /\ timestamp p == 0).
Proof.
  split; [|split].
  - intros m Hm. vm_compute in Hm. injection Hm as <-. discriminate.
  - eexists. split; [vm_compute; reflexivity|]. reflexivity.
  - intros (p & Hp & _). vm_compute in Hp. discriminate Hp.
Qed.

(** ** Witnesses *)

Lemma threeLines_cover :
  forall i, (i < List.length (split_newline (logs Sample.threeLines)))%nat -> In i [2; 0; 1]%nat.
Proof.
  intros i H. change (i < 3)%nat in H.
  destruct i as [|[|[|i]]]; cbn; auto. lia.
Defined.

Lemma C1_parseAll_order_witness :
  exists events,
    parseAll [2; 0; 1]%nat Sample.threeLines = Fulfilled events
    /\ List.length events = 3%nat
    /\ forall i line, nth_error (split_newline (logs Sample.threeLines)) i = Some line ->
         exists e, nth_error events i = Some e
                   /\ logIndex (header e) = i /\ raw (header e) = line.
Proof.
  destruct (@C1_parseAll_order RefHost.ids RefHost.host [2; 0; 1]%nat Sample.threeLines
              refHost_entityMatchesLabelled threeLines_cover)
    as (events & Hall & Hlen & Hnth & _).
  exists events. split; [exact Hall|]. split; [exact Hlen|exact Hnth].
Defined.

Lemma C9_generic_fallback_witness :
  exists events p,
    parseAll [2; 0; 1]%nat Sample.threeLines = Fulfilled events
    /\ nth_error events 1 = Some (Plain p)
    /\ raw p = "hello" /\ logIndex p = 1%nat /\ timestamp p = 0
    /\ source p = None /\ target p = None.
Proof.
  destruct (@C9_generic_fallback RefHost.ids RefHost.host [2; 0; 1]%nat Sample.threeLines
              refHost_entityMatchesLabelled threeLines_cover)
    as (events & Hall & _ & Hlines).
  destruct (Hlines 1%nat "hello" eq_refl) as (Hno & _).
  destruct (Hno eq_refl) as (_ & Hev & Hraw & Hidx & Hts & Hsrc & Htgt & _).
  exists events, (fst (annotations "hello" 1)).
  repeat split; assumption.
Defined.

Lemma sample_from_bob (text : string) (i : nat) (t : number) (a : RefHost.Id) :
  fromEntity Sample.bob (Sample.hdr text i t a).
Proof. exists Sample.bob. split; reflexivity. Defined.

Lemma C3_aura_reconstruction_witness :
  exists u,
    AuraUptimeLog_fromLogs Sample.gainStacksFade Sample.bob 300 = Ok [u]
    /\ gainedAt u = 1 /\ fadedAt u = 5 /\ stacksChange u = [Sample.stacksA].
Proof.
  destruct (@C3_aura_reconstruction RefHost.ids Sample.bob)
    as (_ & _ & _ & _ & _ & _ & _ & Hexample & _).
  apply (Hexample Sample.gainA Sample.fadeA Sample.stacksA Sample.idA 300).
  - apply sample_from_bob.
  - apply sample_from_bob.
  - exists Sample.bob. split; reflexivity.
  - reflexivity.
  - reflexivity.
  - reflexivity.
  - reflexivity.
  - reflexivity.
  - reflexivity.
  - reflexivity.
  - reflexivity.
Defined.



Lemma twoGains_identified : Forall identified Sample.twoGains.
Proof. repeat constructor; discriminate. Defined.

Lemma C5_sorted_stable_witness :
  exists st out,
    AuraUptimeLog_fromLogs Sample.twoGains Sample.bob 300 = Ok out
    /\ sortedBy gainedAt out
    /\ inInputOrder Sample.twoGains st.
Proof.
  destruct (@C5_sorted_stable RefHost.ids Sample.twoGains Sample.bob 300 twoGains_identified)
    as (st & out & _ & Hout & Hsorted & _ & _ & _ & Horder).
  exists st, out. split; [exact Hout|]. split; [exact Hsorted|exact Horder].
Defined.

Lemma C6_travelTime_witness :
  travelTime Sample.travelling = timestamp Sample.damage5 - timestamp Sample.completed2
  /\ 0 < travelTime Sample.travelling.
Proof.
  destruct (@C6_travelTime RefHost.ids Sample.began0 (Some Sample.completed2) [Sample.damage5])
    as (_ & _ & H & _).
  apply (H Sample.completed2 Sample.damage5 eq_refl eq_refl eq_refl).
  reflexivity.
Defined.

Lemma hits_timeOrdered : timeOrdered [Sample.hit150; Sample.hit30].
Proof. repeat constructor. Defined.

Lemma hits_finite : Forall finiteAmount [Sample.hit150; Sample.hit30].
Proof. repeat constructor. Defined.

Lemma C7_dps_window_witness :
  (exists out,
     DpsLog_run [Sample.hit150; Sample.hit30] = Ok (out, [])
     /\ Forall (fun o : DpsLog => PrimFloat.is_nan (dps o) = false) out
     /\ Forall (fun l => expired (timestamp Sample.hit30) l = false)
               (fst (windowAfter [[Sample.hit150]; [Sample.hit30]])))
  /\ exists o, DpsLog_fromLogs [Sample.hit150] = Ok [o] /\ dps o = 10%float.
Proof.
  destruct (@C7_dps_window RefHost.ids) as (Hlogs & Hsingle & _). split.
  - destruct (Hlogs [Sample.hit150; Sample.hit30])
      as (out & Hout & _ & _ & _ & _ & Hinside & Hnumbers).
    destruct (Hnumbers hits_finite) as (Hnan & Hnone).
    exists out. rewrite Hnone in Hout. split; [exact Hout|]. split; [exact Hnan|].
    exact (Hinside hits_timeOrdered 1%nat [Sample.hit30] eq_refl).
  - exact (Hsingle Sample.hit150 eq_refl eq_refl).
Defined.

Lemma C8_resource_groups_witness :
  exists results o,
    ResourceChangedLogGroup_fromLogs
      [ResourceChanged Sample.mana1; ResourceChanged Sample.mana2] = Ok results
    /\ lookupResult 1%Z results = Some [o]
    /\ rg_valueAfter o = valueAfter Sample.mana2.
Proof.
  destruct (@C8_resource_groups RefHost.ids RefHost.host) as (_ & H).
  destruct (H Sample.mana1 Sample.mana2 1%Z) as (results & o & Hres & Hlook & _ & _ & Hafter).
  - right. left. reflexivity.
  - discriminate.
  - reflexivity.
  - reflexivity.
  - reflexivity.
  - exists results, o. repeat split; assumption.
Defined.

Lemma C10_header_fallback_witness :
  actionId Sample.travelling = Some Sample.idA
  /\ threat Sample.travelling = threat Sample.began0.
Proof.
  destruct (@C10_header_fallback RefHost.ids Sample.began0 (Some Sample.completed2)
              [Sample.damage5]) as (_ & H).
  destruct (H Sample.completed2 eq_refl) as (Hact & _ & _ & _ & _ & Hthreat).
  split; [apply Hact; reflexivity|apply Hthreat; reflexivity].
Defined.

(** * Entity labels on the reference host *)

#[local] Existing Instance RefHost.utils.

Lemma entity_match_shape (str : string) (m : MatchResult) :
  In m (RefHost.regexMatchAll Patterns.entityRe str) ->
  exists caps,
    (forall k, k <> 0%nat -> grp k m = nth k caps None)
    /\ (targetShape caps \/ petShape caps \/ playerShape caps).
Proof.
  intro Hin. unfold RefHost.regexMatchAll in Hin.
  apply searchAll_matches in Hin. destruct Hin as (inp0 & pos0 & rest & Hs).
  apply search_matches in Hs. destruct Hs as (inp1 & caps & Hm & Hg).
  unfold RefHost.matchHere in Hm. apply run_sound in Hm.
  destruct Hm as (inp' & caps' & HM & Hk). injection Hk as -> ->.
  exists caps. split.
  - intros k Hk. unfold grp. rewrite Hg. now apply setCap_other.
  - apply (entityRe_shape HM); reflexivity.
Qed.

Lemma showInt_parsed (d : list ascii) :
  canonical d /\ safeInteger d ->
  showInt (RefHost.parseInt (string_of_list_ascii d) - 1 + 1) = string_of_list_ascii d.
Proof.
  intros (Hcan & Hsafe). pose proof Hcan as (Hall & Hne).
  rewrite parseInt_digits; [|destruct d; [destruct Hne|discriminate]|assumption].
  rewrite nearestDouble_safe by (split; [now apply decimalValue_nonneg|exact Hsafe]).
  replace (decimalValue d - 1 + 1)%Z with (decimalValue d) by lia.
  unfold showInt.
  assert (E : (decimalValue d <? 0)%Z = false).
  { apply Z.ltb_ge. now apply decimalValue_nonneg. }
  rewrite E. now apply showNat_decimalValue.
Qed.

Lemma grpTruthy_some (k : nat) (m : MatchResult) (c : ascii) (s : string) :
  grp k m = Some (String c s) -> grpTruthy k m = true /\ captured k m = String c s.
Proof. unfold grpTruthy, captured. intros ->. split; reflexivity. Qed.

Lemma grpTruthy_none (k : nat) (m : MatchResult) :
  grp k m = None -> grpTruthy k m = false.
Proof. unfold grpTruthy. now intros ->. Qed.

Lemma captured_some (k : nat) (m : MatchResult) (s : string) :
  grp k m = Some s -> captured k m = s.
Proof. unfold captured. now intros ->. Qed.

Lemma ofMatch_label (str : string) (m : MatchResult) :
  In m (RefHost.regexMatchAll Patterns.entityRe str) ->
  canonical (list_ascii_of_string (numberOf m))
  /\ safeInteger (list_ascii_of_string (numberOf m)) ->
  exists e, Entity.ofMatch m = Ok e /\ Entity.toString e = labelOf m.
Proof.
  intros Hin Hcan. destruct (entity_match_shape _ _ Hin) as (caps & Hgrp & Hshape).
  unfold Entity.ofMatch, labelOf. unfold numberOf in Hcan.
  destruct Hshape as [(d & Hd & Hall & H1 & H2)
                     |[(o & d & n & Hd & Hall & Ho & H1 & H3 & H4 & H5 & H6)
                      |(n & d & Hd & Hall & Hn & H1 & H3 & H7 & H8 & H9)]].
  - rewrite <- Hgrp in H1, H2 by lia.
    destruct (grpTruthy_some _ _ H1) as (E1 & C1). rewrite E1 in *.
    rewrite (captured_some _ _ H2) in *. rewrite list_ascii_of_string_of_list_ascii in Hcan.
    eexists. split; [reflexivity|]. unfold Entity.toString. cbn [Entity.isTarget Entity.index].
    change (@parseInt RefHost.host) with RefHost.parseInt.
    rewrite (showInt_parsed Hcan). now rewrite C1.
  - rewrite <- Hgrp in H1, H3, H4, H5, H6 by lia.
    rewrite (grpTruthy_none _ _ H1) in *.
    destruct o as [|c o]; [congruence|].
    destruct (grpTruthy_some _ _ H3) as (E3 & C3). rewrite E3 in *.
    rewrite (captured_some _ _ H4), (captured_some _ _ H5), (captured_some _ _ H6) in *.
    rewrite list_ascii_of_string_of_list_ascii in Hcan.
    eexists. split; [reflexivity|]. unfold Entity.toString.
    cbn [Entity.isTarget Entity.isPet Entity.index Entity.name Entity.ownerName].
    change (@parseInt RefHost.host) with RefHost.parseInt.
    rewrite (showInt_parsed Hcan). now rewrite C3.
  - rewrite <- Hgrp in H1, H3, H7, H8, H9 by lia.
    rewrite (grpTruthy_none _ _ H1), (grpTruthy_none _ _ H3) in *.
    destruct n as [|c n]; [congruence|].
    destruct (grpTruthy_some _ _ H7) as (E7 & C7). rewrite E7 in *.
    rewrite (captured_some _ _ H8), (captured_some _ _ H9) in *.
    rewrite list_ascii_of_string_of_list_ascii in Hcan.
    eexists. split; [reflexivity|]. unfold Entity.toString.
    cbn [Entity.isTarget Entity.isPet Entity.index Entity.name Entity.ownerName].
    change (@parseInt RefHost.host) with RefHost.parseInt.
    rewrite (showInt_parsed Hcan). now rewrite C7.
Qed.

Lemma mapM_labels (str : string) (ms : list MatchResult) :
  (forall m, In m ms -> In m (RefHost.regexMatchAll Patterns.entityRe str)) ->
  Forall (fun m => canonical (list_ascii_of_string (numberOf m))
                   /\ safeInteger (list_ascii_of_string (numberOf m))) ms ->
  exists entities,
    mapM Entity.ofMatch ms = Ok entities
    /\ map Entity.toString entities = map labelOf ms.
Proof.
  induction ms as [|m ms IH]; intros Hin Hcan; cbn [mapM map].
  - now exists [].
  - destruct (@ofMatch_label str m) as (e & He & Hl).
    { apply Hin. now left. }
    { now apply Forall_inv in Hcan. }
    destruct IH as (es & Hes & Hls).
    { intros m' Hm'. apply Hin. now right. }
    { now apply Forall_inv_tail in Hcan. }
    rewrite He. cbn [bind]. rewrite Hes. cbn [bind].
    exists (e :: es). split; [reflexivity|]. cbn [map]. now rewrite Hl, Hls.
Qed.

(** X20: on the reference host, [Entity.toString] gives back the label an
    entity was parsed from: for a text of ASCII characters whose entity
    numbers are written without leading zeros and lie below 2^53, where the
    engine computes them exactly, [Entity.parseAll] returns the entities and
    their strings are the labels matched in the text, in their order. *)
Theorem X20_entity_labels (str : string) :
  asciiText str ->
  Forall (fun m => canonical (list_ascii_of_string (numberOf m))
                   /\ safeInteger (list_ascii_of_string (numberOf m)))
         (RefHost.regexMatchAll Patterns.entityRe str) ->
  exists entities,
    Entity.parseAll str = Ok entities
    /\ map Entity.toString entities
       = map labelOf (RefHost.regexMatchAll Patterns.entityRe str).
Proof.
  intros _ Hcan. unfold Entity.parseAll.
  change (@regexMatchAll RefHost.host) with RefHost.regexMatchAll.
  apply (@mapM_labels str); auto.
Qed.

Lemma X20_entity_labels_witness :
  exists entities,
    Entity.parseAll "[Target 2] hits [Bob (#1)] and [Bob (#1) - Wolf]" = Ok entities
    /\ map Entity.toString entities
       = map labelOf (RefHost.regexMatchAll Patterns.entityRe
                        "[Target 2] hits [Bob (#1)] and [Bob (#1) - Wolf]").
Proof.
  apply X20_entity_labels.
  - unfold asciiText. apply Forall_forall. intros c Hc.
    repeat (destruct Hc as [<-|Hc]; [vm_compute; lia|]). destruct Hc.
  - apply Forall_forall. intros m Hm. vm_compute in Hm.
    repeat (destruct Hm as [<-|Hm];
            [split; [vm_compute; repeat constructor; discriminate|reflexivity]|]).
    destruct Hm.
Defined.


(** ** Witnesses of the further properties *)

Lemma hits_sorted : sortedBy damageTimestamp [Sample.hit150; Sample.hit30].
Proof. repeat constructor. vm_compute. discriminate. Defined.

Lemma X2_groups_of_sorted_witness :
  Forall (fun g => g = withKey damageTimestamp (headTimestamp damageTimestamp g)
                             [Sample.hit150; Sample.hit30])
         (groupDuplicateTimestamps damageTimestamp [Sample.hit150; Sample.hit30]).
Proof.
  exact (proj2 (@X2_groups_of_sorted _ damageTimestamp [Sample.hit150; Sample.hit30]
                  hits_sorted)).
Defined.

Lemma X6_parseAll_text_witness :
  exists events,
    parseAll [2; 0; 1]%nat Sample.threeLines = Fulfilled events
    /\ joinLines (map (fun e => raw (header e)) events) = logs Sample.threeLines
    /\ List.length events = 3%nat.
Proof.
  destruct (@X6_parseAll_text RefHost.ids RefHost.host [2; 0; 1]%nat Sample.threeLines
              refHost_entityMatchesLabelled threeLines_cover)
    as (events & Hall & _ & Hjoin & Hlen & _).
  exists events. split; [exact Hall|]. split; [exact Hjoin|exact Hlen].
Defined.

Lemma X7_event_kind_witness :
  exists events e,
    parseAll [2; 0; 1]%nat Sample.threeLines = Fulfilled events
    /\ nth_error events 1 = Some e
    /\ timedEvent "hello" e.
Proof.
  destruct (@X7_event_kind RefHost.ids RefHost.host [2; 0; 1]%nat Sample.threeLines
              refHost_entityMatchesLabelled threeLines_cover)
    as (events & Hall & Hlines).
  destruct (Hlines 1%nat "hello" eq_refl) as (e & He & Hkind).
  exists events, e. split; [exact Hall|]. split; [exact He|exact Hkind].
Defined.

Lemma X8_event_annotations_witness :
  exists events e,
    parseAll [2; 0; 1]%nat Sample.threeLines = Fulfilled events
    /\ Forall resolved events
    /\ nth_error events 0 = Some e
    /\ resolvedFrom "[1.00] [Bob (#1)] Aura gained: Foo" e.
Proof.
  destruct (@X8_event_annotations RefHost.ids RefHost.host [2; 0; 1]%nat Sample.threeLines
              refHost_entityMatchesLabelled threeLines_cover)
    as (events & Hall & Hres & Hlines).
  destruct (Hlines 0%nat "[1.00] [Bob (#1)] Aura gained: Foo" eq_refl) as (e & He & _ & Hfrom).
  exists events, e. split; [exact Hall|]. split; [exact Hres|]. split; [exact He|exact Hfrom].
Defined.

Lemma casts_identified : Forall castIdentified Sample.casts.
Proof. repeat constructor; discriminate. Defined.

Lemma X10_cast_logs_witness :
  exists out,
    CastLog_fromLogs Sample.casts = Ok out
    /\ List.length out = 2%nat
    /\ sortedBy (fun c : CastLog => timestamp c) out.
Proof.
  destruct (@X10_cast_logs RefHost.ids Sample.casts casts_identified)
    as (out & Hout & _ & Hlen & Hsorted & _).
  exists out. split; [exact Hout|]. split; [exact Hlen|exact Hsorted].
Defined.

Lemma gainStacksFade_identified : Forall identified Sample.gainStacksFade.
Proof. repeat constructor; discriminate. Defined.

Lemma X11_aura_stacks_witness :
  exists out,
    AuraUptimeLog_fromLogs Sample.gainStacksFade Sample.bob 10 = Ok out
    /\ Forall (fun u => Forall (stacksSound Sample.bob Sample.gainStacksFade) (stacksChange u))
              out.
Proof.
  exact (@X11_aura_stacks RefHost.ids Sample.gainStacksFade Sample.bob 10
           gainStacksFade_identified).
Defined.

Lemma X12_aura_count_witness :
  exists out,
    AuraUptimeLog_fromLogs Sample.gainStacksFade Sample.bob 10 = Ok out
    /\ List.length out = 1%nat.
Proof.
  destruct (@X12_aura_count RefHost.ids Sample.gainStacksFade Sample.bob 10
              gainStacksFade_identified) as (out & Hout & Hlow & Hhigh).
  exists out. split; [exact Hout|].
  change (count (gainOf Sample.bob) Sample.gainStacksFade) with 1%nat in Hlow, Hhigh.
  change (count (refreshOf Sample.bob) Sample.gainStacksFade) with 0%nat in Hhigh. lia.
Defined.

Lemma gainStacksFade_sorted : sortedBy logTimestamp Sample.gainStacksFade.
Proof. repeat constructor; vm_compute; discriminate. Defined.

Lemma gainStacksFade_within :
  Forall (fun log => logTimestamp log <= 10) Sample.gainStacksFade.
Proof. repeat constructor; vm_compute; discriminate. Defined.

Lemma X13_aura_intervals_witness :
  exists out,
    AuraUptimeLog_fromLogs Sample.gainStacksFade Sample.bob 10 = Ok out
    /\ Forall (fun u => gainedAt u <= fadedAt u) out.
Proof.
  exact (@X13_aura_intervals RefHost.ids Sample.gainStacksFade Sample.bob 10
           gainStacksFade_identified gainStacksFade_sorted gainStacksFade_within).
Defined.

Lemma X14_reconstructors_total_witness :
  exists events,
    parseAll [2; 0; 1]%nat Sample.threeLines = Fulfilled events
    /\ (exists out, CastLog_fromLogs events = Ok out)
    /\ (exists out, ThreatLogGroup_fromLogs events = Ok out).
Proof.
  destruct (@X14_reconstructors_total RefHost.ids RefHost.host RefHost.utils
              [2; 0; 1]%nat Sample.threeLines refHost_entityMatchesLabelled threeLines_cover)
    as (events & Hall & _ & Hcast & _ & _ & Hthreat).
  exists events. split; [exact Hall|]. split; [exact Hcast|exact Hthreat].
Defined.

Lemma headers_sorted : sortedBy headerTimestamp Sample.headers.
Proof. repeat constructor; vm_compute; discriminate. Defined.

Lemma uptimes_sorted : sortedBy gainedAt Sample.uptimes.
Proof. repeat constructor; vm_compute; discriminate. Defined.

Lemma uptimes_identified :
  Forall (fun a : AuraUptimeLog => actionId a <> None) Sample.uptimes.
Proof. repeat constructor; discriminate. Defined.

Lemma X15_active_auras_witness :
  exists out,
    populateActiveAuras Sample.headers Sample.uptimes = Ok out
    /\ Forall2 (fun (log : SimLogParams) active =>
                  Permutation active (filter (activeAt (timestamp log)) Sample.uptimes))
               Sample.headers out.
Proof.
  exact (@X15_active_auras RefHost.ids RefHost.utils Sample.headers Sample.uptimes
           headers_sorted uptimes_sorted uptimes_identified).
Defined.

Lemma X16_damage_flags_witness :
  exists pr d,
    DamageDealtLog_parse Sample.hitLine = Some pr
    /\ settle pr = DamageDealt d
    /\ hit d = negb (miss d) && negb (crit d).
Proof.
  destruct (DamageDealtLog_parse Sample.hitLine) as [pr|] eqn:Hparse;
    [|vm_compute in Hparse; discriminate Hparse].
  destruct (@X16_damage_flags RefHost.ids RefHost.host Sample.hitLine pr Hparse)
    as (d & Hd & Hhit & _).
  exists pr, d. split; [reflexivity|]. split; [exact Hd|exact Hhit].
Defined.

Lemma X17_outcome_text_witness :
  exists pr d,
    DamageDealtLog_parse Sample.hitLine = Some pr
    /\ settle pr = DamageDealt d
    /\ (isHealing d = false -> isShielding d = false ->
        resultLabel d = outcomeText "Hit" (tick d)).
Proof.
  destruct (regexMatch Patterns.damageDealtRe (raw Sample.hitLine)) as [m|] eqn:Hm;
    [|vm_compute in Hm; discriminate Hm].
  assert (Hword : grp 3 m = Some "Hit").
  { vm_compute in Hm. injection Hm as <-. reflexivity. }
  destruct (@X17_outcome_text RefHost.ids RefHost.host Sample.hitLine m "Hit" Hm Hword)
    as (pr & d & Hparse & Hd & Htext & _).
  { right. left. reflexivity. }
  exists pr, d. split; [exact Hparse|]. split; [exact Hd|exact Htext].
Defined.

Lemma X22_active_auras_sound_witness :
  exists out,
    populateActiveAuras Sample.headers Sample.uptimes = Ok out
    /\ List.length out = 3%nat.
Proof.
  destruct (populateActiveAuras Sample.headers Sample.uptimes) as [out|] eqn:Hout;
    [|vm_compute in Hout; discriminate Hout].
  exists out. split; [reflexivity|].
  exact (proj1 (@X22_active_auras_sound RefHost.ids RefHost.utils Sample.headers
                  Sample.uptimes out Hout)).
Defined.
